(** * Mono.Posix [signal.c]: the UnixSignal registration table, its dispatch
      handler and [WaitAny], as a shallow embedding.

    The C file keeps a static table of [NUM_SIGNALS] registrations, installs
    [default_handler] with [signal(2)], and multiplexes waits over one pipe per
    registration with [select(2)].  The embedding keeps the table as a list of
    records, the operating system as an explicit part of the state
    (dispositions, [errno], and the sequence of calls issued so far), and takes
    every answer of the environment (the value of [pthread_mutex_lock], of
    [pipe], of [select]) as an argument of the operation that asks for it. *)

From Stdlib Require Import ZArith List Lia.
From stdpp Require Import base tactics decidable option numbers list functions gmap.

Open Scope Z_scope.

(** ** Platform *)

(** Where the table lives, how large a slot is, where [default_handler] is
    and which signal numbers [signal(2)] refuses ([SIGKILL], [SIGSTOP],
    numbers past the last signal).  Addresses are positive: no object lives
    at [NULL]. *)
Record platform := {
  signals_addr : positive;
  sizeof_signal_info : positive;
  default_handler_addr : positive;
  uncatchable : Z → bool
}.

(** <signal.h> and <errno.h>, as every Unix defines them. *)
Definition NULL : Z := 0.
Definition SIG_DFL : Z := 0.
Definition SIG_IGN : Z := 1.
Definition SIG_ERR : Z := -1.
Definition EINTR : Z := 4.
Definition EINVAL : Z := 22.

Definition NUM_SIGNALS : nat := 64.

(** [int] arithmetic: [g_atomic_int_inc] adds one to a 32-bit [int] and wraps
    around. *)
Definition int_wrap (z : Z) : Z := (z + 2 ^ 31) mod 2 ^ 32 - 2 ^ 31.
Definition INT_MAX : Z := 2 ^ 31 - 1.
Definition INT_MIN : Z := - 2 ^ 31.

(** ** Data *)

(** Modelled from the spec: [struct Mono_Unix_UnixSignal_SignalInfo] is
    declared in map.h, which is not among the sources.  The spec gives a
    Registration six fields ([signal_number], [fired_count], [wait_read_fd],
    [wait_write_fd], [owns_disposition], [prior_disposition]); they appear
    here under the names signal.c uses, with the types its uses fix: the
    five that go through [g_atomic_int_*] or are compared with an [int] are
    [int]s, [handler] holds what [signal] returns. *)
Record signal_info := {
  signum : Z;
  count : Z;
  read_fd : Z;
  write_fd : Z;
  have_handler : Z;
  handler : Z
}.

Global Instance signal_info_inhabited : Inhabited signal_info :=
  populate {| signum := 0; count := 0; read_fd := 0; write_fd := 0;
              have_handler := 0; handler := 0 |}.

Global Instance signal_info_eq_dec : EqDecision signal_info.
Proof. solve_decision. Defined.

Definition set_signum (v : Z) (x : signal_info) : signal_info :=
  {| signum := v; count := count x; read_fd := read_fd x; write_fd := write_fd x;
     have_handler := have_handler x; handler := handler x |}.
Definition set_count (v : Z) (x : signal_info) : signal_info :=
  {| signum := signum x; count := v; read_fd := read_fd x; write_fd := write_fd x;
     have_handler := have_handler x; handler := handler x |}.
Definition set_read_fd (v : Z) (x : signal_info) : signal_info :=
  {| signum := signum x; count := count x; read_fd := v; write_fd := write_fd x;
     have_handler := have_handler x; handler := handler x |}.
Definition set_write_fd (v : Z) (x : signal_info) : signal_info :=
  {| signum := signum x; count := count x; read_fd := read_fd x; write_fd := v;
     have_handler := have_handler x; handler := handler x |}.
Definition set_have_handler (v : Z) (x : signal_info) : signal_info :=
  {| signum := signum x; count := count x; read_fd := read_fd x; write_fd := write_fd x;
     have_handler := v; handler := handler x |}.
Definition set_handler (v : Z) (x : signal_info) : signal_info :=
  {| signum := signum x; count := count x; read_fd := read_fd x; write_fd := write_fd x;
     have_handler := have_handler x; handler := v |}.

(** The fields of a slot that [default_handler] reads, and that are written
    with [g_atomic_int_set]. *)
Inductive field := f_signum | f_count.

(** What [select] answers: the descriptors it reports readable (none: the
    timeout elapsed), or a failure with its [errno]. *)
Inductive select_result :=
| SelReturns (ready : gset Z)
| SelErr (e : Z).

(** What [pipe] answers. *)
Inductive pipe_result :=
| PipeOk (rfd wfd : Z)
| PipeErr (e : Z).

(** The calls a thread issues, in order. *)
Inductive event :=
| EvLock (mr : Z)
| EvUnlock
| EvSignal (sig h ret : Z)
| EvAtomicSet (slot : nat) (f : field) (v : Z)
| EvPipe (res : pipe_result)
| EvSelect (nfds : Z) (fds : gset Z) (tv : option (Z * Z)) (res : select_result)
| EvRead (fd : Z) (n : Z)
| EvWrite (fd : Z) (byte : Z) (n : Z)
| EvClose (fd : Z).

(** The state the functions of signal.c act on: the static table [signals],
    the dispositions the operating system holds for each signal number,
    [errno], and the calls issued so far (oldest first). *)
Record world := {
  signals : list signal_info;
  dispositions : Z → Z;
  errno : Z;
  trace : list event
}.

Definition set_signals (t : list signal_info) (w : world) : world :=
  {| signals := t; dispositions := dispositions w; errno := errno w; trace := trace w |}.
Definition set_dispositions (d : Z → Z) (w : world) : world :=
  {| signals := signals w; dispositions := d; errno := errno w; trace := trace w |}.
Definition set_errno (e : Z) (w : world) : world :=
  {| signals := signals w; dispositions := dispositions w; errno := e; trace := trace w |}.
Definition log (e : event) (w : world) : world :=
  {| signals := signals w; dispositions := dispositions w; errno := errno w;
     trace := trace w ++ [e] |}.

(** [signals[i]] and [signals[i].f = ...]. *)
Definition slot (i : nat) (w : world) : signal_info := signals w !!! i.
Definition store (i : nat) (f : signal_info → signal_info) (w : world) : world :=
  set_signals (<[i := f (slot i w)]> (signals w)) w.

(** [g_atomic_int_set (&signals[i].f, v)] *)
Definition atomic_set (i : nat) (f : field) (v : Z) (w : world) : world :=
  log (EvAtomicSet i f v)
      (store i (match f with f_signum => set_signum v | f_count => set_count v end) w).

(** [g_atomic_int_inc (&signals[i].count)] *)
Definition atomic_inc_count (i : nat) (w : world) : world :=
  store i (λ x, set_count (int_wrap (count x + 1)) x) w.

(** [for (i = lo; i < lo + n; ++i) body], where the body answers [true] to
    [break]. *)
Fixpoint for_loop {S : Type} (body : nat → S → bool * S) (i n : nat) (s : S) : S :=
  match n with
  | O => s
  | Datatypes.S n' =>
      let '(brk, s') := body i s in
      if brk then s' else for_loop body (Datatypes.S i) n' s'
  end.

(** What a call that dereferences caller-supplied pointers or blocks can do. *)
Inductive outcome (A : Type) :=
| Done (a : A) (w : world)
| Undefined
| Blocked (w : world).
Arguments Done {A} a w.
Arguments Undefined {A}.
Arguments Blocked {A} w.

Section Signal.
Context (P : platform).

(** ** Pointers into the table *)

Definition signals_base : Z := Z.pos (signals_addr P).
Definition info_size : Z := Z.pos (sizeof_signal_info P).

(** [&signals[i]] *)
Definition addr_of (i : nat) : Z := signals_base + Z.of_nat i * info_size.

(** The element a pointer designates, when it designates one. *)
Definition slot_of (p : Z) : option nat :=
  if decide (signals_base ≤ p ∧ p < addr_of NUM_SIGNALS ∧ (p - signals_base) mod info_size = 0)
  then Some (Z.to_nat ((p - signals_base) / info_size)) else None.

Definition default_handler_ptr : Z := Z.pos (default_handler_addr P).

(** ** The operating system *)

(** [signal (sig, h)]: the previous disposition, or [SIG_ERR] with
    [errno = EINVAL] for a number that cannot be caught. *)
Definition sys_signal (sig h : Z) (w : world) : Z * world :=
  if decide (0 < sig ∧ uncatchable P sig = false) then
    let old := dispositions w sig in
    (old, log (EvSignal sig h old) (set_dispositions (<[sig := h]> (dispositions w)) w))
  else (SIG_ERR, log (EvSignal sig h SIG_ERR) (set_errno EINVAL w)).

(** ** default_handler *)

Definition default_handler_body (sig : Z) (i : nat) (w : world) : bool * world :=
  if decide (signum (slot i w) ≠ sig) then (false, w)
  else
    let w := atomic_inc_count i w in
    let fd := write_fd (slot i w) in
    if decide (fd > 0) then (false, log (EvWrite fd (sig mod 256) 1) w)
    else (false, w).

Definition default_handler (sig : Z) (w : world) : world :=
  for_loop (default_handler_body sig) 0 NUM_SIGNALS w.

(** ** Mono_Unix_UnixSignal_install *)

(** The locals [h], [have_handler] and [handler]; [h] is kept as the index
    of the slot it points at.  [handler] is read only after [have_handler]
    was set, so its initial value does not matter. *)
Record install_frame := {
  fr_h : option nat;
  fr_have_handler : Z;
  fr_handler : Z
}.

(** The first [if] of the loop: claim the first free slot and install the
    handler; the flag asks for the [break]. *)
Definition install_claim (sig : Z) (i : nat) (fr : install_frame) (w : world)
  : bool * install_frame * world :=
  if decide (fr_h fr = None ∧ signum (slot i w) = 0) then
    let '(p, w) := sys_signal sig default_handler_ptr w in
    let w := store i (set_handler p) w in
    if decide (handler (slot i w) = SIG_ERR) then
      (true,
       {| fr_h := None; fr_have_handler := fr_have_handler fr;
          fr_handler := fr_handler fr |},
       store i (set_handler NULL) w)
    else
      (false,
       {| fr_h := Some i; fr_have_handler := fr_have_handler fr;
          fr_handler := fr_handler fr |},
       store i (set_have_handler 1) w)
  else (false, fr, w).

(** The second [if]: remember the disposition another registration of [sig]
    has saved. *)
Definition install_lookup (sig : Z) (i : nat) (fr : install_frame) (w : world)
  : install_frame :=
  if decide (fr_have_handler fr = 0 ∧ signum (slot i w) = sig ∧
             handler (slot i w) ≠ default_handler_ptr) then
    {| fr_h := fr_h fr; fr_have_handler := 1; fr_handler := handler (slot i w) |}
  else fr.

Definition install_body (sig : Z) (i : nat) (s : install_frame * world)
  : bool * (install_frame * world) :=
  let '(fr, w) := s in
  let '(brk, fr, w) := install_claim sig i fr w in
  if brk then (true, (fr, w)) else
  let fr := install_lookup sig i fr w in
  if decide (is_Some (fr_h fr) ∧ fr_have_handler fr ≠ 0) then (true, (fr, w))
  else (false, (fr, w)).

Definition Mono_Unix_UnixSignal_install (mr : Z) (sig : Z) (w : world) : Z * world :=
  let w := log (EvLock mr) w in
  if decide (mr ≠ 0) then (NULL, set_errno mr w)
  else
    let '(fr, w) :=
      for_loop (install_body sig) 0 NUM_SIGNALS
        ({| fr_h := None; fr_have_handler := 0; fr_handler := 0 |}, w) in
    match fr_h fr with
    | Some i =>
        let w :=
          if decide (fr_have_handler fr ≠ 0) then
            store i (set_handler (fr_handler fr)) (store i (set_have_handler 1) w)
          else w in
        let w := atomic_set i f_count 0 w in
        let w := atomic_set i f_signum sig w in
        (addr_of i, log EvUnlock w)
    | None => (NULL, log EvUnlock w)
    end.

(** ** count_handlers *)

Definition count_handlers (sig : Z) (w : world) : Z :=
  for_loop (λ i c, (false, if decide (signum (slot i w) = sig) then c + 1 else c))
           0 NUM_SIGNALS 0.

(** ** Mono_Unix_UnixSignal_uninstall *)

Definition Mono_Unix_UnixSignal_uninstall (mr : Z) (info : Z) (w : world) : outcome Z :=
  let w := log (EvLock mr) w in
  if decide (mr ≠ 0) then Done (-1) (set_errno mr w)
  else if decide (info = NULL ∨ info < signals_base ∨ info > addr_of NUM_SIGNALS) then
    Done (-1) (log EvUnlock (set_errno EINVAL w))
  else
    match slot_of info with
    | None => Undefined
    | Some i =>
        let '(r, w) :=
          if decide (have_handler (slot i w) ≠ 0 ∧
                     count_handlers (signum (slot i w)) w = 1) then
            let '(p, w) := sys_signal (signum (slot i w)) (handler (slot i w)) w in
            let r := if decide (p ≠ SIG_ERR) then 0 else -1 in
            (r, store i (set_have_handler 0) (store i (set_handler NULL) w))
          else (-1, w) in
        Done r (log EvUnlock (store i (set_signum 0) w))
    end.

(** ** Mono_Unix_UnixSignal_WaitAny *)

(** Calls that thread the state, may dereference a pointer that designates
    no slot, and may never return. *)
Definition M (A : Type) : Type := world → outcome A.

Definition ret {A : Type} (a : A) : M A := λ w, Done a w.

Definition bind {A B : Type} (m : M A) (k : A → M B) : M B :=
  λ w, match m w with
       | Done a w' => k a w'
       | Undefined => Undefined
       | Blocked w' => Blocked w'
       end.

Global Instance M_ret : MRet M := @ret.
Global Instance M_bind : MBind M := λ A B k m, bind m k.

Definition act (f : world → world) : M unit := λ w, Done tt (f w).
Definition read_world {A : Type} (f : world → A) : M A := λ w, Done (f w) w.

(** [h = signals [i]] for the array of pointers the caller passed: the slot
    the [i]-th pointer designates. *)
Definition deref (_signals : list Z) (i : nat) : M nat :=
  λ w, match _signals !! i with
       | Some p => match slot_of p with
                   | Some k => Done k w
                   | None => Undefined
                   end
       | None => Undefined
       end.

Fixpoint for_loopM {S : Type} (body : nat → S → M (bool * S)) (i n : nat) (s : S)
  : M S :=
  match n with
  | O => ret s
  | Datatypes.S n' =>
      '(brk, s') ← body i s;
      if (brk : bool) then ret s' else for_loopM body (Datatypes.S i) n' s'
  end.

(** What the environment answers during one call of [WaitAny]: the value the
    uninitialized local [r] of [setup_pipes] happens to hold, the result of
    the [i]-th call of [pipe], the results of the successive calls of
    [select] (when they run out, [select] does not return), and whether the
    [read] issued in round [i] of the scan returns: the pipes are made by
    plain [pipe ()], so a [read] from one that is empty does not. *)
Record wait_env := {
  env_r0 : Z;
  env_pipe : nat → pipe_result;
  env_select : list select_result;
  env_read : nat → bool
}.

(** The locals [r], [*read_fds] and [*max_fd] of [setup_pipes]. *)
Definition setup_pipes_body (env : wait_env) (_signals : list Z) (i : nat)
    (s : Z * gset Z * Z) : M (bool * (Z * gset Z * Z)) :=
  let '(_, read_fds, max_fd) := s in
  act (log (EvPipe (env_pipe env i)));;
  match env_pipe env i with
  | PipeErr e =>
      act (set_errno e);;
      ret (true, (-1, read_fds, max_fd))
  | PipeOk rfd wfd =>
      h ← deref _signals i;
      act (store h (set_read_fd rfd));;
      act (store h (set_write_fd wfd));;
      fd ← read_world (λ w, read_fd (slot h w));
      let max_fd := if decide (fd > max_fd) then fd else max_fd in
      ret (false, (0, {[fd]} ∪ read_fds, max_fd))
  end.

Definition setup_pipes (env : wait_env) (_signals : list Z) (count : Z)
    (read_fds : gset Z) (max_fd : Z) : M (Z * gset Z * Z) :=
  for_loopM (setup_pipes_body env _signals) 0 (Z.to_nat count)
            (env_r0 env, read_fds, max_fd).

Definition teardown_pipes_body (_signals : list Z) (i : nat) (s : unit)
  : M (bool * unit) :=
  h ← deref _signals i;
  rfd ← read_world (λ w, read_fd (slot h w));
  (if decide (rfd ≠ 0) then act (log (EvClose rfd)) else ret tt);;
  wfd ← read_world (λ w, write_fd (slot h w));
  (if decide (wfd ≠ 0) then act (log (EvClose wfd)) else ret tt);;
  act (store h (set_read_fd 0));;
  act (store h (set_write_fd 0));;
  ret (false, tt).

Definition teardown_pipes (_signals : list Z) (count : Z) : M unit :=
  for_loopM (teardown_pipes_body _signals) 0 (Z.to_nat count) tt.

(** [struct timeval] built from the timeout: [NULL] for [-1]. *)
Definition timeval_of (timeout : Z) : option (Z * Z) :=
  if decide (timeout ≠ -1)
  then Some (Z.quot timeout 1000, Z.rem timeout 1000 * 1000)
  else None.

(** [select (nfds, read_fds, NULL, NULL, ptv)]: the count of descriptors left
    in [*read_fds], which now holds those below [nfds] that were reported
    readable; on failure [-1], [errno], and [*read_fds] as it was. *)
Definition sys_select (res : select_result) (nfds : Z) (read_fds : gset Z)
    (tv : option (Z * Z)) : M (Z * gset Z) :=
  act (log (EvSelect nfds read_fds tv res));;
  match res with
  | SelReturns ready =>
      let fds := filter (λ fd, fd < nfds ∧ fd ∈ ready) read_fds in
      ret (Z.of_nat (size fds), fds)
  | SelErr e =>
      act (set_errno e);;
      ret (-1, read_fds)
  end.

(** [do { ... r = select (...); } while (r == -1 && errno == EINTR);] *)
Fixpoint select_loop (script : list select_result) (max_fd : Z)
    (read_fds : gset Z) (timeout : Z) : M (Z * gset Z) :=
  match script with
  | [] => λ w, Blocked w
  | res :: script' =>
      '(r, fds) ← sys_select res (max_fd + 1) read_fds (timeval_of timeout);
      e ← read_world errno;
      if decide (r = -1 ∧ e = EINTR)
      then select_loop script' max_fd fds timeout
      else ret (r, fds)
  end.

(** [read (fd, &c, 1)], its result ignored: a call that returns, or one
    that never does. *)
Definition sys_read (returns : bool) (fd : Z) : M unit :=
  if returns then act (log (EvRead fd 1)) else λ w, Blocked w.

Definition scan_body (env : wait_env) (_signals : list Z) (read_fds : gset Z)
    (i : nat) (idx : Z) : M (bool * Z) :=
  h ← deref _signals i;
  fd ← read_world (λ w, read_fd (slot h w));
  if decide (fd ∈ read_fds) then
    sys_read (env_read env i) fd;;
    ret (false, if decide (idx = -1) then Z.of_nat i else idx)
  else ret (false, idx).

Definition wait_for_any (env : wait_env) (_signals : list Z) (count max_fd : Z)
    (read_fds : gset Z) (timeout : Z) : M Z :=
  '(r, read_fds) ← select_loop (env_select env) max_fd read_fds timeout;
  let idx := -1 in
  if decide (r = 0) then ret timeout
  else if decide (r > 0) then
    for_loopM (scan_body env _signals read_fds) 0 (Z.to_nat count) idx
  else ret idx.

Definition Mono_Unix_UnixSignal_WaitAny (mr : Z) (env : wait_env)
    (_signals : list Z) (count timeout : Z) : M Z :=
  act (log (EvLock mr));;
  if decide (mr ≠ 0) then
    act (set_errno mr);;
    ret (-1)
  else
    '(r, read_fds, max_fd) ← setup_pipes env _signals count ∅ 0;
    r ← (if decide (r = 0)
         then wait_for_any env _signals count max_fd read_fds timeout
         else ret r);
    teardown_pipes _signals count;;
    act (log EvUnlock);;
    ret r.

End Signal.

(** * Vocabulary of the properties *)

(** The table is declared with [NUM_SIGNALS] slots. *)
Definition wf (w : world) : Prop := length (signals w) = NUM_SIGNALS.

(** What one delivery of [sig] does to a slot, and the wake-up bytes it
    writes, slot by slot. *)
Definition bump (sig : Z) (x : signal_info) : signal_info :=
  if decide (signum x = sig) then set_count (int_wrap (count x + 1)) x else x.

Definition wakeups (sig : Z) (T : list signal_info) : list event :=
  flat_map (λ x, if decide (signum x = sig ∧ write_fd x > 0)
                 then [EvWrite (write_fd x) (sig mod 256) 1] else []) T.

(** [n] deliveries of [sig], one after the other. *)
Definition deliver (n : N) (sig : Z) (w : world) : world :=
  N.iter n (default_handler sig) w.

(** The first element of a list that satisfies [Q]. *)
Definition first_at {A : Type} (Q : A → Prop) (l : list A) (i : nat) (x : A) : Prop :=
  l !! i = Some x ∧ Q x ∧ ∀ k y, (k < i)%nat → l !! k = Some y → ¬ Q y.

(** A slot is free when its signal number is [0]. *)
Definition free (x : signal_info) : Prop := signum x = 0.

(** The registrations of [sig] in a table. *)
Definition holders (sig : Z) (T : list signal_info) : list signal_info :=
  filter (λ x, signum x = sig) T.

(** What a signal handler that runs between two calls of a thread can see of
    the table: the [g_atomic_int_set] stores issued so far, applied in order. *)
Definition observe_event (T : list signal_info) (e : event) : list signal_info :=
  match e with
  | EvAtomicSet i f_signum v => <[i := set_signum v (T !!! i)]> T
  | EvAtomicSet i f_count v => <[i := set_count v (T !!! i)]> T
  | _ => T
  end.

Definition observe (evs : list event) (T : list signal_info) : list signal_info :=
  foldl observe_event T evs.

(** A call returns from [w], with a result and a state that satisfy [Q]. *)
Definition returns {A : Type} (m : M A) (w : world) (Q : A → world → Prop) : Prop :=
  ∃ a w', m w = Done a w' ∧ Q a w'.

(** The read end of the [i]-th pipe the environment hands out. *)
Definition pipe_rfd (env : wait_env) (i : nat) : Z :=
  match env_pipe env i with PipeOk rfd _ => rfd | PipeErr _ => 0 end.

(** The first [n] calls of [pipe] succeed. *)
Definition pipes_ok (env : wait_env) (n : nat) : Prop :=
  ∀ i, (i < n)%nat → ∃ rfd wfd, env_pipe env i = PipeOk rfd wfd.

(** The [read] calls in a sequence of calls: descriptor and length. *)
Definition reads_of (evs : list event) : list (Z * Z) :=
  omap (λ e, match e with EvRead fd n => Some (fd, n) | _ => None end) evs.

(** The state of [signals_mutex] after a call. *)
Definition lock_step (held : bool) (e : event) : bool :=
  match e with
  | EvLock mr => if decide (mr = 0) then true else held
  | EvUnlock => false
  | _ => held
  end.

Definition lock_after (held : bool) (evs : list event) : bool :=
  foldl lock_step held evs.

(** Every [select] in a sequence of calls is issued while the lock is
    [want]: held ([true]) or released ([false]). *)
Fixpoint selects_all (want held : bool) (evs : list event) : bool :=
  match evs with
  | [] => true
  | e :: evs' =>
      match e with
      | EvSelect _ _ _ _ => bool_decide (held = want)
      | _ => true
      end && selects_all want (lock_step held e) evs'
  end.

(** A call that neither takes nor releases the lock. *)
Definition no_lock_event (e : event) : Prop :=
  match e with EvLock _ | EvUnlock => False | _ => True end.

(** The calls of a wait on its pipes, and a sequence of calls in which each
    of them is issued while the lock is held. *)
Definition wait_call (e : event) : Prop :=
  match e with
  | EvPipe _ | EvSelect _ _ _ _ | EvRead _ _ | EvClose _ => True
  | _ => False
  end.

Definition locked_calls (issued : list event) : Prop :=
  ∀ pre e post, issued = pre ++ e :: post → wait_call e → lock_after false pre = true.

(** The reads of the scan return for the pipes that [select] reported: they
    hold a byte. *)
Definition reads_return (env : wait_env) (n : nat) (ready : gset Z) : Prop :=
  ∀ i, (i < n)%nat → pipe_rfd env i ∈ ready → env_read env i = true.

(** What holds after [j] rounds of the loop of [setup_pipes] over the slots
    [ks], started in [w0]. *)
Definition armed (env : wait_env) (ks : list nat) (w0 : world) (j : nat)
    (s : Z * gset Z * Z) (w : world) : Prop :=
  wf w ∧
  s.1.1 = (if j is O then env_r0 env else 0) ∧
  s.1.2 = list_to_set (pipe_rfd env <$> seq 0 j) ∧
  (∀ fd, fd ∈ s.1.2 → fd ≤ s.2) ∧
  reads_of (trace w) = reads_of (trace w0) ∧
  (NoDup ks → ∀ i k, (i < j)%nat → ks !! i = Some k →
               read_fd (slot k w) = pipe_rfd env i).

(** What holds after [j] rounds of the scan of [wait_for_any], started in
    [w0], over pipes whose read ends are [rf 0], [rf 1], ... *)
Definition scanned (rf : nat → Z) (fds : gset Z) (w0 : world) (j : nat)
    (idx : Z) (w : world) : Prop :=
  signals w = signals w0 ∧
  reads_of (trace w) =
    reads_of (trace w0) ++ ((λ fd, (fd, 1)) <$> filter (λ fd, fd ∈ fds) (rf <$> seq 0 j)) ∧
  ((idx = -1 ∧ ∀ i, (i < j)%nat → rf i ∉ fds) ∨
   (∃ i0, (i0 < j)%nat ∧ idx = Z.of_nat i0 ∧ rf i0 ∈ fds ∧
          ∀ i, (i < i0)%nat → rf i ∉ fds)).

(** Every call a computation issues satisfies [Q], whether it returns or
    blocks. *)
Definition emits {A : Type} (Q : event → Prop) (m : M A) : Prop :=
  ∀ w, match m w with
       | Done _ w' | Blocked w' => ∃ evs, trace w' = trace w ++ evs ∧ Forall Q evs
       | Undefined => True
       end.

Section Vocabulary.
Context (P : platform).

(** A slot records a prior disposition for [sig]: it is registered for [sig]
    and its saved handler is not [default_handler] itself. *)
Definition records (sig : Z) (x : signal_info) : Prop :=
  signum x = sig ∧ handler x ≠ default_handler_ptr P.

(** [signal (sig, ...)] succeeds. *)
Definition catchable (sig : Z) : Prop := 0 < sig ∧ uncatchable P sig = false.

(** The state in the loop of [install] once the slot at [i] was claimed. *)
Definition claimed (sig : Z) (w : world) (i : nat) (x : signal_info) : world :=
  {| signals := <[i := set_have_handler 1 (set_handler (dispositions w sig) x)]> (signals w);
     dispositions := <[sig := default_handler_ptr P]> (dispositions w);
     errno := errno w;
     trace := trace w ++ [EvLock 0; EvSignal sig (default_handler_ptr P) (dispositions w sig)] |}.

(** What the loop of [install] leaves in [h], [have_handler], [handler] and
    the state. *)
Definition install_loop_post (sig : Z) (w : world) (s : install_frame * world) : Prop :=
  match fr_h (fst s) with
  | None =>
      (snd s = log (EvLock 0) w ∧ ∀ y, y ∈ signals w → ¬ free y) ∨
      (∃ i x, first_at free (signals w) i x ∧
              ¬ (catchable sig ∧ dispositions w sig ≠ SIG_ERR))
  | Some i =>
      ∃ x, first_at free (signals w) i x ∧ catchable sig ∧
           dispositions w sig ≠ SIG_ERR ∧ snd s = claimed sig w i x ∧
           ((fr_have_handler (fst s) = 0 ∧ ∀ y, y ∈ signals w → ¬ records sig y) ∨
            (fr_have_handler (fst s) = 1 ∧
             ∃ k y, first_at (records sig) (signals w) k y ∧
                    fr_handler (fst s) = handler y))
  end.

Definition install_loop_inv (sig : Z) (w : world) (j : nat) (s : install_frame * world)
  : Prop :=
  match fr_h (fst s) with
  | None =>
      snd s = log (EvLock 0) w ∧
      ∀ k y, (k < j)%nat → signals w !! k = Some y → ¬ free y
  | Some i =>
      (i < j)%nat ∧
      ∃ x, first_at free (signals w) i x ∧ catchable sig ∧
           dispositions w sig ≠ SIG_ERR ∧ snd s = claimed sig w i x
  end ∧
  ((fr_have_handler (fst s) = 0 ∧
    ∀ k y, (k < j)%nat → signals w !! k = Some y → ¬ records sig y) ∨
   (fr_have_handler (fst s) = 1 ∧
    ∃ k y, first_at (records sig) (signals w) k y ∧ fr_handler (fst s) = handler y)).

(** The state [install] leaves when it registers [sig] in the slot at [i],
    which held [x], with [hd] as the saved disposition. *)
Definition installed (sig : Z) (w : world) (i : nat) (x : signal_info) (hd : Z) : world :=
  {| signals :=
       <[i := {| signum := sig; count := 0; read_fd := read_fd x; write_fd := write_fd x;
                 have_handler := 1; handler := hd |}]> (signals w);
     dispositions := <[sig := default_handler_ptr P]> (dispositions w);
     errno := errno w;
     trace := trace w ++
       [EvLock 0; EvSignal sig (default_handler_ptr P) (dispositions w sig);
        EvAtomicSet i f_count 0; EvAtomicSet i f_signum sig; EvUnlock] |}.

(** The disposition [install] saves: the one the first registration of [sig]
    recorded, or else what [signal] returned. *)
Definition saved_handler (sig : Z) (w : world) (hd : Z) : Prop :=
  (hd = dispositions w sig ∧ ∀ y, y ∈ signals w → ¬ records sig y) ∨
  (∃ k y, first_at (records sig) (signals w) k y ∧ hd = handler y).

(** The state [uninstall] leaves when other registrations of the signal remain:
    only the slot is released. *)
Definition released (w : world) (i : nat) (x : signal_info) : world :=
  {| signals := <[i := set_signum 0 x]> (signals w);
     dispositions := dispositions w;
     errno := errno w;
     trace := trace w ++ [EvLock 0; EvUnlock] |}.

(** The state [uninstall] leaves when it hands the signal back. *)
Definition restored (w : world) (i : nat) (x : signal_info) : world :=
  {| signals := <[i := set_signum 0 (set_have_handler 0 (set_handler NULL x))]> (signals w);
     dispositions := <[signum x := handler x]> (dispositions w);
     errno := errno w;
     trace := trace w ++
       [EvLock 0; EvSignal (signum x) (handler x) (dispositions w (signum x)); EvUnlock] |}.

(** Every live registration has [default_handler] installed for its signal:
    what [install] establishes and [uninstall] keeps. *)
Definition consistent (w : world) : Prop :=
  ∀ y, y ∈ signals w → signum y ≠ 0 →
       dispositions w (signum y) = default_handler_ptr P.

(** The state [uninstall] leaves when [signal] refuses the signal number of
    the last registration. *)
Definition refused (w : world) (i : nat) (x : signal_info) : world :=
  {| signals := <[i := set_signum 0 (set_have_handler 0 (set_handler NULL x))]> (signals w);
     dispositions := dispositions w;
     errno := EINVAL;
     trace := trace w ++ [EvLock 0; EvSignal (signum x) (handler x) SIG_ERR; EvUnlock] |}.

(** The state [uninstall] leaves when it rejects its argument. *)
Definition rejected (w : world) : world :=
  {| signals := signals w; dispositions := dispositions w; errno := EINVAL;
     trace := trace w ++ [EvLock 0; EvUnlock] |}.

(** What [WaitAny] does between [pthread_mutex_lock] and
    [pthread_mutex_unlock]. *)
Definition wait_locked (env : wait_env) (_signals : list Z) (count timeout : Z) : M Z :=
  '(r, read_fds, max_fd) ← setup_pipes P env _signals count ∅ 0;
  r ← (if decide (r = 0)
       then wait_for_any P env _signals count max_fd read_fds timeout
       else ret r);
  teardown_pipes P _signals count;;
  ret r.

End Vocabulary.

(** ** A platform and a run to evaluate on *)

(** Linux on x86-64 with glibc: 32-byte slots; there are 64 signals, of which
    [SIGKILL] and [SIGSTOP] cannot be caught and 32 and 33 are kept by the C
    library, whose [signal] refuses them. *)
Definition linux : platform :=
  {| signals_addr := 4096; sizeof_signal_info := 32; default_handler_addr := 8192;
     uncatchable := λ s, bool_decide (s = 9 ∨ s = 19 ∨ s = 32 ∨ s = 33 ∨ 64 < s) |}.

(** The table at program start: static storage is zeroed. *)
Definition boot : world :=
  {| signals := replicate NUM_SIGNALS inhabitant; dispositions := λ _, SIG_DFL;
     errno := 0; trace := [] |}.

(** One registration of signal 10, then a second one. *)
Definition once : world := snd (Mono_Unix_UnixSignal_install linux 0 10 boot).
Definition twice : world := snd (Mono_Unix_UnixSignal_install linux 0 10 once).

(** The result and the state of a call that returned (or the state it is
    blocked in). *)
Definition returned {A : Type} (o : outcome A) : option A :=
  match o with Done a _ => Some a | _ => None end.
Definition state_of {A : Type} (o : outcome A) : option world :=
  match o with Done _ w => Some w | Blocked w => Some w | Undefined => None end.

(** The first registration uninstalled again: its slot is free. *)
Definition freed : world :=
  default boot (state_of (Mono_Unix_UnixSignal_uninstall linux 0 (addr_of linux 0) once)).

(** An environment for [WaitAny]: [pipe] hands out the descriptors 3 and 4,
    5 and 6, ...; [select] is interrupted once and then reports [ready]. *)
Definition fresh_pipes (i : nat) : pipe_result :=
  PipeOk (Z.of_nat (3 + 2 * i)) (Z.of_nat (4 + 2 * i)).

Definition wake (ready : gset Z) : wait_env :=
  {| env_r0 := 0; env_pipe := fresh_pipes;
     env_select := [SelErr EINTR; SelReturns ready];
     env_read := λ _, true |}.

(** The same, with pipes that hold a single byte: the first [read] of the
    scan returns, a further one finds its pipe empty. *)
Definition wake_once (ready : gset Z) : wait_env :=
  {| env_r0 := 0; env_pipe := fresh_pipes;
     env_select := [SelErr EINTR; SelReturns ready];
     env_read := λ i, bool_decide (i = 0%nat) |}.

(** The calls issued since [w0]. *)
Definition issued_since {A : Type} (w0 : world) (o : outcome A) : option (list event) :=
  (λ w, drop (length (trace w0)) (trace w)) <$> state_of o.

(** * Vocabulary of the further properties *)

(** Two slots hold the same registration: they differ at most in the
    descriptors of a wait. *)
Definition same_registration (x y : signal_info) : Prop :=
  signum x = signum y ∧ count x = count y ∧
  have_handler x = have_handler y ∧ handler x = handler y.

(** A property of the state that a computation keeps, whether it returns or
    blocks. *)
Definition keeps {A : Type} (I : world → Prop) (m : M A) : Prop :=
  ∀ w, I w → match m w with
             | Done _ w' | Blocked w' => I w'
             | Undefined => True
             end.

(** A computation that, from [w], either returns with [Q] or blocks in a
    state with [B]; it dereferences no pointer that designates no slot. *)
Definition settles {A : Type} (m : M A) (w : world) (Q : A → world → Prop)
    (B : world → Prop) : Prop :=
  match m w with
  | Done a w' => Q a w'
  | Blocked w' => B w'
  | Undefined => False
  end.

(** The kinds of calls, and the calls of one kind in a sequence. *)
Inductive call :=
| CLock | CUnlock | CSignal | CAtomicSet | CPipe | CSelect | CRead | CWrite | CClose.

Global Instance call_eq_dec : EqDecision call.
Proof. solve_decision. Defined.

Definition call_of (e : event) : call :=
  match e with
  | EvLock _ => CLock
  | EvUnlock => CUnlock
  | EvSignal _ _ _ => CSignal
  | EvAtomicSet _ _ _ => CAtomicSet
  | EvPipe _ => CPipe
  | EvSelect _ _ _ _ => CSelect
  | EvRead _ _ => CRead
  | EvWrite _ _ _ => CWrite
  | EvClose _ => CClose
  end.

Definition calls_of (c : call) (evs : list event) : list event :=
  filter (λ e, call_of e = c) evs.

(** The write end of the [i]-th pipe the environment hands out. *)
Definition pipe_wfd (env : wait_env) (i : nat) : Z :=
  match env_pipe env i with PipeOk _ wfd => wfd | PipeErr _ => 0 end.

(** The registrations are those of [w0]: same table size, same
    dispositions, and in every slot the same registration. *)
Definition registrations_of (w0 w : world) : Prop :=
  length (signals w) = length (signals w0) ∧
  dispositions w = dispositions w0 ∧
  ∀ k, same_registration (slot k w) (slot k w0).

(** What [setup_pipes] and [teardown_pipes] store in a slot. *)
Definition arm (rfd wfd : Z) (x : signal_info) : signal_info :=
  set_write_fd wfd (set_read_fd rfd x).

Definition disarm (x : signal_info) : signal_info := arm 0 0 x.

(** The [close] calls [teardown_pipes] issues for a slot. *)
Definition closes (x : signal_info) : list event :=
  EvClose <$> filter (λ fd, fd ≠ 0) [read_fd x; write_fd x].

(** The [close] calls for the two ends of the [i]-th pipe. *)
Definition pipe_closes (env : wait_env) (i : nat) : list event :=
  EvClose <$> filter (λ fd, fd ≠ 0) [pipe_rfd env i; pipe_wfd env i].

(** The first [n] calls of [pipe], with their results. *)
Definition pipes_of (env : wait_env) (n : nat) : list event :=
  (λ i, EvPipe (env_pipe env i)) <$> seq 0 n.

(** [max_fd] after the descriptors [fds] went through the test of
    [setup_pipes], starting from [0]. *)
Definition highest (fds : list Z) : Z := foldl Z.max 0 fds.

(** What holds after [j] rounds of the loop of [setup_pipes] over the slots
    [ks], started in [w0], as far as the table and the calls go. *)
Definition piped (env : wait_env) (ks : list nat) (w0 : world) (j : nat)
    (s : Z * gset Z * Z) (w : world) : Prop :=
  wf w ∧ dispositions w = dispositions w0 ∧ errno w = errno w0 ∧
  s = (if j is O then env_r0 env else 0,
       list_to_set (pipe_rfd env <$> seq 0 j),
       highest (pipe_rfd env <$> seq 0 j)) ∧
  trace w = trace w0 ++ pipes_of env j ∧
  (∀ k, k ∉ take j ks → slot k w = slot k w0) ∧
  (NoDup ks → ∀ i k, (i < j)%nat → ks !! i = Some k →
     slot k w = arm (pipe_rfd env i) (pipe_wfd env i) (slot k w0)).

(** What holds after [j] rounds of the loop of [teardown_pipes] over the
    slots [ks], started in [w0]. *)
Definition disarmed (ks : list nat) (w0 : world) (j : nat) (w : world) : Prop :=
  wf w ∧ dispositions w = dispositions w0 ∧ errno w = errno w0 ∧
  (∀ k, slot k w = if decide (k ∈ take j ks) then disarm (slot k w0) else slot k w0) ∧
  (∃ evs, trace w = trace w0 ++ evs ∧ Forall (λ e, call_of e = CClose) evs) ∧
  (NoDup ks → trace w = trace w0 ++ flat_map (λ k, closes (slot k w0)) (take j ks)).

(** The calls of [select] in a wait whose first [k] attempts are interrupted
    and whose next one ends with [res]. *)
Definition selects (nfds : Z) (fds : gset Z) (timeout : Z) (k : nat)
    (res : select_result) : list event :=
  EvSelect nfds fds (timeval_of timeout) <$> (replicate k (SelErr EINTR) ++ [res]).

Section FurtherVocabulary.
Context (P : platform).

(** The state [install] leaves when [signal] does not hand the signal over:
    the slot it claimed gets its [handler] reset and stays free. *)
Definition install_failed (sig : Z) (w : world) (i : nat) (x : signal_info) : world :=
  let '(_, w1) := sys_signal P sig (default_handler_ptr P) (log (EvLock 0) w) in
  log EvUnlock (set_signals (<[i := set_handler NULL x]> (signals w)) w1).

(** A pointer that passes the range test of [uninstall]. *)
Definition in_range (info : Z) : Prop :=
  ¬ (info = NULL ∨ info < signals_base P ∨ info > addr_of P NUM_SIGNALS).

End FurtherVocabulary.

(** ** Further states and environments to evaluate on *)

(** The table after [NUM_SIGNALS] registrations of signal 10: no slot is
    free. *)
Definition crowded : world :=
  Nat.iter NUM_SIGNALS (λ w, snd (Mono_Unix_UnixSignal_install linux 0 10 w)) boot.

(** An environment in which the second call of [pipe] fails with [EMFILE]. *)
Definition EMFILE : Z := 24.

Definition broken_pipes : wait_env :=
  {| env_r0 := 0;
     env_pipe := λ i, if decide (i = 1%nat) then PipeErr EMFILE else fresh_pipes i;
     env_select := [];
     env_read := λ _, true |}.

(** The state after a wait on the two registrations that the second one
    ended. *)
Definition woken : world :=
  default boot
    (state_of (Mono_Unix_UnixSignal_WaitAny linux 0 (wake {[5]})
                 (addr_of linux <$> [0; 1]%nat) (Z.of_nat (length [0; 1]%nat)) 1000 twice)).
(** * Properties *)

Lemma for_loop_inv {S : Type} (body : nat → S → bool * S)
    (Inv : nat → S → Prop) (Post : S → Prop) (n i : nat) (s : S) :
  Inv i s →
  (∀ j t t', (i ≤ j < i + n)%nat → Inv j t → body j t = (false, t') → Inv (Datatypes.S j) t') →
  (∀ j t t', (i ≤ j < i + n)%nat → Inv j t → body j t = (true, t') → Post t') →
  (∀ t, Inv (i + n)%nat t → Post t) →
  Post (for_loop body i n s).
Proof.
  revert i s. induction n as [|n IH]; intros i s Hi Hstep Hbrk Hend; simpl.
  - apply Hend. by replace (i + 0)%nat with i by lia.
  - destruct (body i s) as [[] s'] eqn:Hb.
    + eapply Hbrk; [|exact Hi|exact Hb]. lia.
    + apply IH.
      * eapply Hstep; [|exact Hi|exact Hb]. lia.
      * intros j t t' Hj. apply Hstep. lia.
      * intros j t t' Hj. apply Hbrk. lia.
      * intros t Ht. apply Hend. by replace (i + Datatypes.S n)%nat with (Datatypes.S i + n)%nat by lia.
Qed.

Lemma slot_lookup (i : nat) (w : world) (x : signal_info) :
  signals w !! i = Some x → slot i w = x.
Proof. intros H. unfold slot. by apply list_lookup_total_correct. Qed.

Lemma lookup_slot (i : nat) (w : world) :
  (i < length (signals w))%nat → signals w !! i = Some (slot i w).
Proof. intros H. unfold slot. by apply list_lookup_lookup_total_lt. Qed.

Lemma slot_store_eq (i : nat) (f : signal_info → signal_info) (w : world) :
  (i < length (signals w))%nat → slot i (store i f w) = f (slot i w).
Proof. intros H. unfold slot, store; simpl. by rewrite list_lookup_total_insert_eq. Qed.

Lemma slot_store_ne (i j : nat) (f : signal_info → signal_info) (w : world) :
  i ≠ j → slot j (store i f w) = slot j w.
Proof. intros H. unfold slot, store; simpl. by rewrite list_lookup_total_insert_ne. Qed.

Lemma wf_store (i : nat) (f : signal_info → signal_info) (w : world) :
  wf (store i f w) ↔ wf w.
Proof. unfold wf, store; simpl. by rewrite length_insert. Qed.

(** The table with the slot at [i] replaced, when the part before [i] was
    already rewritten by [g]. *)
Lemma insert_mapped_prefix (g : signal_info → signal_info) (T : list signal_info)
    (i : nat) (x y : signal_info) :
  T !! i = Some x →
  <[i := y]> ((g <$> take i T) ++ drop i T) = (g <$> take i T) ++ y :: drop (Datatypes.S i) T.
Proof.
  intros Hx. pose proof (lookup_lt_Some _ _ _ Hx) as Hlt.
  rewrite insert_app_r_alt; rewrite length_fmap, length_take; [|lia].
  replace (i - i `min` length T)%nat with 0%nat by lia.
  by rewrite (drop_S _ _ _ Hx).
Qed.

Lemma lookup_mapped_prefix (g : signal_info → signal_info) (T : list signal_info)
    (i : nat) (x : signal_info) :
  T !! i = Some x → ((g <$> take i T) ++ drop i T) !! i = Some x.
Proof.
  intros Hx. pose proof (lookup_lt_Some _ _ _ Hx) as Hlt.
  rewrite lookup_app_r; rewrite length_fmap, length_take; [|lia].
  replace (i - i `min` length T)%nat with 0%nat by lia.
  by rewrite (drop_S _ _ _ Hx).
Qed.

Lemma default_handler_spec (sig : Z) (w : world) :
  wf w →
  default_handler sig w =
    {| signals := bump sig <$> signals w; dispositions := dispositions w;
       errno := errno w; trace := trace w ++ wakeups sig (signals w) |}.
Proof.
  intros Hwf. unfold default_handler.
  apply (for_loop_inv _
    (λ i v, v = {| signals := (bump sig <$> take i (signals w)) ++ drop i (signals w);
                   dispositions := dispositions w; errno := errno w;
                   trace := trace w ++ wakeups sig (take i (signals w)) |})).
  - destruct w; simpl. unfold wakeups; simpl. by rewrite app_nil_r.
  - intros j t t' Hj -> Hb.
    destruct (lookup_lt_is_Some_2 (signals w) j) as [x Hx]; [unfold wf in Hwf; lia|].
    unfold default_handler_body in Hb.
    pose proof (lookup_mapped_prefix (bump sig) _ _ _ Hx) as Hl.
    rewrite (slot_lookup j _ x) in Hb by exact Hl.
    rewrite (take_S_r _ _ _ Hx), fmap_app.
    unfold wakeups. rewrite flat_map_app. simpl. rewrite app_nil_r.
    destruct (decide (signum x ≠ sig)) as [Hne|Heq].
    + inversion Hb; subst t'; clear Hb. f_equal.
      * rewrite (drop_S _ _ _ Hx), <- app_assoc. simpl.
        unfold bump. by rewrite decide_False.
      * rewrite decide_False by tauto. by rewrite app_nil_r.
    + assert (signum x = sig) as Hs by (destruct (decide (signum x = sig)); tauto).
      unfold atomic_inc_count in Hb.
      rewrite slot_store_eq in Hb by (simpl; rewrite length_app, length_fmap, length_take, length_drop; unfold wf in Hwf; lia).
      rewrite (slot_lookup j _ x) in Hb by exact Hl.
      unfold store in Hb. rewrite (slot_lookup j _ x) in Hb by exact Hl.
      simpl in Hb. rewrite (insert_mapped_prefix _ _ _ _ _ Hx) in Hb.
      assert (bump sig x = set_count (int_wrap (count x + 1)) x) as Hbx
        by (unfold bump; by rewrite decide_True).
      destruct (decide (write_fd x > 0)) as [Hfd|Hfd].
      * inversion Hb; subst t'; clear Hb. unfold log, set_signals; simpl. f_equal.
        -- rewrite <- app_assoc. simpl. by rewrite Hbx.
        -- rewrite decide_True by tauto. by rewrite app_assoc.
      * inversion Hb; subst t'; clear Hb. unfold set_signals; simpl. f_equal.
        -- rewrite <- app_assoc. simpl. by rewrite Hbx.
        -- rewrite decide_False by tauto. by rewrite app_nil_r.
  - intros j t t' Hj _ Hb. unfold default_handler_body in Hb.
    repeat case_decide; discriminate.
  - intros t ->. unfold wf in Hwf. simpl.
    rewrite take_ge, drop_ge by lia. by rewrite app_nil_r.
Qed.

Lemma wf_default_handler (sig : Z) (w : world) : wf w → wf (default_handler sig w).
Proof.
  intros Hwf. rewrite default_handler_spec by done.
  unfold wf in *; simpl. by rewrite length_fmap.
Qed.

Lemma int_wrap_id (z : Z) : INT_MIN ≤ z ≤ INT_MAX → int_wrap z = z.
Proof.
  unfold INT_MIN, INT_MAX, int_wrap. intros H.
  rewrite Z.mod_small; lia.
Qed.

Lemma int_wrap_add (a b : Z) : int_wrap (int_wrap a + b) = int_wrap (a + b).
Proof.
  unfold int_wrap.
  replace ((a + 2 ^ 31) `mod` 2 ^ 32 - 2 ^ 31 + b + 2 ^ 31)
    with ((a + 2 ^ 31) `mod` 2 ^ 32 + b) by lia.
  rewrite Zplus_mod_idemp_l. f_equal. f_equal. lia.
Qed.

Lemma bump_other (sig : Z) (x : signal_info) : signum x ≠ sig → bump sig x = x.
Proof. intros H. unfold bump. by rewrite decide_False. Qed.

Lemma iter_bump_other (sig : Z) (n : N) (x : signal_info) :
  signum x ≠ sig → N.iter n (bump sig) x = x.
Proof.
  intros H. induction n as [|n IH] using N.peano_ind; [done|].
  rewrite N.iter_succ, IH. by apply bump_other.
Qed.

Lemma iter_bump_count (sig : Z) (n : N) (x : signal_info) :
  signum x = sig → INT_MIN ≤ count x ≤ INT_MAX →
  N.iter n (bump sig) x = set_count (int_wrap (count x + Z.of_N n)) x.
Proof.
  intros Hs Hc. induction n as [|n IH] using N.peano_ind.
  - simpl. rewrite Z.add_0_r, int_wrap_id by done. by destruct x.
  - rewrite N.iter_succ, IH. unfold bump; simpl. rewrite decide_True by done.
    unfold set_count; simpl. f_equal. rewrite int_wrap_add. f_equal. lia.
Qed.

Lemma wakeups_bump (sig sig' : Z) (T : list signal_info) :
  wakeups sig (bump sig' <$> T) = wakeups sig T.
Proof.
  unfold wakeups. induction T as [|x T IH]; [done|].
  rewrite fmap_cons. cbn [flat_map]. rewrite IH. f_equal.
  unfold bump. by destruct (decide (signum x = sig')).
Qed.

Lemma wakeups_quiet (sig : Z) (T : list signal_info) :
  (∀ y, y ∈ T → signum y = sig → write_fd y = 0) → wakeups sig T = [].
Proof.
  unfold wakeups. induction T as [|y T IH]; intros Hquiet; [done|].
  cbn [flat_map]. rewrite IH by (intros z Hz; apply Hquiet; by right).
  rewrite decide_False; [done|].
  intros [Hy Hfd]. rewrite (Hquiet y) in Hfd; [lia|by left|done].
Qed.

Lemma deliver_spec (n : N) (sig : Z) (w : world) :
  wf w →
  wf (deliver n sig w) ∧
  signals (deliver n sig w) = N.iter n (bump sig) <$> signals w ∧
  dispositions (deliver n sig w) = dispositions w ∧
  errno (deliver n sig w) = errno w ∧
  wakeups sig (signals (deliver n sig w)) = wakeups sig (signals w) ∧
  (wakeups sig (signals w) = [] → trace (deliver n sig w) = trace w).
Proof.
  intros Hwf. unfold deliver. induction n as [|n IH] using N.peano_ind.
  - simpl. split_and!; try done. by rewrite list_fmap_id.
  - rewrite N.iter_succ. destruct IH as (IHwf & IHs & IHd & IHe & IHq & IHt).
    rewrite default_handler_spec by done. simpl. split_and!.
    + unfold wf in *; simpl. by rewrite length_fmap.
    + rewrite IHs, <- list_fmap_compose. apply list_fmap_ext.
      intros i x _. simpl. by rewrite N.iter_succ.
    + done.
    + done.
    + by rewrite wakeups_bump.
    + intros Hq. rewrite IHq, Hq, app_nil_r. by apply IHt.
Qed.

Lemma first_at_unique {A : Type} (Q : A → Prop) (l : list A) (i j : nat) (x y : A) :
  first_at Q l i x → first_at Q l j y → i = j ∧ x = y.
Proof.
  intros (Hi & Qx & Li) (Hj & Qy & Lj).
  assert (i = j) as ->.
  { destruct (Nat.lt_trichotomy i j) as [H|[H|H]]; [|done|].
    - by destruct (Lj _ _ H Hi).
    - by destruct (Li _ _ H Hj). }
  split; [done|congruence].
Qed.

Lemma first_at_none {A : Type} (Q : A → Prop) (l : list A) (i : nat) (x : A) :
  first_at Q l i x → (∀ y, y ∈ l → ¬ Q y) → False.
Proof.
  intros (Hi & Qx & _) Hn. apply (Hn x); [|done].
  apply list_elem_of_lookup. by exists i.
Qed.

Section Properties.
Context (P : platform).

Local Abbreviation records := (records P).
Local Abbreviation catchable := (catchable P).
Local Abbreviation claimed := (claimed P).
Local Abbreviation install_loop_post := (install_loop_post P).
Local Abbreviation install_loop_inv := (install_loop_inv P).
Local Abbreviation installed := (installed P).
Local Abbreviation saved_handler := (saved_handler P).
Local Abbreviation consistent := (consistent P).
Local Abbreviation wait_locked := (wait_locked P).

Lemma install_claim_skip (sig : Z) (j : nat) (fr : install_frame) (wc : world) :
  fr_h fr ≠ None ∨ signum (slot j wc) ≠ 0 →
  install_claim P sig j fr wc = (false, fr, wc).
Proof. intros H. unfold install_claim. rewrite decide_False; [done|tauto]. Qed.

Lemma install_claim_ok (sig : Z) (w : world) (j : nat) (fr : install_frame)
    (xj : signal_info) :
  fr_h fr = None → signals w !! j = Some xj → free xj →
  catchable sig → dispositions w sig ≠ SIG_ERR →
  install_claim P sig j fr (log (EvLock 0) w) =
    (false,
     {| fr_h := Some j; fr_have_handler := fr_have_handler fr; fr_handler := fr_handler fr |},
     claimed sig w j xj).
Proof.
  intros Hh Hx Hfree Hc Hd.
  pose proof (lookup_lt_Some _ _ _ Hx) as Hlt.
  unfold install_claim.
  rewrite (slot_lookup j _ xj) by done.
  rewrite decide_True by done.
  unfold sys_signal. simpl. rewrite decide_True by done.
  rewrite slot_store_eq by done. simpl.
  rewrite decide_False by done.
  f_equal. unfold claimed, store, slot; simpl.
  rewrite list_lookup_total_insert_eq by done.
  rewrite list_insert_insert_eq.
  rewrite (list_lookup_total_correct _ _ _ Hx). 
  unfold set_signals, log, set_dispositions; simpl. by rewrite <- app_assoc.
Qed.

Lemma install_claim_fail (sig : Z) (w : world) (j : nat) (fr : install_frame)
    (xj : signal_info) :
  fr_h fr = None → signals w !! j = Some xj → free xj →
  ¬ (catchable sig ∧ dispositions w sig ≠ SIG_ERR) →
  ∃ w', install_claim P sig j fr (log (EvLock 0) w) =
    (true,
     {| fr_h := None; fr_have_handler := fr_have_handler fr; fr_handler := fr_handler fr |},
     w').
Proof.
  intros Hh Hx Hfree Hc.
  pose proof (lookup_lt_Some _ _ _ Hx) as Hlt.
  unfold install_claim.
  rewrite (slot_lookup j _ xj) by done.
  rewrite decide_True by done.
  unfold sys_signal. simpl.
  destruct (decide (0 < sig ∧ uncatchable P sig = false)) as [Hok|Hno].
  - rewrite slot_store_eq by done. simpl.
    rewrite decide_True; [by eexists|].
    destruct (decide (dispositions w sig = SIG_ERR)); [done|]. destruct Hc. by split.
  - rewrite slot_store_eq by done. simpl. by eexists.
Qed.

Lemma install_lookup_miss (sig : Z) (j : nat) (fr : install_frame) (wc : world) :
  fr_have_handler fr ≠ 0 ∨ ¬ records sig (slot j wc) →
  install_lookup P sig j fr wc = fr.
Proof.
  intros H. unfold install_lookup. rewrite decide_False; [done|].
  unfold records in H. tauto.
Qed.

Lemma install_lookup_hit (sig : Z) (j : nat) (fr : install_frame) (wc : world) :
  fr_have_handler fr = 0 → records sig (slot j wc) →
  install_lookup P sig j fr wc =
    {| fr_h := fr_h fr; fr_have_handler := 1; fr_handler := handler (slot j wc) |}.
Proof.
  intros H [H1 H2]. unfold install_lookup. by rewrite decide_True.
Qed.

Lemma install_body_spec (sig : Z) (w : world) (j : nat) (s s' : install_frame * world) (b : bool) :
  wf w → (j < NUM_SIGNALS)%nat →
  install_loop_inv sig w j s →
  install_body P sig j s = (b, s') →
  if b then install_loop_post sig w s' else install_loop_inv sig w (Datatypes.S j) s'.
Proof.
  intros Hwf Hj Hinv Hb.
  destruct (lookup_lt_is_Some_2 (signals w) j) as [xj Hxj]; [unfold wf in Hwf; lia|].
  destruct s as [[h have hd] wc]. unfold install_loop_inv in Hinv. simpl in Hinv.
  destruct Hinv as [Hh Hrec].
  unfold install_body in Hb.
  destruct h as [i|].
  - (* a slot is claimed already *)
    destruct Hh as (Hij & x & Hfree & Hc & Hd & ->).
    assert (slot j (claimed sig w i x) = xj) as Hslot.
    { unfold slot, claimed; simpl.
      rewrite list_lookup_total_insert_ne by lia. by apply list_lookup_total_correct. }
    rewrite install_claim_skip in Hb by (simpl; by left).
    destruct Hrec as [[-> Hnorec]|[-> (k & y & Hk & ->)]].
    + destruct (decide (records sig xj)) as [Hr|Hnr].
      * rewrite install_lookup_hit in Hb by (simpl; try done; by rewrite Hslot).
        simpl in Hb. inversion Hb; subst b s'; clear Hb.
        unfold install_loop_post; simpl. exists x. split_and!; try done.
        right. split; [done|]. exists j, xj. rewrite Hslot. split; [|done].
        by split_and!.
      * rewrite install_lookup_miss in Hb by (right; by rewrite Hslot).
        simpl in Hb. inversion Hb; subst b s'; clear Hb.
        unfold install_loop_inv; simpl. split.
        -- split; [lia|]. by exists x.
        -- left. split; [done|]. intros k y Hk Hy.
           destruct (decide (k = j)) as [->|Hkj].
           ++ rewrite Hxj in Hy. by inversion Hy; subst y.
           ++ apply (Hnorec k y); [lia|done].
    + rewrite install_lookup_miss in Hb by (left; simpl; lia).
      simpl in Hb. inversion Hb; subst b s'; clear Hb.
      unfold install_loop_post; simpl. exists x. split_and!; try done.
      right. split; [done|]. by exists k, y.
  - (* no slot is claimed yet *)
    destruct Hh as [-> Hnofree].
    destruct (decide (free xj)) as [Hfree|Hnf].
    + destruct (decide (catchable sig ∧ dispositions w sig ≠ SIG_ERR)) as [[Hc Hd]|Hno].
      * rewrite (install_claim_ok sig w j _ xj) in Hb by done. simpl in Hb.
        assert (slot j (claimed sig w j xj) =
                set_have_handler 1 (set_handler (dispositions w sig) xj)) as Hslot.
        { unfold slot, claimed; simpl. apply list_lookup_total_insert_eq.
          by eapply lookup_lt_Some. }
        assert (signum xj ≠ sig) as Hne by (unfold free in Hfree; destruct Hc; lia).
        rewrite install_lookup_miss in Hb
          by (right; rewrite Hslot; unfold records; simpl; tauto).
        simpl in Hb.
        assert (first_at free (signals w) j xj) as Hfirst by (by split_and!).
        destruct Hrec as [[-> Hnorec]|[-> (k & y & Hk & ->)]].
        -- rewrite decide_False in Hb by tauto.
           inversion Hb; subst b s'; clear Hb.
           unfold install_loop_inv; simpl. split.
           ++ split; [lia|]. by exists xj.
           ++ left. split; [done|]. intros k y Hk Hy [Hs Hp].
              destruct (decide (k = j)) as [->|Hkj].
              ** rewrite Hxj in Hy. inversion Hy; subst y. tauto.
              ** apply (Hnorec k y); [lia|done|by split].
        -- rewrite decide_True in Hb by (split; [by eexists|done]).
           inversion Hb; subst b s'; clear Hb.
           unfold install_loop_post; simpl. exists xj. split_and!; try done.
           right. split; [done|]. by exists k, y.
      * destruct (install_claim_fail sig w j
                    {| fr_h := None; fr_have_handler := have; fr_handler := hd |} xj)
          as [w' Hw']; try done.
        rewrite Hw' in Hb. inversion Hb; subst b s'; clear Hb.
        unfold install_loop_post; simpl. right. exists j, xj. by split; [split_and!|].
    + rewrite install_claim_skip in Hb
        by (right; by rewrite (slot_lookup j _ xj)).
      assert (∀ k y, (k < Datatypes.S j)%nat → signals w !! k = Some y → ¬ free y) as Hnofree'.
      { intros k y Hk Hy. destruct (decide (k = j)) as [->|Hkj].
        - rewrite Hxj in Hy. by inversion Hy; subst y.
        - apply (Hnofree k y); [lia|done]. }
      destruct Hrec as [[-> Hnorec]|[-> (k & y & Hk & ->)]].
      * destruct (decide (records sig xj)) as [Hr|Hnr].
        -- rewrite install_lookup_hit in Hb
             by (simpl; try done; by rewrite (slot_lookup j _ xj)).
           simpl in Hb.
           inversion Hb; subst b s'; clear Hb.
           unfold install_loop_inv; simpl. split; [done|].
           right. split; [done|]. exists j, xj.
           rewrite (slot_lookup j _ xj) by done. split; [|done]. by split_and!.
        -- rewrite install_lookup_miss in Hb
             by (right; by rewrite (slot_lookup j _ xj)).
           simpl in Hb.
           inversion Hb; subst b s'; clear Hb.
           unfold install_loop_inv; simpl. split; [done|].
           left. split; [done|]. intros k y Hk Hy.
           destruct (decide (k = j)) as [->|Hkj].
           ++ rewrite Hxj in Hy. by inversion Hy; subst y.
           ++ apply (Hnorec k y); [lia|done].
      * rewrite install_lookup_miss in Hb by (left; simpl; lia).
        simpl in Hb.
        inversion Hb; subst b s'; clear Hb.
        unfold install_loop_inv; simpl. split; [done|].
        right. split; [done|]. by exists k, y.
Qed.

Lemma install_loop_spec (sig : Z) (w : world) :
  wf w →
  install_loop_post sig w
    (for_loop (install_body P sig) 0 NUM_SIGNALS
       ({| fr_h := None; fr_have_handler := 0; fr_handler := 0 |}, log (EvLock 0) w)).
Proof.
  intros Hwf.
  apply (for_loop_inv _ (install_loop_inv sig w)).
  - split; simpl; [split; [done|intros; lia]|left; split; [done|intros; lia]].
  - intros j t t' Hj Hinv Hb.
    apply (install_body_spec sig w j t t' false); [done|lia|done|done].
  - intros j t t' Hj Hinv Hb.
    apply (install_body_spec sig w j t t' true); [done|lia|done|done].
  - intros [fr wc] [Hh Hrec]. unfold install_loop_post. simpl in *.
    assert (∀ (Q : signal_info → Prop),
              (∀ k y, (k < NUM_SIGNALS)%nat → signals w !! k = Some y → ¬ Q y) →
              ∀ y, y ∈ signals w → ¬ Q y) as Hall.
    { intros Q HQ y Hy. apply list_elem_of_lookup in Hy as [k Hk].
      apply (HQ k y); [|done]. apply lookup_lt_Some in Hk. unfold wf in Hwf. lia. }
    destruct (fr_h fr) as [i|].
    + destruct Hh as (_ & x & Hx & Hc & Hd & Hw). exists x. split_and!; try done.
      destruct Hrec as [[H0 Hn]|H1]; [left|by right].
      split; [done|]. by apply Hall.
    + destruct Hh as [-> Hn]. left. split; [done|]. by apply Hall.
Qed.

Lemma addr_of_not_null (i : nat) : addr_of P i ≠ NULL.
Proof. unfold addr_of, signals_base, info_size, NULL. lia. Qed.

Lemma install_spec (sig : Z) (w : world) (p : Z) (w' : world) :
  wf w →
  Mono_Unix_UnixSignal_install P 0 sig w = (p, w') →
  (p = NULL ∧
   ((∀ y, y ∈ signals w → ¬ free y) ∨
    (∃ i x, first_at free (signals w) i x ∧
            ¬ (catchable sig ∧ dispositions w sig ≠ SIG_ERR)))) ∨
  (∃ i x hd, first_at free (signals w) i x ∧ catchable sig ∧
             dispositions w sig ≠ SIG_ERR ∧ saved_handler sig w hd ∧
             p = addr_of P i ∧ w' = installed sig w i x hd).
Proof.
  intros Hwf Hi. unfold Mono_Unix_UnixSignal_install in Hi.
  rewrite decide_False in Hi by lia.
  pose proof (install_loop_spec sig w Hwf) as Hpost.
  destruct (for_loop _ _ _ _) as [fr wc]. unfold install_loop_post in Hpost.
  simpl in Hpost. destruct (fr_h fr) as [i|].
  - right. destruct Hpost as (x & Hx & Hc & Hd & -> & Hrec).
    pose proof Hx as (Hxi & _ & _). pose proof (lookup_lt_Some _ _ _ Hxi) as Hlt.
    destruct Hrec as [[H0 Hn]|(H1 & k & y & Hk & Hy)].
    + rewrite H0 in Hi. rewrite decide_False in Hi by lia.
      inversion Hi; subst p w'; clear Hi.
      exists i, x, (dispositions w sig). split_and!; try done; [by left|].
      unfold installed, atomic_set, store, slot, log, set_signals, claimed; simpl.
      rewrite !list_lookup_total_insert_eq by (rewrite ?length_insert; done).
      rewrite !list_insert_insert_eq, <- !app_assoc. done.
    + rewrite H1 in Hi. rewrite decide_True in Hi by lia.
      inversion Hi; subst p w'; clear Hi.
      exists i, x, (handler y). split_and!; try done; [right; by exists k, y|].
      unfold installed, atomic_set, store, slot, log, set_signals, claimed; simpl.
      rewrite !list_lookup_total_insert_eq by (rewrite ?length_insert; done).
      rewrite !list_insert_insert_eq, <- !app_assoc. rewrite Hy. done.
  - left. inversion Hi; subst p w'; clear Hi. split; [done|].
    destruct Hpost as [[_ Hn]|Hf]; [by left|by right].
Qed.

(** [install] with a free slot, a signal that can be caught and a genuine
    previous disposition succeeds. *)
Lemma install_succeeds (sig : Z) (w : world) (i : nat) (x : signal_info) :
  wf w → first_at free (signals w) i x → catchable sig →
  dispositions w sig ≠ SIG_ERR →
  ∃ hd, saved_handler sig w hd ∧
        Mono_Unix_UnixSignal_install P 0 sig w = (addr_of P i, installed sig w i x hd).
Proof.
  intros Hwf Hx Hc Hd.
  destruct (Mono_Unix_UnixSignal_install P 0 sig w) as [p w'] eqn:Hi.
  destruct (install_spec sig w p w' Hwf Hi)
    as [[_ [Hn|(j & y & Hy & Hno)]]|(j & y & hd & Hy & _ & _ & Hs & -> & ->)].
  - destruct (first_at_none _ _ _ _ Hx Hn).
  - destruct Hno. by split.
  - destruct (first_at_unique _ _ _ _ _ _ Hx Hy) as [-> ->]. by exists hd.
Qed.

Lemma deliver_count (n : N) (sig : Z) (w : world) (i : nat) (x : signal_info) :
  wf w → signals w !! i = Some x → signum x = sig →
  INT_MIN ≤ count x ≤ INT_MAX →
  count (slot i (deliver n sig w)) = int_wrap (count x + Z.of_N n).
Proof.
  intros Hwf Hx Hs Hc.
  destruct (deliver_spec n sig w Hwf) as (_ & Hsig & _).
  unfold slot. rewrite Hsig.
  erewrite list_lookup_total_correct; [|rewrite list_lookup_fmap, Hx; reflexivity].
  by rewrite iter_bump_count.
Qed.

(** ** count_handlers and Mono_Unix_UnixSignal_uninstall *)

Lemma count_handlers_spec (sig : Z) (w : world) :
  wf w → count_handlers sig w = Z.of_nat (length (holders sig (signals w))).
Proof.
  intros Hwf. unfold count_handlers.
  apply (for_loop_inv _
    (λ i c, c = Z.of_nat (length (holders sig (take i (signals w)))))).
  - done.
  - intros j c c' Hj -> Hb.
    destruct (lookup_lt_is_Some_2 (signals w) j) as [x Hx]; [unfold wf in Hwf; lia|].
    rewrite (slot_lookup j _ x) in Hb by done.
    rewrite (take_S_r _ _ _ Hx). unfold holders. rewrite filter_app, length_app.
    rewrite filter_cons, filter_nil.
    destruct (decide (signum x = sig)); inversion Hb; cbn [length]; unfold holders; lia.
  - intros j c c' Hj _ Hb. destruct (decide _); discriminate.
  - intros c ->. unfold wf in Hwf. simpl. by rewrite take_ge by lia.
Qed.

Lemma count_handlers_log (sig : Z) (e : event) (w : world) :
  count_handlers sig (log e w) = count_handlers sig w.
Proof. unfold count_handlers. f_equal. Qed.

Lemma slot_of_addr_of (i : nat) :
  (i < NUM_SIGNALS)%nat → slot_of P (addr_of P i) = Some i.
Proof.
  intros Hi. unfold slot_of, addr_of, signals_base, info_size.
  set (b := Z.pos (signals_addr P)). set (s := Z.pos (sizeof_signal_info P)).
  assert (0 < s) by (unfold s; lia).
  replace (b + Z.of_nat i * s - b) with (Z.of_nat i * s) by lia.
  rewrite Z_mod_mult, Z_div_mult by lia.
  rewrite decide_True.
  - by rewrite Nat2Z.id.
  - unfold NUM_SIGNALS in *.
    assert (0 ≤ Z.of_nat i * s) by nia.
    assert (Z.of_nat i * s < 64 * s) by nia.
    change (Z.of_nat 64) with 64. split_and!; [lia|lia|done].
Qed.

Lemma addr_of_in_table (i : nat) :
  (i < NUM_SIGNALS)%nat →
  ¬ (addr_of P i = NULL ∨ addr_of P i < signals_base P ∨ addr_of P i > addr_of P NUM_SIGNALS).
Proof.
  intros Hi. unfold addr_of, signals_base, info_size, NULL, NUM_SIGNALS in *.
  set (b := Z.pos (signals_addr P)). set (s := Z.pos (sizeof_signal_info P)).
  assert (0 < b) by (unfold b; lia). assert (0 < s) by (unfold s; lia).
  assert (0 ≤ Z.of_nat i * s) by nia.
  assert (Z.of_nat i * s < 64 * s) by nia.
  change (Z.of_nat 64) with 64. lia.
Qed.

(** [uninstall] of a registration that is not the last one of its signal:
    the slot is released and [-1] is returned. *)
Lemma uninstall_shared (w : world) (i : nat) (x : signal_info) :
  wf w → signals w !! i = Some x →
  ¬ (have_handler x ≠ 0 ∧ length (holders (signum x) (signals w)) = 1%nat) →
  Mono_Unix_UnixSignal_uninstall P 0 (addr_of P i) w = Done (-1) (released w i x).
Proof.
  intros Hwf Hx Hn.
  assert (i < NUM_SIGNALS)%nat as Hi by (apply lookup_lt_Some in Hx; by rewrite <- Hwf).
  unfold Mono_Unix_UnixSignal_uninstall.
  rewrite decide_False by lia.
  rewrite decide_False by (by apply addr_of_in_table).
  rewrite slot_of_addr_of by done.
  rewrite (slot_lookup i _ x) by done.
  rewrite count_handlers_log, count_handlers_spec by done.
  rewrite decide_False by (intros [? ?]; apply Hn; split; [done|lia]).
  f_equal. unfold released, store, log, set_signals; simpl.
  rewrite (slot_lookup i _ x) by done. by rewrite <- app_assoc.
Qed.

(** [uninstall] of the last registration of a signal: the saved disposition
    goes back to the operating system. *)
Lemma uninstall_last (w : world) (i : nat) (x : signal_info) :
  wf w → signals w !! i = Some x →
  have_handler x ≠ 0 → length (holders (signum x) (signals w)) = 1%nat →
  catchable (signum x) →
  Mono_Unix_UnixSignal_uninstall P 0 (addr_of P i) w =
    Done (if decide (dispositions w (signum x) ≠ SIG_ERR) then 0 else -1)
         (restored w i x).
Proof.
  intros Hwf Hx Hh Hc Hs.
  assert (i < NUM_SIGNALS)%nat as Hi by (apply lookup_lt_Some in Hx; by rewrite <- Hwf).
  pose proof (lookup_lt_Some _ _ _ Hx) as Hlt.
  unfold Mono_Unix_UnixSignal_uninstall.
  rewrite decide_False by lia.
  rewrite decide_False by (by apply addr_of_in_table).
  rewrite slot_of_addr_of by done.
  rewrite (slot_lookup i _ x) by done.
  rewrite count_handlers_log, count_handlers_spec by done.
  rewrite decide_True by (split; [done|lia]).
  unfold sys_signal. rewrite decide_True by done.
  f_equal. unfold restored, store, slot, log, set_signals, set_dispositions; simpl.
  rewrite !list_lookup_total_insert_eq by (rewrite ?length_insert; done).
  rewrite !list_insert_insert_eq, <- !app_assoc.
  by rewrite (list_lookup_total_correct _ _ _ Hx).
Qed.

Lemma uninstall_refused (w : world) (i : nat) (x : signal_info) :
  wf w → signals w !! i = Some x →
  have_handler x ≠ 0 → length (holders (signum x) (signals w)) = 1%nat →
  ¬ catchable (signum x) →
  Mono_Unix_UnixSignal_uninstall P 0 (addr_of P i) w = Done (-1) (refused w i x).
Proof.
  intros Hwf Hx Hh Hc Hs.
  assert (i < NUM_SIGNALS)%nat as Hi by (apply lookup_lt_Some in Hx; by rewrite <- Hwf).
  pose proof (lookup_lt_Some _ _ _ Hx) as Hlt.
  unfold Mono_Unix_UnixSignal_uninstall.
  rewrite decide_False by lia.
  rewrite decide_False by (by apply addr_of_in_table).
  rewrite slot_of_addr_of by done.
  rewrite (slot_lookup i _ x) by done.
  rewrite count_handlers_log, count_handlers_spec by done.
  rewrite decide_True by (split; [done|lia]).
  unfold sys_signal. rewrite decide_False by done.
  rewrite decide_False by (intros ?; done).
  f_equal. unfold refused, store, slot, log, set_signals, set_errno; simpl.
  rewrite !list_lookup_total_insert_eq by (rewrite ?length_insert; done).
  rewrite !list_insert_insert_eq, <- !app_assoc.
  by rewrite (list_lookup_total_correct _ _ _ Hx).
Qed.

Lemma uninstall_rejected (w : world) (info : Z) :
  info = NULL ∨ info < signals_base P ∨ info > addr_of P NUM_SIGNALS →
  Mono_Unix_UnixSignal_uninstall P 0 info w = Done (-1) (rejected w).
Proof.
  intros H. unfold Mono_Unix_UnixSignal_uninstall.
  rewrite decide_False by lia. rewrite decide_True by done.
  f_equal. unfold rejected, log, set_errno; simpl. by rewrite <- app_assoc.
Qed.

(** Registrations of a signal, counted around one slot. *)
Lemma holders_insert (sig : Z) (T : list signal_info) (i : nat) (x z : signal_info) :
  T !! i = Some x →
  length (holders sig (<[i := z]> T)) =
    (length (holders sig (take i T)) + length (holders sig [z]) +
     length (holders sig (drop (Datatypes.S i) T)))%nat.
Proof.
  intros Hx. rewrite insert_take_drop by (by eapply lookup_lt_Some).
  unfold holders. rewrite filter_app, length_app.
  change (z :: drop (Datatypes.S i) T) with ([z] ++ drop (Datatypes.S i) T).
  rewrite filter_app, length_app. lia.
Qed.

Lemma holders_split (sig : Z) (T : list signal_info) (i : nat) (x : signal_info) :
  T !! i = Some x →
  length (holders sig T) =
    (length (holders sig (take i T)) + length (holders sig [x]) +
     length (holders sig (drop (Datatypes.S i) T)))%nat.
Proof.
  intros Hx. rewrite <- (holders_insert sig T i x x Hx).
  by rewrite list_insert_id.
Qed.

Lemma holders_one (sig : Z) (x : signal_info) :
  length (holders sig [x]) = if decide (signum x = sig) then 1%nat else 0%nat.
Proof.
  unfold holders. rewrite filter_cons, filter_nil. by destruct (decide _).
Qed.

Lemma holders_elem (sig : Z) (T : list signal_info) (y : signal_info) :
  y ∈ T → signum y = sig → (1 ≤ length (holders sig T))%nat.
Proof.
  intros Hy Hs. assert (y ∈ holders sig T) as Hin by (by apply list_elem_of_filter).
  destruct (holders sig T); [by apply not_elem_of_nil in Hin|simpl; lia].
Qed.

Lemma holders_two (T : list signal_info) (i j : nat) (x y : signal_info) :
  T !! i = Some x → T !! j = Some y → i ≠ j → signum y = signum x →
  (2 ≤ length (holders (signum x) T))%nat.
Proof.
  intros Hx Hy Hij Hs. rewrite (holders_split _ T i x Hx), holders_one.
  rewrite decide_True by done.
  destruct (decide (j < i)%nat) as [Hlt|Hge].
  - assert (y ∈ take i T) as Hin.
    { apply list_elem_of_lookup. exists j. by rewrite lookup_take_lt. }
    pose proof (holders_elem _ _ _ Hin Hs). lia.
  - assert (y ∈ drop (Datatypes.S i) T) as Hin.
    { apply list_elem_of_lookup. exists (j - Datatypes.S i)%nat.
      rewrite lookup_drop. by replace (Datatypes.S i + (j - Datatypes.S i))%nat with j by lia. }
    pose proof (holders_elem _ _ _ Hin Hs). lia.
Qed.

(** ** The claims on the table *)

(** C2.  A registration whose signal number another live registration
    shares is uninstalled by clearing its slot only: no call of [signal] is
    made and the dispositions of the operating system stay as they are, so
    the handler of the table stays installed.  The value returned for this
    uninstall is [-1], the failure value, and not [0]. *)
Theorem uninstall_shared_returns_failure (w : world) (i j : nat) (x y : signal_info) :
  wf w → signals w !! i = Some x → signals w !! j = Some y → i ≠ j →
  signum x ≠ 0 → signum y = signum x →
  Mono_Unix_UnixSignal_uninstall P 0 (addr_of P i) w = Done (-1) (released w i x).
Proof.
  intros Hwf Hx Hy Hij Hlive Hs. apply uninstall_shared; [done|done|].
  intros [_ Hone]. pose proof (holders_two _ _ _ _ _ Hx Hy Hij Hs). lia.
Qed.

(** C4, as the code has it.  A null pointer and a pointer below the table or
    above its one-past-the-end address are rejected: [-1], [errno = EINVAL],
    no call of [signal], the table untouched.  A pointer to a slot that was
    freed already is not recognised: [uninstall] returns [-1] and restores
    nothing, but [errno] is left as it was and the table is rewritten with
    the values it holds, unless the slot is the only free one and still
    flagged [have_handler]. *)
Theorem uninstall_invalid_handle (w : world) :
  wf w →
  (∀ info, info = NULL ∨ info < signals_base P ∨ info > addr_of P NUM_SIGNALS →
     Mono_Unix_UnixSignal_uninstall P 0 info w = Done (-1) (rejected w)) ∧
  (∀ i x, signals w !! i = Some x → signum x = 0 →
     ∃ w', Mono_Unix_UnixSignal_uninstall P 0 (addr_of P i) w = Done (-1) w' ∧
           dispositions w' = dispositions w ∧
           (have_handler x = 0 ∨ length (holders 0 (signals w)) ≠ 1%nat →
            signals w' = signals w ∧ errno w' = errno w ∧
            trace w' = trace w ++ [EvLock 0; EvUnlock])).
Proof.
  intros Hwf. split.
  - intros info Hinfo. by apply uninstall_rejected.
  - intros i x Hx Hfree.
    destruct (decide (have_handler x ≠ 0 ∧ length (holders (signum x) (signals w)) = 1%nat))
      as [[Hh Hone]|Hno].
    + exists (refused w i x). split_and!.
      * apply uninstall_refused; try done. unfold catchable. rewrite Hfree. lia.
      * done.
      * rewrite Hfree in Hone. intros [H|H]; [by destruct Hh|by destruct H].
    + exists (released w i x). split_and!.
      * by apply uninstall_shared.
      * done.
      * intros _. unfold released; simpl. split_and!; try done.
        apply list_insert_id. rewrite Hx. f_equal. destruct x; simpl in *. by subst.
Qed.

(** C5, as the code has it.  When a registration of [sig] is live and has a
    disposition saved, [install] calls [signal (sig, default_handler)] once
    more for the slot it claims, and then overwrites what that call returned
    with the disposition the first such registration has saved. *)
Theorem install_copies_saved_disposition (sig : Z) (w : world) (i k : nat)
    (x y : signal_info) :
  wf w → first_at free (signals w) i x → first_at (records sig) (signals w) k y →
  catchable sig → dispositions w sig ≠ SIG_ERR →
  Mono_Unix_UnixSignal_install P 0 sig w = (addr_of P i, installed sig w i x (handler y)).
Proof.
  intros Hwf Hx Hy Hc Hd.
  destruct (install_succeeds sig w i x Hwf Hx Hc Hd) as (hd & Hs & ->).
  destruct Hs as [[_ Hn]|(k' & y' & Hy' & ->)].
  - destruct (first_at_none _ _ _ _ Hy Hn).
  - by destruct (first_at_unique _ _ _ _ _ _ Hy Hy') as [_ ->].
Qed.

Lemma installed_holders (sig : Z) (w : world) (i : nat) (x : signal_info) (hd : Z) :
  first_at free (signals w) i x → catchable sig →
  length (holders sig (signals (installed sig w i x hd))) =
    Datatypes.S (length (holders sig (signals w))).
Proof.
  intros (Hx & Hfree & _) [Hpos _]. unfold installed; simpl.
  rewrite (holders_insert _ _ _ _ _ Hx), (holders_split sig _ _ _ Hx), !holders_one.
  simpl. rewrite decide_True by done.
  rewrite decide_False by (unfold free in Hfree; lia). lia.
Qed.

(** [consistent] is kept by a successful [install], by [uninstall] of a
    handle of the table and by [default_handler]. *)
Lemma consistent_installed (sig : Z) (w : world) (i : nat) (x : signal_info) (hd : Z) :
  consistent w → consistent (installed sig w i x hd).
Proof.
  intros Hcons y Hy Hlive. unfold installed in *; simpl in *.
  apply list_elem_of_lookup in Hy as [j Hj].
  destruct (decide (i = j)) as [<-|Hne].
  - destruct (decide (i < length (signals w))%nat) as [Hlt|Hge].
    + rewrite list_lookup_insert_eq in Hj by done. inversion Hj; subst y. simpl.
      by rewrite fn_lookup_insert.
    + rewrite list_insert_ge in Hj by lia.
      destruct (decide (signum y = sig)) as [->|Hs]; [by rewrite fn_lookup_insert|].
      rewrite fn_lookup_insert_ne by done. apply Hcons; [|done].
      apply list_elem_of_lookup. by exists i.
  - rewrite list_lookup_insert_ne in Hj by done.
    destruct (decide (signum y = sig)) as [->|Hs]; [by rewrite fn_lookup_insert|].
    rewrite fn_lookup_insert_ne by done. apply Hcons; [|done].
    apply list_elem_of_lookup. by exists j.
Qed.

Lemma consistent_uninstall (w : world) (i : nat) (x : signal_info) (r : Z) (w' : world) :
  wf w → consistent w → signals w !! i = Some x →
  Mono_Unix_UnixSignal_uninstall P 0 (addr_of P i) w = Done r w' →
  wf w' ∧ consistent w'.
Proof.
  intros Hwf Hcons Hx Hrun.
  pose proof (lookup_lt_Some _ _ _ Hx) as Hlt.
  assert (∀ z y D,
            (∀ j y', j ≠ i → signals w !! j = Some y' → signum y' ≠ 0 →
                     D (signum y') = default_handler_ptr P) →
            signum z = 0 → y ∈ <[i := z]> (signals w) → signum y ≠ 0 →
            D (signum y) = default_handler_ptr P) as Hother.
  { intros z y D HD Hz Hy Hlive. apply list_elem_of_lookup in Hy as [j Hj].
    destruct (decide (i = j)) as [<-|Hne].
    - rewrite list_lookup_insert_eq in Hj by done. inversion Hj; subst y. by destruct Hlive.
    - rewrite list_lookup_insert_ne in Hj by done. by apply (HD j). }
  assert (∀ j y', signals w !! j = Some y' → signum y' ≠ 0 →
                  dispositions w (signum y') = default_handler_ptr P) as Hold.
  { intros j y' Hj Hl. apply Hcons; [|done]. apply list_elem_of_lookup. by exists j. }
  destruct (decide (have_handler x ≠ 0 ∧
                    length (holders (signum x) (signals w)) = 1%nat)) as [[Hh Hone]|Hno].
  - destruct (decide (catchable (signum x))) as [Hc|Hc].
    + rewrite (uninstall_last w i x) in Hrun by done. inversion Hrun; subst r w'.
      split; [unfold wf, restored in *; simpl; by rewrite length_insert|].
      intros y Hy Hlive. unfold restored in *; simpl in *.
      refine (Hother _ y _ _ _ Hy Hlive); [|done].
      intros j y' Hne Hj Hl. rewrite fn_lookup_insert_ne; [by apply (Hold j)|].
      intros Hs. pose proof (holders_two _ _ _ _ _ Hx Hj (not_eq_sym Hne) (eq_sym Hs)). lia.
    + rewrite (uninstall_refused w i x) in Hrun by done. inversion Hrun; subst r w'.
      split; [unfold wf, refused in *; simpl; by rewrite length_insert|].
      intros y Hy Hlive. unfold refused in *; simpl in *.
      refine (Hother _ y _ _ _ Hy Hlive); [|done]. intros j y' _. apply Hold.
  - rewrite (uninstall_shared w i x) in Hrun by done. inversion Hrun; subst r w'.
    split; [unfold wf, released in *; simpl; by rewrite length_insert|].
    intros y Hy Hlive. unfold released in *; simpl in *.
    refine (Hother _ y _ _ _ Hy Hlive); [|done]. intros j y' _. apply Hold.
Qed.

Lemma consistent_default_handler (sig : Z) (w : world) :
  wf w → consistent w → consistent (default_handler sig w).
Proof.
  intros Hwf Hcons y Hy Hlive. rewrite default_handler_spec in * by done.
  simpl in *. apply list_elem_of_fmap in Hy as (x & -> & Hx).
  assert (signum (bump sig x) = signum x) as Hs
    by (unfold bump; by destruct (decide _)).
  rewrite Hs in *. by apply Hcons.
Qed.

(** C9.  In a state where every live registration has [default_handler]
    installed for its signal, a successful [install (sig)] followed at once
    by [uninstall] of the handle it returned leaves every disposition of the
    operating system as it was before.  When no other registration of [sig]
    exists, [uninstall] returns [0] and the handler it passes to [signal] is
    the very value the [signal] call of [install] returned. *)
Theorem install_uninstall_restores (sig : Z) (w : world) (p : Z) (w1 : world) :
  wf w → consistent w →
  Mono_Unix_UnixSignal_install P 0 sig w = (p, w1) → p ≠ NULL →
  ∃ i r w2,
    p = addr_of P i ∧
    Mono_Unix_UnixSignal_uninstall P 0 p w1 = Done r w2 ∧
    (∀ s, dispositions w2 s = dispositions w s) ∧
    (holders sig (signals w) = [] →
     r = 0 ∧
     trace w2 = trace w ++
       [EvLock 0; EvSignal sig (default_handler_ptr P) (dispositions w sig);
        EvAtomicSet i f_count 0; EvAtomicSet i f_signum sig; EvUnlock;
        EvLock 0; EvSignal sig (dispositions w sig) (default_handler_ptr P);
        EvUnlock]).
Proof.
  intros Hwf Hcons Hi Hp.
  destruct (install_spec sig w p w1 Hwf Hi)
    as [[-> _]|(i & x & hd & Hx & Hc & Hd & Hs & -> & ->)]; [done|].
  pose proof Hx as (Hxi & Hfree & _).
  pose proof (lookup_lt_Some _ _ _ Hxi) as Hlt.
  set (new := {| signum := sig; count := 0; read_fd := read_fd x;
                 write_fd := write_fd x; have_handler := 1; handler := hd |}).
  assert (wf (installed sig w i x hd)) as Hwf1
    by (unfold wf, installed in *; simpl; by rewrite length_insert).
  assert (signals (installed sig w i x hd) !! i = Some new) as Hnew
    by (unfold installed; simpl; by apply list_lookup_insert_eq).
  pose proof (installed_holders sig w i x hd Hx Hc) as Hlen.
  exists i.
  destruct (holders sig (signals w)) as [|y rest] eqn:Hhold.
  - (* the only registration of [sig] *)
    assert (hd = dispositions w sig) as ->.
    { destruct Hs as [[-> _]|(k & y & (Hk & [Hy _] & _) & _)]; [done|].
      assert (y ∈ holders sig (signals w)) as Hin.
      { apply list_elem_of_filter. split; [done|]. apply list_elem_of_lookup. by exists k. }
      rewrite Hhold in Hin. by apply not_elem_of_nil in Hin. }
    eexists _, _. split; [done|]. split.
    { by apply (uninstall_last _ i new). }
    simpl. rewrite fn_lookup_insert.
    rewrite decide_True by (unfold default_handler_ptr, SIG_ERR; lia).
    split.
    + intros s. destruct (decide (s = sig)) as [->|Hne].
      * by rewrite fn_lookup_insert.
      * by rewrite !fn_lookup_insert_ne.
    + intros _. split; [done|]. by rewrite <- app_assoc.
  - (* other registrations of [sig] remain *)
    eexists _, _. split; [done|]. split.
    { apply (uninstall_shared _ i new); try done.
      intros [_ Hone]. change (signum new) with sig in Hone.
      rewrite Hlen in Hone. simpl in Hone. lia. }
    simpl. split; [|done].
    assert (y ∈ holders sig (signals w)) as Hin by (rewrite Hhold; left).
    apply list_elem_of_filter in Hin as [Hy Hin].
    intros s. destruct (decide (s = sig)) as [->|Hne].
    + rewrite fn_lookup_insert. rewrite <- Hy. symmetry. apply Hcons; [done|].
      rewrite Hy. destruct Hc. lia.
    + by rewrite fn_lookup_insert_ne.
Qed.

(** C10.  A successful [install] returns a slot whose [count] is [0] and
    whose [signum] is [sig].  The slot was free; its counter is reset with
    [g_atomic_int_set], its signal number is published with the next
    [g_atomic_int_set], and these are the last two stores of the call: after
    any number of the calls [install] issues, a handler that looks at the
    slot and finds [sig] in it finds the count [0]. *)
Theorem install_resets_count_before_publishing (mr sig : Z) (w : world) (p : Z)
    (w' : world) :
  wf w →
  Mono_Unix_UnixSignal_install P mr sig w = (p, w') → p ≠ NULL →
  ∃ i x issued,
    p = addr_of P i ∧ signals w !! i = Some x ∧ signum x = 0 ∧
    count (slot i w') = 0 ∧ signum (slot i w') = sig ∧
    trace w' = trace w ++ issued ∧
    (∃ before, issued = before ++
       [EvAtomicSet i f_count 0; EvAtomicSet i f_signum sig; EvUnlock]) ∧
    (∀ n, signum (observe (take n issued) (signals w) !!! i) = sig →
          count (observe (take n issued) (signals w) !!! i) = 0).
Proof.
  intros Hwf Hi Hp.
  assert (mr = 0) as ->.
  { destruct (decide (mr = 0)) as [|Hmr]; [done|].
    unfold Mono_Unix_UnixSignal_install in Hi. rewrite decide_True in Hi by done.
    inversion Hi. by subst p. }
  destruct (install_spec sig w p w' Hwf Hi)
    as [[-> _]|(i & x & hd & Hx & Hc & Hd & Hs & -> & ->)]; [done|].
  pose proof Hx as (Hxi & Hfree & _).
  pose proof (lookup_lt_Some _ _ _ Hxi) as Hlt.
  assert (sig ≠ 0) as Hsig by (destruct Hc; lia).
  exists i, x, [EvLock 0; EvSignal sig (default_handler_ptr P) (dispositions w sig);
                EvAtomicSet i f_count 0; EvAtomicSet i f_signum sig; EvUnlock].
  unfold slot, installed; simpl.
  rewrite list_lookup_total_insert_eq by done. simpl.
  split_and!; try done.
  - by exists [EvLock 0; EvSignal sig (default_handler_ptr P) (dispositions w sig)].
  - unfold free in Hfree. pose proof (list_lookup_total_correct _ _ _ Hxi) as Hxt.
    intros n. unfold observe.
    destruct n as [|[|[|[|n]]]]; simpl; rewrite ?Hxt;
      rewrite ?list_lookup_total_insert_eq by (rewrite ?length_insert; done);
      simpl; try (intros; congruence).
    destruct n; simpl; rewrite ?take_nil; simpl;
      rewrite ?list_lookup_total_insert_eq by (rewrite ?length_insert; done);
      simpl; done.
Qed.

(** C8, as the code has it.  One delivery of [sig] adds one to [count],
    wrapping around as an [int] does, in every slot whose [signum] is [sig],
    leaves the other slots alone, and writes one byte to [write_fd] for
    each of these slots whose [write_fd] is positive, in table order, the
    results of [write] being ignored.  Hence [n] deliveries, [n] at most
    [INT_MAX], to a registration whose count is [0], while no registration of
    [sig] has a pipe, leave its count at [n] and write nothing. *)
Theorem default_handler_fans_out (sig : Z) (w : world) :
  wf w →
  signals (default_handler sig w) = bump sig <$> signals w ∧
  trace (default_handler sig w) = trace w ++ wakeups sig (signals w) ∧
  (∀ x, signum x = sig → INT_MIN ≤ count x < INT_MAX →
        count (bump sig x) = count x + 1) ∧
  (∀ (n : N) (i : nat) (x : signal_info),
     signals w !! i = Some x → signum x = sig → count x = 0 →
     Z.of_N n ≤ INT_MAX →
     (∀ y, y ∈ signals w → signum y = sig → write_fd y = 0) →
     ∃ x', signals (deliver n sig w) !! i = Some x' ∧
           count x' = Z.of_N n ∧
           trace (deliver n sig w) = trace w).
Proof.
  intros Hwf. rewrite default_handler_spec by done. simpl. split_and!; try done.
  - intros x Hs Hc. unfold bump. rewrite decide_True by done. simpl.
    apply int_wrap_id. unfold INT_MIN, INT_MAX in *. lia.
  - intros n i x Hx Hs Hc Hn Hquiet.
    destruct (deliver_spec n sig w Hwf) as (_ & Hsig & _ & _ & _ & Htr).
    exists (N.iter n (bump sig) x). split_and!.
    + by rewrite Hsig, list_lookup_fmap, Hx.
    + rewrite iter_bump_count by (unfold INT_MIN, INT_MAX; lia). simpl.
      rewrite Hc. apply int_wrap_id. unfold INT_MIN, INT_MAX in *. lia.
    + apply Htr. by apply wakeups_quiet.
Qed.

(** ** Calls that return *)

Lemma returns_ret {A : Type} (a : A) (w : world) (Q : A → world → Prop) :
  Q a w → returns (ret a) w Q.
Proof. intros H. by exists a, w. Qed.

Lemma returns_bind {A B : Type} (m : M A) (k : A → M B) (w : world)
    (Q : B → world → Prop) :
  returns m w (λ a w', returns (k a) w' Q) → returns (m ≫= k) w Q.
Proof.
  intros (a & w' & Hm & b & w'' & Hk & HQ). exists b, w''. split; [|done].
  unfold mbind, M_bind, bind. by rewrite Hm.
Qed.

Lemma returns_act (f : world → world) (w : world) (Q : unit → world → Prop) :
  Q tt (f w) → returns (act f) w Q.
Proof. intros H. by exists tt, (f w). Qed.

Lemma returns_read {A : Type} (f : world → A) (w : world) (Q : A → world → Prop) :
  Q (f w) w → returns (read_world f) w Q.
Proof. intros H. by exists (f w), w. Qed.

Lemma returns_wand {A : Type} (m : M A) (w : world) (Q Q' : A → world → Prop) :
  returns m w Q → (∀ a w', Q a w' → Q' a w') → returns m w Q'.
Proof. intros (a & w' & Hm & HQ) H. exists a, w'. split; [done|by apply H]. Qed.

Lemma returns_deref (ks : list nat) (i k : nat) (w : world) (Q : nat → world → Prop) :
  ks !! i = Some k → (k < NUM_SIGNALS)%nat → Q k w →
  returns (deref P (addr_of P <$> ks) i) w Q.
Proof.
  intros Hk Hlt HQ. exists k, w. split; [|done].
  unfold deref. rewrite list_lookup_fmap, Hk. simpl.
  by rewrite (slot_of_addr_of k Hlt).
Qed.

(** A loop whose body never breaks runs to its end. *)
Lemma returns_for_loopM {S : Type} (body : nat → S → M (bool * S))
    (Inv : nat → S → world → Prop) (n i : nat) (s : S) (w : world) :
  Inv i s w →
  (∀ j t v, (i ≤ j < i + n)%nat → Inv j t v →
     returns (body j t) v (λ bs v', bs.1 = false ∧ Inv (Datatypes.S j) bs.2 v')) →
  returns (for_loopM body i n s) w (λ t v, Inv (i + n)%nat t v).
Proof.
  revert i s w. induction n as [|n IH]; intros i s w Hinv Hbody; simpl.
  - apply returns_ret. by replace (i + 0)%nat with i by lia.
  - apply returns_bind. eapply returns_wand; [apply (Hbody i s w); [lia|done]|].
    intros [b s'] w' [Hb Hinv']. simpl in *. subst b.
    replace (i + Datatypes.S n)%nat with (Datatypes.S i + n)%nat by lia.
    apply IH; [done|]. intros j t v Hj. apply Hbody. lia.
Qed.

(** ** setup_pipes *)

Lemma reads_of_snoc (evs : list event) (e : event) :
  reads_of (evs ++ [e]) =
    reads_of evs ++ match e with EvRead fd n => [(fd, n)] | _ => [] end.
Proof. unfold reads_of. rewrite omap_app. f_equal. by destruct e. Qed.

Lemma setup_pipes_body_spec (env : wait_env) (ks : list nat) (w0 : world) (j : nat)
    (s : Z * gset Z * Z) (w : world) :
  Forall (λ k, (k < NUM_SIGNALS)%nat) ks → (j < length ks)%nat →
  pipes_ok env (length ks) →
  armed env ks w0 j s w →
  returns (setup_pipes_body P env (addr_of P <$> ks) j s) w
    (λ bs w', bs.1 = false ∧ armed env ks w0 (Datatypes.S j) bs.2 w').
Proof.
  intros Hks Hj Hpipes (Hwf & Hr & Hfds & Hmax & Hreads & Hnd).
  destruct s as [[r fds] max_fd]. simpl in *.
  destruct (lookup_lt_is_Some_2 ks j Hj) as [k Hk].
  assert (k < NUM_SIGNALS)%nat as Hlt
    by (exact (Forall_lookup_1 (λ k, (k < NUM_SIGNALS)%nat) ks j k Hks Hk)).
  destruct (Hpipes j Hj) as (rfd & wfd & Hpipe).
  assert (pipe_rfd env j = rfd) as Hrfd by (unfold pipe_rfd; by rewrite Hpipe).
  unfold setup_pipes_body. rewrite Hpipe.
  apply returns_bind, returns_act.
  apply returns_bind, (returns_deref ks j k); [done|done|].
  apply returns_bind, returns_act.
  apply returns_bind, returns_act.
  apply returns_bind, returns_read.
  apply returns_ret.
  set (w1 := log (EvPipe (PipeOk rfd wfd)) w).
  set (w2 := store k (set_read_fd rfd) w1).
  set (w3 := store k (set_write_fd wfd) w2).
  assert (wf w3) as Hwf3 by (unfold w3, w2; by rewrite !wf_store).
  assert (k < length (signals w1))%nat as Hk1 by (unfold wf in Hwf; simpl; lia).
  assert (read_fd (slot k w3) = rfd) as Hfd.
  { unfold w3, w2. rewrite slot_store_eq, slot_store_eq; [done|done|].
    unfold store; simpl. by rewrite length_insert. }
  rewrite Hfd. split; [done|]. unfold armed; cbn [fst snd]. split_and!.
  - done.
  - done.
  - rewrite seq_S, fmap_app, list_to_set_app_L, Hfds. simpl. rewrite Hrfd.
    rewrite union_empty_r_L. apply (comm_L (∪)).
  - intros fd Hin. apply elem_of_union in Hin as [Hin|Hin].
    + apply elem_of_singleton in Hin as ->. destruct (decide (rfd > max_fd)); lia.
    + pose proof (Hmax fd Hin). destruct (decide (rfd > max_fd)); lia.
  - rewrite <- Hreads. unfold w3, w2, w1, store, log; simpl. by rewrite reads_of_snoc, app_nil_r.
  - intros Hnodup i k' Hi Hk'. destruct (decide (i = j)) as [->|Hij].
    + rewrite Hk in Hk'. inversion Hk'; subst k'. by rewrite Hfd.
    + assert (k ≠ k') as Hne.
      { intros ->. apply Hij. by apply (NoDup_lookup ks i j k'). }
      unfold w3, w2. rewrite !slot_store_ne by done.
      apply (Hnd Hnodup); [lia|done].
Qed.

Lemma setup_pipes_spec (env : wait_env) (ks : list nat) (w : world) :
  wf w → Forall (λ k, (k < NUM_SIGNALS)%nat) ks → pipes_ok env (length ks) →
  returns (setup_pipes P env (addr_of P <$> ks) (Z.of_nat (length ks)) ∅ 0) w
    (λ s w', armed env ks w (length ks) s w').
Proof.
  intros Hwf Hks Hpipes. unfold setup_pipes. rewrite Nat2Z.id.
  apply (returns_for_loopM _ (armed env ks w) (length ks) 0).
  - unfold armed; simpl. split_and!; try done. intros; lia.
  - intros j t v Hj Harmed. apply setup_pipes_body_spec; [done|lia|done|done].
Qed.

(** ** wait_for_any and teardown_pipes *)

Lemma select_loop_spec (k : nat) (ready : gset Z) (rest : list select_result)
    (max_fd : Z) (fds : gset Z) (timeout : Z) (w : world) :
  returns (select_loop (replicate k (SelErr EINTR) ++ SelReturns ready :: rest)
             max_fd fds timeout) w
    (λ rf w', rf.2 = filter (λ fd, fd < max_fd + 1 ∧ fd ∈ ready) fds ∧
              rf.1 = Z.of_nat (size rf.2) ∧
              signals w' = signals w ∧
              reads_of (trace w') = reads_of (trace w)).
Proof.
  revert w. induction k as [|k IH]; intros w; simpl.
  - apply returns_bind. unfold sys_select.
    apply returns_bind, returns_act, returns_ret.
    apply returns_bind, returns_read. cbv beta iota.
    rewrite decide_False by lia.
    apply returns_ret. simpl. split_and!; try done.
    by rewrite reads_of_snoc, app_nil_r.
  - apply returns_bind. unfold sys_select.
    apply returns_bind, returns_act.
    apply returns_bind, returns_act, returns_ret.
    apply returns_bind, returns_read. cbv beta iota. simpl errno.
    rewrite decide_True by done.
    eapply returns_wand; [apply IH|].
    intros rf w' (H1 & H2 & H3 & H4). split_and!; try done.
    rewrite H4. simpl. by rewrite reads_of_snoc, app_nil_r.
Qed.

Lemma scan_body_spec (env : wait_env) (ks : list nat) (rf : nat → Z) (fds : gset Z)
    (w0 : world) (j : nat) (idx : Z) (w : world) :
  Forall (λ k, (k < NUM_SIGNALS)%nat) ks → (j < length ks)%nat →
  (∀ i k, ks !! i = Some k → read_fd (slot k w0) = rf i) →
  (rf j ∈ fds → env_read env j = true) →
  scanned rf fds w0 j idx w →
  returns (scan_body P env (addr_of P <$> ks) fds j idx) w
    (λ bs w', bs.1 = false ∧ scanned rf fds w0 (Datatypes.S j) bs.2 w').
Proof.
  intros Hks Hj Hrf Hret (Hsig & Hreads & Hidx).
  destruct (lookup_lt_is_Some_2 ks j Hj) as [k Hk].
  assert (k < NUM_SIGNALS)%nat as Hlt
    by (exact (Forall_lookup_1 (λ k, (k < NUM_SIGNALS)%nat) ks j k Hks Hk)).
  assert (read_fd (slot k w) = rf j) as Hfd
    by (unfold slot; rewrite Hsig; by apply Hrf).
  unfold scan_body.
  apply returns_bind, (returns_deref ks j k); [done|done|].
  apply returns_bind, returns_read. rewrite Hfd.
  destruct (decide (rf j ∈ fds)) as [Hin|Hout].
  - unfold sys_read. rewrite (Hret Hin).
    apply returns_bind, returns_act, returns_ret. split; [done|].
    unfold scanned; cbn [fst snd]. split_and!.
    + done.
    + cbn [trace log]. rewrite reads_of_snoc, Hreads, seq_S, fmap_app, filter_app, fmap_app.
      simpl. rewrite filter_cons, filter_nil, decide_True by done.
      by rewrite <- app_assoc.
    + right. destruct Hidx as [[-> Hnone]|(i0 & Hi0 & -> & Hin0 & Hlow)].
      * rewrite decide_True by done. exists j. split_and!; try done. lia.
      * rewrite decide_False by lia. exists i0. split_and!; try done. lia.
  - apply returns_ret. split; [done|].
    unfold scanned; cbn [fst snd]. split_and!.
    + done.
    + rewrite Hreads, seq_S, fmap_app, filter_app, fmap_app.
      simpl. rewrite filter_cons, filter_nil, decide_False by done.
      by rewrite app_nil_r.
    + destruct Hidx as [[-> Hnone]|(i0 & Hi0 & -> & Hin0 & Hlow)].
      * left. split; [done|]. intros i Hi. destruct (decide (i = j)) as [->|Hne]; [done|].
        apply Hnone. lia.
      * right. exists i0. split_and!; try done. lia.
Qed.

Lemma scan_spec (env : wait_env) (ks : list nat) (rf : nat → Z) (fds : gset Z)
    (w : world) :
  Forall (λ k, (k < NUM_SIGNALS)%nat) ks →
  (∀ i k, ks !! i = Some k → read_fd (slot k w) = rf i) →
  (∀ i, (i < length ks)%nat → rf i ∈ fds → env_read env i = true) →
  returns (for_loopM (scan_body P env (addr_of P <$> ks) fds) 0 (length ks) (-1)) w
    (λ idx w', scanned rf fds w (length ks) idx w').
Proof.
  intros Hks Hrf Hret.
  apply (returns_for_loopM _ (scanned rf fds w) (length ks) 0).
  - unfold scanned. simpl. split_and!; [done|by rewrite app_nil_r|].
    left. split; [done|intros; lia].
  - intros j t v Hj Hsc. apply scan_body_spec; [done|lia|done| |done].
    apply Hret. lia.
Qed.

Lemma teardown_pipes_spec (ks : list nat) (w : world) :
  wf w → Forall (λ k, (k < NUM_SIGNALS)%nat) ks →
  returns (teardown_pipes P (addr_of P <$> ks) (Z.of_nat (length ks))) w
    (λ _ w', wf w' ∧ dispositions w' = dispositions w ∧
             reads_of (trace w') = reads_of (trace w)).
Proof.
  intros Hwf Hks. unfold teardown_pipes. rewrite Nat2Z.id.
  eapply returns_wand.
  - apply (returns_for_loopM _
      (λ _ _ w', wf w' ∧ dispositions w' = dispositions w ∧
                 reads_of (trace w') = reads_of (trace w)) (length ks) 0); [done|].
    intros j [] v Hj (Hwfv & Hd & Hreads).
    destruct (lookup_lt_is_Some_2 ks j) as [k Hk]; [lia|].
    assert (k < NUM_SIGNALS)%nat as Hlt
      by (exact (Forall_lookup_1 (λ k, (k < NUM_SIGNALS)%nat) ks j k Hks Hk)).
    unfold teardown_pipes_body.
    apply returns_bind, (returns_deref ks j k); [done|done|].
    apply returns_bind, returns_read.
    apply returns_bind.
    assert (∀ fd v1, reads_of (trace v1) = reads_of (trace w) →
              returns (if decide (fd ≠ 0) then act (log (EvClose fd)) else ret ()) v1
                (λ _ v2, signals v2 = signals v1 ∧ dispositions v2 = dispositions v1 ∧
                         reads_of (trace v2) = reads_of (trace w))) as Hclose.
    { intros fd v1 Hv1. destruct (decide (fd ≠ 0)).
      - apply returns_act. simpl. split_and!; try done.
        by rewrite reads_of_snoc, app_nil_r.
      - by apply returns_ret. }
    eapply returns_wand; [by apply Hclose|]. intros _ v1 (Hs1 & Hd1 & Hr1).
    apply returns_bind, returns_read.
    apply returns_bind.
    eapply returns_wand; [by apply Hclose|]. intros _ v2 (Hs2 & Hd2 & Hr2).
    apply returns_bind, returns_act.
    apply returns_bind, returns_act.
    apply returns_ret. simpl. split; [done|]. split_and!.
    + rewrite !wf_store. unfold wf in *. by rewrite Hs2, Hs1.
    + by rewrite Hd2, Hd1.
    + done.
  - intros [] w' H. exact H.
Qed.

(** ** Mono_Unix_UnixSignal_WaitAny *)

Lemma filter_ext_elem {A : Type} (Q1 Q2 : A → Prop) `{∀ x, Decision (Q1 x)}
    `{∀ x, Decision (Q2 x)} (l : list A) :
  (∀ x, x ∈ l → Q1 x ↔ Q2 x) → filter Q1 l = filter Q2 l.
Proof.
  induction l as [|x l IH]; intros Hl; [done|].
  rewrite !filter_cons, IH by (intros y Hy; apply Hl; by right).
  destruct (decide (Q1 x)) as [H1|H1], (decide (Q2 x)) as [H2|H2]; try done.
  - destruct H2. apply Hl; [by left|done].
  - destruct H1. apply Hl; [by left|done].
Qed.

(** After [select], a pipe of the call is in the set exactly when the
    environment reported it readable. *)
Lemma armed_ready (env : wait_env) (n : nat) (fds : gset Z) (max_fd : Z)
    (ready : gset Z) (i : nat) :
  fds = list_to_set (pipe_rfd env <$> seq 0 n) →
  (∀ fd, fd ∈ fds → fd ≤ max_fd) → (i < n)%nat →
  pipe_rfd env i ∈ filter (λ fd, fd < max_fd + 1 ∧ fd ∈ ready) fds ↔
  pipe_rfd env i ∈ ready.
Proof.
  intros Hfds Hmax Hi.
  assert (pipe_rfd env i ∈ fds) as Hin.
  { rewrite Hfds. apply elem_of_list_to_set, list_elem_of_fmap. exists i.
    split; [done|]. apply elem_of_seq. lia. }
  rewrite elem_of_filter. pose proof (Hmax _ Hin). split; [tauto|].
  intros Hr. split; [split; [lia|done]|done].
Qed.

(** C7, for handles that are distinct.  Over distinct valid handles, with
    pipes whose read ends are distinct, when [select] (after any number of
    interruptions) reports at least one of these read ends readable and the
    reported pipes hold the byte to read, [WaitAny] returns the lowest index
    whose pipe was reported, and the [read] calls it issued are one of one
    byte for each reported pipe, in input order. *)
Theorem WaitAny_returns_lowest_ready (env : wait_env) (ks : list nat) (timeout : Z)
    (k : nat) (ready : gset Z) (rest : list select_result) (w : world) :
  wf w → Forall (λ k, (k < NUM_SIGNALS)%nat) ks → NoDup ks →
  pipes_ok env (length ks) →
  NoDup (pipe_rfd env <$> seq 0 (length ks)) →
  env_select env = replicate k (SelErr EINTR) ++ SelReturns ready :: rest →
  reads_return env (length ks) ready →
  (∃ i, (i < length ks)%nat ∧ pipe_rfd env i ∈ ready) →
  ∃ i0 w',
    Mono_Unix_UnixSignal_WaitAny P 0 env (addr_of P <$> ks)
      (Z.of_nat (length ks)) timeout w = Done (Z.of_nat i0) w' ∧
    (i0 < length ks)%nat ∧ pipe_rfd env i0 ∈ ready ∧
    (∀ i, (i < i0)%nat → pipe_rfd env i ∉ ready) ∧
    reads_of (trace w') = reads_of (trace w) ++
      ((λ fd, (fd, 1)) <$>
         filter (λ fd, fd ∈ ready) (pipe_rfd env <$> seq 0 (length ks))) ∧
    NoDup (filter (λ fd, fd ∈ ready) (pipe_rfd env <$> seq 0 (length ks))).
Proof.
  intros Hwf Hks Hnodup Hpipes Hfresh Hsel Hret (i1 & Hi1 & Hready1).
  set (n := length ks) in *.
  cut (returns (Mono_Unix_UnixSignal_WaitAny P 0 env (addr_of P <$> ks)
                  (Z.of_nat n) timeout) w
         (λ r w', ∃ i0, r = Z.of_nat i0 ∧ (i0 < n)%nat ∧ pipe_rfd env i0 ∈ ready ∧
            (∀ i, (i < i0)%nat → pipe_rfd env i ∉ ready) ∧
            reads_of (trace w') = reads_of (trace w) ++
              ((λ fd, (fd, 1)) <$>
                 filter (λ fd, fd ∈ ready) (pipe_rfd env <$> seq 0 n)))).
  { intros (r & w' & Hrun & i0 & -> & H1 & H2 & H3 & H4).
    exists i0, w'. split_and!; try done. by apply NoDup_filter. }
  unfold Mono_Unix_UnixSignal_WaitAny.
  apply returns_bind, returns_act. rewrite decide_False by lia.
  apply returns_bind. eapply returns_wand; [by apply setup_pipes_spec|].
  intros [[r fds] max_fd] w1 (Hwf1 & Hr & Hfds & Hmax & Hreads1 & Hslots).
  cbn [fst snd] in *. fold n in Hr, Hfds, Hslots.
  assert (r = 0) as -> by (destruct n; [lia|done]).
  apply returns_bind. rewrite decide_True by done.
  unfold wait_for_any. apply returns_bind. rewrite Hsel.
  eapply returns_wand; [apply select_loop_spec|].
  intros [r' fds'] w2 (Hfds' & Hr' & Hsig2 & Hreads2). cbn [fst snd] in *.
  assert (∀ i, (i < n)%nat → pipe_rfd env i ∈ fds' ↔ pipe_rfd env i ∈ ready) as Hiff.
  { intros i Hi. rewrite Hfds'. by apply (armed_ready env n). }
  assert (r' > 0) as Hpos.
  { assert (size fds' ≠ 0%nat); [|lia].
    intros Hz. apply size_empty_iff in Hz.
    assert (pipe_rfd env i1 ∈ fds') as Hin by (by apply Hiff).
    rewrite Hz in Hin. by apply not_elem_of_empty in Hin. }
  rewrite decide_False by lia. rewrite decide_True by done.
  rewrite Nat2Z.id. eapply returns_wand.
  { apply (scan_spec env ks (pipe_rfd env) fds' w2); [done| |].
    - intros i k' Hk'. unfold slot. rewrite Hsig2. apply (Hslots Hnodup); [|done].
      by eapply lookup_lt_Some.
    - intros i Hi Hin. apply Hret; [done|]. by apply Hiff. }
  intros idx w3 (Hsig3 & Hreads3 & Hidx). fold n in Hreads3, Hidx.
  apply returns_bind. eapply returns_wand.
  { apply teardown_pipes_spec; [|done]. unfold wf in *. by rewrite Hsig3, Hsig2. }
  intros [] w4 (Hwf4 & _ & Hreads4).
  apply returns_bind, returns_act, returns_ret.
  destruct Hidx as [[_ Hnone]|(i0 & Hi0 & -> & Hin0 & Hlow)].
  { destruct (Hnone i1 Hi1). by apply Hiff. }
  exists i0. split_and!; try done.
  - by apply Hiff.
  - intros i Hi Hri. apply (Hlow i Hi). apply Hiff; [lia|done].
  - cbn [trace log]. rewrite reads_of_snoc, app_nil_r, Hreads4, Hreads3, Hreads2.
    cbn [trace log] in Hreads1. rewrite reads_of_snoc, app_nil_r in Hreads1.
    rewrite Hreads1. f_equal. f_equal. apply filter_ext_elem.
    intros fd Hfd. apply list_elem_of_fmap in Hfd as (i & -> & Hi).
    apply Hiff. apply elem_of_seq in Hi. lia.
Qed.

(** C3, as the code has it.  When [select] (after any number of
    interruptions) returns with none of the pipes of the call readable,
    [WaitAny] returns its [timeout] argument, which for a finite timeout is
    not [-1], and reads from no pipe. *)
Theorem WaitAny_timeout_returns_timeout (env : wait_env) (ks : list nat)
    (timeout : Z) (k : nat) (ready : gset Z) (rest : list select_result) (w : world) :
  wf w → Forall (λ k, (k < NUM_SIGNALS)%nat) ks → ks ≠ [] →
  pipes_ok env (length ks) →
  env_select env = replicate k (SelErr EINTR) ++ SelReturns ready :: rest →
  (∀ i, (i < length ks)%nat → pipe_rfd env i ∉ ready) →
  timeout ≠ -1 →
  ∃ r w',
    Mono_Unix_UnixSignal_WaitAny P 0 env (addr_of P <$> ks)
      (Z.of_nat (length ks)) timeout w = Done r w' ∧
    r = timeout ∧ r ≠ -1 ∧ reads_of (trace w') = reads_of (trace w).
Proof.
  intros Hwf Hks Hne Hpipes Hsel Hquiet Hfinite.
  set (n := length ks) in *.
  cut (returns (Mono_Unix_UnixSignal_WaitAny P 0 env (addr_of P <$> ks)
                  (Z.of_nat n) timeout) w
         (λ r w', r = timeout ∧ reads_of (trace w') = reads_of (trace w))).
  { intros (r & w' & Hrun & -> & H1). by exists timeout, w'. }
  unfold Mono_Unix_UnixSignal_WaitAny.
  apply returns_bind, returns_act. rewrite decide_False by lia.
  apply returns_bind. eapply returns_wand; [by apply setup_pipes_spec|].
  intros [[r fds] max_fd] w1 (Hwf1 & Hr & Hfds & Hmax & Hreads1 & _).
  cbn [fst snd] in *. fold n in Hr, Hfds.
  assert (r = 0) as ->.
  { destruct n eqn:Hn; [|done]. destruct ks; [done|discriminate]. }
  apply returns_bind. rewrite decide_True by done.
  unfold wait_for_any. apply returns_bind. rewrite Hsel.
  eapply returns_wand; [apply select_loop_spec|].
  intros [r' fds'] w2 (Hfds' & Hr' & Hsig2 & Hreads2). cbn [fst snd] in *.
  assert (fds' = ∅) as ->.
  { apply set_eq. intros fd. split; [|intros H; by apply not_elem_of_empty in H].
    rewrite Hfds'. intros Hin. apply elem_of_filter in Hin as [[_ Hr1] Hin].
    rewrite Hfds in Hin.
    apply elem_of_list_to_set, list_elem_of_fmap in Hin as (i & -> & Hi).
    apply elem_of_seq in Hi. destruct (Hquiet i); [lia|done]. }
  rewrite size_empty in Hr'. rewrite decide_True by done.
  apply returns_ret.
  apply returns_bind. eapply returns_wand.
  { apply teardown_pipes_spec; [|done]. unfold wf in *. by rewrite Hsig2. }
  intros [] w4 (Hwf4 & _ & Hreads4).
  apply returns_bind, returns_act, returns_ret.
  split; [done|].
  cbn [trace log]. rewrite reads_of_snoc, app_nil_r, Hreads4, Hreads2.
  cbn [trace log] in Hreads1. by rewrite reads_of_snoc, app_nil_r in Hreads1.
Qed.

(** ** The lock *)

Lemma emits_ret {A : Type} (Q : event → Prop) (a : A) : emits Q (ret a).
Proof. intros w. simpl. exists []. by rewrite app_nil_r. Qed.

Lemma emits_bind {A B : Type} (Q : event → Prop) (m : M A) (k : A → M B) :
  emits Q m → (∀ a, emits Q (k a)) → emits Q (m ≫= k).
Proof.
  intros Hm Hk w. unfold mbind, M_bind, bind. specialize (Hm w).
  destruct (m w) as [a w1| |w1]; [|done|done].
  destruct Hm as (e1 & Ht1 & Hq1). specialize (Hk a w1).
  destruct (k a w1) as [b w2| |w2]; [|done|].
  - destruct Hk as (e2 & Ht2 & Hq2). exists (e1 ++ e2).
    split; [by rewrite Ht2, Ht1, app_assoc|by apply Forall_app].
  - destruct Hk as (e2 & Ht2 & Hq2). exists (e1 ++ e2).
    split; [by rewrite Ht2, Ht1, app_assoc|by apply Forall_app].
Qed.

Lemma emits_log (Q : event → Prop) (e : event) : Q e → emits Q (act (log e)).
Proof. intros He w. simpl. exists [e]. split; [done|by apply Forall_singleton]. Qed.

Lemma emits_quiet (Q : event → Prop) (f : world → world) :
  (∀ w, trace (f w) = trace w) → emits Q (act f).
Proof. intros Hf w. simpl. exists []. by rewrite Hf, app_nil_r. Qed.

Lemma emits_read {A : Type} (Q : event → Prop) (f : world → A) : emits Q (read_world f).
Proof. intros w. simpl. exists []. by rewrite app_nil_r. Qed.

Lemma emits_deref (Q : event → Prop) (_signals : list Z) (i : nat) :
  emits Q (deref P _signals i).
Proof.
  intros w. unfold deref. destruct (_signals !! i) as [p|]; [|done].
  destruct (slot_of P p); [|done]. exists []. by rewrite app_nil_r.
Qed.

Lemma emits_sys_read (Q : event → Prop) (returns : bool) (fd : Z) :
  Q (EvRead fd 1) → emits Q (sys_read returns fd).
Proof.
  intros HQ. unfold sys_read. destruct returns; [by apply emits_log|].
  intros w. exists []. by rewrite app_nil_r.
Qed.

Lemma emits_for_loopM {S : Type} (Q : event → Prop) (body : nat → S → M (bool * S))
    (n i : nat) (s : S) :
  (∀ j t, emits Q (body j t)) → emits Q (for_loopM body i n s).
Proof.
  intros Hbody. revert i s. induction n as [|n IH]; intros i s; simpl.
  - apply emits_ret.
  - apply emits_bind; [apply Hbody|]. intros [[] s'].
    + apply emits_ret.
    + apply IH.
Qed.

Lemma emits_select_loop (script : list select_result) (max_fd : Z) (fds : gset Z)
    (timeout : Z) :
  emits no_lock_event (select_loop script max_fd fds timeout).
Proof.
  revert fds. induction script as [|res script IH]; intros fds; simpl.
  - intros w. exists []. by rewrite app_nil_r.
  - apply emits_bind.
    + unfold sys_select. apply emits_bind; [by apply emits_log|]. intros _.
      destruct res.
      * apply emits_ret.
      * apply emits_bind; [by apply emits_quiet|]. intros _. apply emits_ret.
    + intros [r fds']. apply emits_bind; [apply emits_read|]. intros e.
      destruct (decide _); [apply IH|apply emits_ret].
Qed.

Lemma emits_wait_locked (env : wait_env) (_signals : list Z) (count timeout : Z) :
  emits no_lock_event (wait_locked env _signals count timeout).
Proof.
  unfold wait_locked. apply emits_bind.
  - apply emits_for_loopM. intros j [[r fds] max_fd]. unfold setup_pipes_body.
    apply emits_bind; [by apply emits_log|]. intros _.
    destruct (env_pipe env j).
    + apply emits_bind; [apply emits_deref|]. intros h.
      apply emits_bind; [by apply emits_quiet|]. intros _.
      apply emits_bind; [by apply emits_quiet|]. intros _.
      apply emits_bind; [apply emits_read|]. intros fd. apply emits_ret.
    + apply emits_bind; [by apply emits_quiet|]. intros _. apply emits_ret.
  - intros [[r fds] max_fd]. apply emits_bind.
    + destruct (decide (r = 0)); [|apply emits_ret].
      unfold wait_for_any. apply emits_bind; [apply emits_select_loop|].
      intros [r' fds']. destruct (decide (r' = 0)); [apply emits_ret|].
      destruct (decide (r' > 0)); [|apply emits_ret].
      apply emits_for_loopM. intros j idx. unfold scan_body.
      apply emits_bind; [apply emits_deref|]. intros h.
      apply emits_bind; [apply emits_read|]. intros fd.
      destruct (decide _); [|apply emits_ret].
      apply emits_bind; [by apply emits_sys_read|]. intros _. apply emits_ret.
    + intros r'. apply emits_bind; [|intros _; apply emits_ret].
      apply emits_for_loopM. intros j []. unfold teardown_pipes_body.
      apply emits_bind; [apply emits_deref|]. intros h.
      apply emits_bind; [apply emits_read|]. intros rfd.
      apply emits_bind.
      { destruct (decide _); [by apply emits_log|apply emits_ret]. }
      intros _. apply emits_bind; [apply emits_read|]. intros wfd.
      apply emits_bind.
      { destruct (decide _); [by apply emits_log|apply emits_ret]. }
      intros _. apply emits_bind; [by apply emits_quiet|]. intros _.
      apply emits_bind; [by apply emits_quiet|]. intros _. apply emits_ret.
Qed.

(** [WaitAny] is its middle part between one lock and one unlock. *)
Lemma WaitAny_unfold (env : wait_env) (_signals : list Z) (count timeout : Z)
    (w : world) :
  Mono_Unix_UnixSignal_WaitAny P 0 env _signals count timeout w =
    match wait_locked env _signals count timeout (log (EvLock 0) w) with
    | Done r w1 => Done r (log EvUnlock w1)
    | Undefined => Undefined
    | Blocked w1 => Blocked w1
    end.
Proof.
  unfold Mono_Unix_UnixSignal_WaitAny, wait_locked, mbind, M_bind, bind, act, ret.
  rewrite decide_False by lia.
  destruct (setup_pipes P env _signals count ∅ 0 (log (EvLock 0) w))
    as [[[r fds] max_fd] w1| |w1]; [|done|done].
  destruct (decide (r = 0)).
  - destruct (wait_for_any P env _signals count max_fd fds timeout w1)
      as [r' w2| |w2]; [|done|done].
    by destruct (teardown_pipes P _signals count w2) as [[] w3| |w3].
  - by destruct (teardown_pipes P _signals count w1) as [[] w3| |w3].
Qed.

Lemma held_throughout (evs rest : list event) :
  Forall no_lock_event evs →
  selects_all true true (evs ++ rest) = selects_all true true rest ∧
  lock_after true (evs ++ rest) = lock_after true rest.
Proof.
  induction 1 as [|e evs He _ IH]; [done|].
  assert (lock_step true e = true) as Hstep by (by destruct e).
  simpl. unfold lock_after in *. simpl. rewrite Hstep.
  destruct IH as [-> ->]. split; [|done]. by destruct e.
Qed.

Lemma held_prefix (evs : list event) :
  Forall no_lock_event evs → lock_after true evs = true.
Proof.
  intros H. destruct (held_throughout evs [] H) as [_ Hl].
  by rewrite app_nil_r in Hl.
Qed.

(** Calls without a lock or an unlock, issued after the lock was taken and
    followed only by calls that are not on the pipes: the calls on the pipes
    are all issued while the lock is held. *)
Lemma locked_between (mid tail : list event) :
  Forall no_lock_event mid → Forall (λ e, ¬ wait_call e) tail →
  locked_calls (EvLock 0 :: mid ++ tail).
Proof.
  intros Hmid Htail pre e post Heq He.
  destruct pre as [|e0 pre]; simpl in Heq.
  { inversion Heq; subst e. destruct He. }
  inversion Heq as [[He0 Hrest]]. clear Heq. symmetry in Hrest.
  apply app_eq_inv in Hrest as [(l & Hpre & Ht)|(l & Hm & Hp)].
  - rewrite Ht in Htail. apply Forall_app in Htail as [_ Htail].
    apply Forall_cons in Htail as [Hno _]. by destruct Hno.
  - rewrite Hm in Hmid. apply Forall_app in Hmid as [Hpre _].
    unfold lock_after. simpl. by apply held_prefix.
Qed.

(** C1, as the code has it.  The calls of a [WaitAny] that took the lock are
    the lock, calls that are neither a lock nor an unlock, and, if it
    returns, the unlock as the last call: every [pipe], [select], [read] and
    [close] of the call is issued while the lock is held, and a call that
    does not return keeps the lock.  When the lock could not be taken, the
    attempt is the only call.  [default_handler] issues only [write] calls:
    it never touches the lock and can run during the wait. *)
Theorem WaitAny_holds_lock_across_wait (mr : Z) (env : wait_env) (_signals : list Z)
    (count timeout : Z) (w : world) :
  match Mono_Unix_UnixSignal_WaitAny P mr env _signals count timeout w with
  | Done r w' =>
      ∃ issued, trace w' = trace w ++ issued ∧
                selects_all true false issued = true ∧
                lock_after false issued = false ∧
                locked_calls issued ∧
                (mr ≠ 0 → issued = [EvLock mr]) ∧
                (mr = 0 → ∃ mid, issued = [EvLock 0] ++ mid ++ [EvUnlock] ∧
                                 Forall no_lock_event mid)
  | Blocked w' =>
      ∃ issued, trace w' = trace w ++ issued ∧
                selects_all true false issued = true ∧
                lock_after false issued = true ∧
                locked_calls issued ∧
                mr = 0 ∧
                ∃ mid, issued = [EvLock 0] ++ mid ∧ Forall no_lock_event mid
  | Undefined => True
  end ∧
  ∀ sig v, ∃ evs, trace (default_handler sig v) = trace v ++ evs ∧
                  Forall no_lock_event evs.
Proof.
  split.
  - destruct (decide (mr = 0)) as [->|Hmr].
    + rewrite WaitAny_unfold.
      pose proof (emits_wait_locked env _signals count timeout (log (EvLock 0) w)) as He.
      destruct (wait_locked env _signals count timeout (log (EvLock 0) w))
        as [r w1| |w1]; [| done |].
      * destruct He as (evs & Ht & Hq). exists (EvLock 0 :: evs ++ [EvUnlock]).
        destruct (held_throughout evs [EvUnlock] Hq) as [Hs Hl].
        split_and!.
        -- simpl. rewrite Ht. simpl. by rewrite <- !app_assoc.
        -- simpl. by rewrite Hs.
        -- unfold lock_after in *. simpl. by rewrite Hl.
        -- apply locked_between; [done|]. apply Forall_singleton. by intros [].
        -- done.
        -- intros _. by exists evs.
      * destruct He as (evs & Ht & Hq). exists (EvLock 0 :: evs).
        destruct (held_throughout evs [] Hq) as [Hs Hl]. rewrite app_nil_r in *.
        split_and!.
        -- rewrite Ht. simpl. by rewrite <- !app_assoc.
        -- simpl. by rewrite Hs.
        -- unfold lock_after in *. simpl. by rewrite Hl.
        -- rewrite <- (app_nil_r evs). by apply locked_between.
        -- done.
        -- by exists evs.
    + unfold Mono_Unix_UnixSignal_WaitAny, mbind, M_bind, bind, act, ret.
      rewrite decide_True by done. exists [EvLock mr]. split_and!; try done.
      * unfold lock_after. simpl. by rewrite decide_False.
      * intros pre e post Heq He. destruct pre as [|e0 pre]; simpl in Heq.
        -- inversion Heq; subst e. destruct He.
        -- inversion Heq as [[He0 Hrest]]. by destruct pre.
  - intros sig v. unfold default_handler.
    apply (for_loop_inv _
      (λ _ v', ∃ evs, trace v' = trace v ++ evs ∧ Forall no_lock_event evs)).
    + exists []. by rewrite app_nil_r.
    + intros j t t' _ (evs & Ht & Hq) Hb. unfold default_handler_body in Hb.
      destruct (decide _); [inversion Hb; subst t'; by exists evs|].
      destruct (decide _); inversion Hb; subst t'; simpl.
      * exists (evs ++ [EvWrite (write_fd (slot j (atomic_inc_count j t))) (sig `mod` 256) 1]).
        split; [by rewrite Ht, app_assoc|]. apply Forall_app. split; [done|].
        by apply Forall_singleton.
      * by exists evs.
    + intros j t t' _ _ Hb. unfold default_handler_body in Hb.
      repeat case_decide; discriminate.
    + intros t Ht. exact Ht.
Qed.

(** C6.  With an empty sequence of handles [WaitAny] rejects nothing.
    [setup_pipes] returns its local [r] without ever assigning it: when the
    value found there is not [0], [WaitAny] returns it; when it is [0],
    [WaitAny] calls [select] on the empty set, and blocks for as long as
    [select] does, or returns [timeout] when [select] times out. *)
Theorem WaitAny_empty_not_rejected (pipes : nat → pipe_result) (reads : nat → bool)
    (timeout : Z) (w : world) :
  (∀ (r0 : positive) script,
     Mono_Unix_UnixSignal_WaitAny P 0
       {| env_r0 := Z.pos r0; env_pipe := pipes; env_select := script;
          env_read := reads |} [] 0 timeout w
     = Done (Z.pos r0) (log EvUnlock (log (EvLock 0) w))) ∧
  Mono_Unix_UnixSignal_WaitAny P 0
    {| env_r0 := 0; env_pipe := pipes; env_select := []; env_read := reads |}
    [] 0 timeout w
  = Blocked (log (EvLock 0) w) ∧
  (∀ ready rest,
     Mono_Unix_UnixSignal_WaitAny P 0
       {| env_r0 := 0; env_pipe := pipes; env_select := SelReturns ready :: rest;
          env_read := reads |}
       [] 0 timeout w
     = Done timeout
         (log EvUnlock
            (log (EvSelect 1 ∅ (timeval_of timeout) (SelReturns ready))
               (log (EvLock 0) w)))).
Proof.
  split_and!.
  - intros r0 script. rewrite WaitAny_unfold.
    unfold wait_locked, setup_pipes, teardown_pipes, mbind, M_bind, bind, ret. simpl.
    done.
  - rewrite WaitAny_unfold.
    unfold wait_locked, setup_pipes, teardown_pipes, wait_for_any, mbind, M_bind, bind, ret.
    simpl. done.
  - intros ready rest. rewrite WaitAny_unfold.
    unfold wait_locked, setup_pipes, teardown_pipes, wait_for_any, mbind, M_bind, bind, ret.
    simpl. unfold mbind, M_bind, bind, sys_select, act, read_world, ret. simpl.
    assert (filter (λ fd, fd < 0 + 1 ∧ fd ∈ ready) (∅ : gset Z) = ∅) as ->
      by (apply leibniz_equiv, filter_empty).
    rewrite size_empty. simpl. done.
Qed.

End Properties.

(** * Further properties *)

(** ** The timeout of [wait_for_any] *)

(** X1.  The [struct timeval] that [wait_for_any] builds: for a timeout of
    zero or more milliseconds it is the same duration, with the microseconds
    below one second; it is absent ([select] waits without limit) exactly for
    [-1]; and for a timeout below [-1] it is a negative duration. *)
Theorem timeval_of_timeout (timeout : Z) :
  (0 ≤ timeout →
   ∃ sec usec, timeval_of timeout = Some (sec, usec) ∧
               0 ≤ sec ∧ 0 ≤ usec < 1000000 ∧
               sec * 1000000 + usec = timeout * 1000) ∧
  (timeval_of timeout = None ↔ timeout = -1) ∧
  (timeout < -1 →
   ∃ sec usec, timeval_of timeout = Some (sec, usec) ∧
               sec ≤ 0 ∧ usec ≤ 0 ∧ sec * 1000000 + usec < 0).
Proof.
  unfold timeval_of. split_and!.
  - intros Hpos. rewrite decide_True by lia. eexists _, _. split; [done|].
    pose proof (Z.quot_rem' timeout 1000) as Hqr.
    pose proof (Z.rem_bound_pos timeout 1000 Hpos ltac:(lia)) as Hr.
    pose proof (Z.quot_pos timeout 1000 Hpos ltac:(lia)) as Hq. lia.
  - destruct (decide (timeout ≠ -1)) as [Hne|Heq]; split; try done.
    intros _. lia.
  - intros Hneg. rewrite decide_True by lia. eexists _, _. split; [done|].
    pose proof (Z.quot_rem' timeout 1000) as Hqr.
    assert (timeout = - - timeout) as Ht by lia.
    pose proof (Z.quot_opp_l (- timeout) 1000 ltac:(lia)) as Hq.
    pose proof (Z.rem_opp_l (- timeout) 1000 ltac:(lia)) as Hr.
    rewrite <- Ht in Hq, Hr.
    pose proof (Z.quot_pos (- timeout) 1000 ltac:(lia) ltac:(lia)).
    pose proof (Z.rem_bound_pos (- timeout) 1000 ltac:(lia) ltac:(lia)).
    lia.
Qed.

Section Coverage.
Context (P : platform).

Local Abbreviation records := (records P).
Local Abbreviation catchable := (catchable P).
Local Abbreviation installed := (installed P).
Local Abbreviation saved_handler := (saved_handler P).
Local Abbreviation consistent := (consistent P).
Local Abbreviation install_failed := (install_failed P).
Local Abbreviation in_range := (in_range P).

(** ** Pointers *)

Lemma slot_of_Some (p : Z) (i : nat) :
  slot_of P p = Some i → (i < NUM_SIGNALS)%nat ∧ p = addr_of P i.
Proof.
  unfold slot_of, addr_of, signals_base, info_size, NUM_SIGNALS.
  set (b := Z.pos (signals_addr P)). set (s := Z.pos (sizeof_signal_info P)).
  assert (0 < s) as Hs by (unfold s; lia).
  destruct (decide _) as [(Hlo & Hhi & Hmod)|]; [|done].
  intros Hi. inversion Hi; subst i; clear Hi.
  change (Z.of_nat 64) with 64 in Hhi.
  pose proof (Z.div_mod (p - b) s ltac:(lia)) as Hdm. rewrite Hmod in Hdm.
  assert (0 ≤ (p - b) `div` s) as Hq0 by (apply Z.div_pos; lia).
  assert ((p - b) `div` s < 64) as Hq by (apply Z.div_lt_upper_bound; lia).
  rewrite Z2Nat.id by done. split; [lia|lia].
Qed.

Lemma slot_of_one_past_end : slot_of P (addr_of P NUM_SIGNALS) = None.
Proof. unfold slot_of. rewrite decide_False; [done|]. lia. Qed.

(** ** count_handlers *)

(** X2.  [count_handlers] is the number of slots whose [signum] is the
    number asked for, between [0] and [NUM_SIGNALS]; it is [0] exactly when
    no slot holds that number, and for the number [0] it counts the free
    slots. *)
Theorem count_handlers_counts (sig : Z) (w : world) :
  wf w →
  count_handlers sig w = Z.of_nat (length (filter (λ x, signum x = sig) (signals w))) ∧
  0 ≤ count_handlers sig w ≤ Z.of_nat NUM_SIGNALS ∧
  (count_handlers sig w = 0 ↔ ∀ y, y ∈ signals w → signum y ≠ sig) ∧
  count_handlers 0 w = Z.of_nat (length (filter free (signals w))).
Proof.
  intros Hwf. rewrite !count_handlers_spec by done. unfold holders.
  split_and!; try done.
  - lia.
  - rewrite <- Hwf. apply inj_le, length_filter.
  - split.
    + intros Hz y Hy Hs.
      assert (y ∈ filter (λ x, signum x = sig) (signals w)) as Hin
        by (by apply list_elem_of_filter).
      destruct (filter _ (signals w)); [by apply not_elem_of_nil in Hin|].
      simpl in Hz. lia.
    + intros Hnone. destruct (filter _ (signals w)) as [|y l] eqn:Hf; [done|].
      assert (y ∈ filter (λ x, signum x = sig) (signals w)) as Hin
        by (rewrite Hf; left).
      apply list_elem_of_filter in Hin as [Hs Hin]. by destruct (Hnone y Hin).
Qed.

(** ** Mono_Unix_UnixSignal_uninstall *)

(** X3.  The range test of [uninstall] lets through every address from the
    first slot to the one past the last, whether or not a slot starts
    there: [uninstall] reads and writes outside the slots of the table
    exactly for the pointers in that range that are not the address of a
    slot, and the address one past the last slot is one of them. *)
Theorem uninstall_out_of_bounds (info : Z) (w : world) :
  (Mono_Unix_UnixSignal_uninstall P 0 info w = Undefined ↔
   in_range info ∧ slot_of P info = None) ∧
  Mono_Unix_UnixSignal_uninstall P 0 (addr_of P NUM_SIGNALS) w = Undefined.
Proof.
  assert (∀ p, Mono_Unix_UnixSignal_uninstall P 0 p w = Undefined ↔
               in_range p ∧ slot_of P p = None) as Hiff.
  { intros p. unfold Mono_Unix_UnixSignal_uninstall, in_range.
    rewrite decide_False by lia.
    destruct (decide (p = NULL ∨ p < signals_base P ∨ p > addr_of P NUM_SIGNALS))
      as [Hout|Hin].
    - split; [done|]. by intros [Hin _].
    - destruct (slot_of P p) as [i|]; [|done].
      split; [|by intros [_ ?]].
      destruct (decide _); [destruct (sys_signal _ _ _ _)|]; done. }
  split; [apply Hiff|]. apply Hiff. split; [|apply slot_of_one_past_end].
  unfold in_range, addr_of, signals_base, info_size, NULL, NUM_SIGNALS. lia.
Qed.

Lemma holders_none (sig : Z) (l : list signal_info) :
  (∀ y, y ∈ l → signum y ≠ sig) → holders sig l = [].
Proof.
  intros Hn. unfold holders. induction l as [|y l IH]; [done|].
  rewrite filter_cons, decide_False by (apply Hn; left).
  apply IH. intros z Hz. apply Hn. by right.
Qed.

Lemma holders_alone (w : world) (i : nat) (x : signal_info) :
  signals w !! i = Some x →
  (∀ j y, j ≠ i → signals w !! j = Some y → signum y ≠ signum x) →
  length (holders (signum x) (signals w)) = 1%nat.
Proof.
  intros Hx Halone.
  rewrite (holders_split _ _ _ _ Hx), holders_one, decide_True by done.
  rewrite !holders_none; [done| |].
  - intros y Hy. apply list_elem_of_lookup in Hy as [j Hj].
    rewrite lookup_drop in Hj. apply (Halone (Datatypes.S i + j)%nat); [lia|done].
  - intros y Hy. apply list_elem_of_lookup in Hy as [j Hj].
    pose proof (lookup_lt_Some _ _ _ Hj) as Hlt. rewrite length_take in Hlt.
    rewrite lookup_take_lt in Hj by lia. apply (Halone j); [lia|done].
Qed.

(** X4.  [uninstall] of the only registration of a signal hands the signal
    back: it calls [signal] with the handler saved in the slot, returns [0],
    and leaves the slot free with [handler] and [have_handler] reset; the
    other slots and [errno] stay as they were. *)
Theorem uninstall_last_restores (w : world) (i : nat) (x : signal_info) :
  wf w → signals w !! i = Some x →
  have_handler x ≠ 0 → catchable (signum x) →
  dispositions w (signum x) ≠ SIG_ERR →
  (∀ j y, j ≠ i → signals w !! j = Some y → signum y ≠ signum x) →
  ∃ w', Mono_Unix_UnixSignal_uninstall P 0 (addr_of P i) w = Done 0 w' ∧
        dispositions w' (signum x) = handler x ∧
        (∀ s, s ≠ signum x → dispositions w' s = dispositions w s) ∧
        signals w' !! i = Some (set_signum 0 (set_have_handler 0 (set_handler NULL x))) ∧
        (∀ j, j ≠ i → signals w' !! j = signals w !! j) ∧
        errno w' = errno w ∧
        trace w' = trace w ++
          [EvLock 0; EvSignal (signum x) (handler x) (dispositions w (signum x));
           EvUnlock] ∧
        count_handlers (signum x) w' = 0.
Proof.
  intros Hwf Hx Hh Hc Hd Halone.
  pose proof (lookup_lt_Some _ _ _ Hx) as Hlt.
  pose proof (holders_alone w i x Hx Halone) as Hone.
  exists (restored w i x). split.
  { rewrite (uninstall_last P w i x) by done. by rewrite decide_True. }
  unfold restored; simpl. split_and!; try done.
  - by rewrite fn_lookup_insert.
  - intros s Hs. by rewrite fn_lookup_insert_ne.
  - by apply list_lookup_insert_eq.
  - intros j Hj. by apply list_lookup_insert_ne.
  - rewrite count_handlers_spec by (unfold wf in *; simpl; by rewrite length_insert).
    simpl. rewrite (holders_insert _ _ _ _ _ Hx), holders_one.
    pose proof (holders_split (signum x) _ _ _ Hx) as Hsplit.
    rewrite Hone, holders_one, decide_True in Hsplit by done.
    destruct Hc as [Hpos _]. rewrite decide_False by (simpl; lia). lia.
Qed.

(** ** Mono_Unix_UnixSignal_install *)

Lemma first_at_exists {A : Type} (Q : A → Prop) `{∀ x, Decision (Q x)} (l : list A) :
  (∃ y, y ∈ l ∧ Q y) → ∃ i x, first_at Q l i x.
Proof.
  intros (y & Hy & HQ).
  destruct (list_find_elem_of Q l y Hy HQ) as [[i x] Hfind].
  apply list_find_Some in Hfind as (Hi & Hx & Hlow).
  exists i, x. split_and!; try done. intros k z Hk Hz. by apply (Hlow k z).
Qed.

Lemma install_lookup_h (sig : Z) (j : nat) (fr : install_frame) (wc : world) :
  fr_h (install_lookup P sig j fr wc) = fr_h fr.
Proof. unfold install_lookup. by destruct (decide _). Qed.

Lemma install_claim_refused (sig : Z) (w : world) (i : nat) (fr : install_frame)
    (x : signal_info) :
  fr_h fr = None → signals w !! i = Some x → free x →
  ¬ (catchable sig ∧ dispositions w sig ≠ SIG_ERR) →
  ∃ fr' w1,
    install_claim P sig i fr (log (EvLock 0) w) = (true, fr', w1) ∧
    fr_h fr' = None ∧ log EvUnlock w1 = install_failed sig w i x.
Proof.
  intros Hh Hx Hfree Hno.
  pose proof (lookup_lt_Some _ _ _ Hx) as Hlt.
  unfold install_claim, install_failed.
  rewrite (slot_lookup i _ x) by done. rewrite decide_True by done.
  destruct (sys_signal P sig (default_handler_ptr P) (log (EvLock 0) w))
    as [p w1] eqn:Hsig.
  assert (signals w1 = signals w ∧ p = SIG_ERR) as [Hs ->].
  { unfold sys_signal in Hsig.
    destruct (decide (0 < sig ∧ uncatchable P sig = false)) as [Hok|Hbad];
      inversion Hsig; subst; simpl; split; try done.
    destruct (decide (dispositions w sig = SIG_ERR)); [done|]. destruct Hno. by split. }
  assert (slot i w1 = x) as Hslot by (unfold slot; rewrite Hs; by apply list_lookup_total_correct).
  rewrite slot_store_eq by (by rewrite Hs). rewrite Hslot. simpl.
  eexists _, _. split; [done|]. split; [done|].
  unfold store, set_signals, log; simpl.
  unfold slot; simpl. rewrite Hs.
  rewrite list_lookup_total_insert_eq, list_insert_insert_eq by done.
  by rewrite (list_lookup_total_correct _ _ _ Hx).
Qed.

Lemma install_refused (sig : Z) (w : world) (i : nat) (x : signal_info) :
  wf w → first_at free (signals w) i x →
  ¬ (catchable sig ∧ dispositions w sig ≠ SIG_ERR) →
  Mono_Unix_UnixSignal_install P 0 sig w = (NULL, install_failed sig w i x).
Proof.
  intros Hwf (Hx & Hfree & Hfirst) Hno.
  pose proof (lookup_lt_Some _ _ _ Hx) as Hlt.
  unfold Mono_Unix_UnixSignal_install. rewrite decide_False by lia.
  cut (fr_h (for_loop (install_body P sig) 0 NUM_SIGNALS
               ({| fr_h := None; fr_have_handler := 0; fr_handler := 0 |},
                log (EvLock 0) w)).1 = None ∧
       log EvUnlock
         (for_loop (install_body P sig) 0 NUM_SIGNALS
            ({| fr_h := None; fr_have_handler := 0; fr_handler := 0 |},
             log (EvLock 0) w)).2 = install_failed sig w i x).
  { destruct (for_loop _ _ _ _) as [fr wc]. simpl. intros [-> ->]. done. }
  apply (for_loop_inv _
    (λ j s, fr_h s.1 = None ∧ s.2 = log (EvLock 0) w ∧ (j ≤ i)%nat)
    (λ s, fr_h s.1 = None ∧ log EvUnlock s.2 = install_failed sig w i x)).
  - simpl. split_and!; [done|done|lia].
  - intros j [fr wc] t' Hj (Hh & Hw & Hji) Hb. simpl in *. subst wc.
    unfold install_body in Hb.
    destruct (decide (j = i)) as [->|Hne].
    + destruct (install_claim_refused sig w i fr x Hh Hx Hfree Hno)
        as (fr' & w1 & Hc & _). rewrite Hc in Hb. discriminate.
    + destruct (lookup_lt_is_Some_2 (signals w) j) as [y Hy]; [lia|].
      rewrite install_claim_skip in Hb.
      2:{ right. rewrite (slot_lookup j _ y) by done. apply (Hfirst j y); [lia|done]. }
      destruct (decide _) as [[Hsome _]|_].
      { rewrite install_lookup_h, Hh in Hsome. by destruct Hsome. }
      inversion Hb; subst t'. simpl. rewrite install_lookup_h. split_and!; [done|done|lia].
  - intros j [fr wc] t' Hj (Hh & Hw & Hji) Hb. simpl in *. subst wc.
    unfold install_body in Hb.
    destruct (decide (j = i)) as [->|Hne].
    + destruct (install_claim_refused sig w i fr x Hh Hx Hfree Hno)
        as (fr' & w1 & Hc & Hh' & Hw1). rewrite Hc in Hb.
      inversion Hb; subst t'. by simpl.
    + destruct (lookup_lt_is_Some_2 (signals w) j) as [y Hy]; [lia|].
      rewrite install_claim_skip in Hb.
      2:{ right. rewrite (slot_lookup j _ y) by done. apply (Hfirst j y); [lia|done]. }
      destruct (decide _) as [[Hsome _]|_]; [|discriminate].
      rewrite install_lookup_h, Hh in Hsome. by destruct Hsome.
  - intros [fr wc] (_ & _ & Hle). unfold wf in Hwf. simpl in Hle. lia.
Qed.

Lemma install_no_free_slot (sig : Z) (w : world) :
  wf w → (∀ y, y ∈ signals w → signum y ≠ 0) →
  Mono_Unix_UnixSignal_install P 0 sig w =
    (NULL,
     {| signals := signals w; dispositions := dispositions w; errno := errno w;
        trace := trace w ++ [EvLock 0; EvUnlock] |}).
Proof.
  intros Hwf Hfull. unfold Mono_Unix_UnixSignal_install.
  rewrite decide_False by lia.
  pose proof (install_loop_spec P sig w Hwf) as Hpost.
  destruct (for_loop _ _ _ _) as [fr wc]. unfold install_loop_post in Hpost.
  simpl in Hpost. destruct (fr_h fr) as [i|].
  - destruct Hpost as (x & Hx & _). destruct (first_at_none _ _ _ _ Hx Hfull).
  - destruct Hpost as [[-> _]|(i & x & Hx & _)].
    + unfold log; simpl. by rewrite <- app_assoc.
    + destruct (first_at_none _ _ _ _ Hx Hfull).
Qed.

(** X5.  When no slot of the table is free, [install] returns [NULL]
    without calling [signal]: the table, the dispositions and [errno] are
    as before, so the caller finds no error code for the full table. *)
Theorem install_full_table (sig : Z) (w : world) :
  wf w → (∀ y, y ∈ signals w → signum y ≠ 0) →
  Mono_Unix_UnixSignal_install P 0 sig w =
    (NULL,
     {| signals := signals w; dispositions := dispositions w; errno := errno w;
        trace := trace w ++ [EvLock 0; EvUnlock] |}).
Proof. apply install_no_free_slot. Qed.

(** X6.  For a signal number that [signal] refuses (zero or negative,
    [SIGKILL], ...), [install] returns [NULL] with [errno = EINVAL]: the
    dispositions are untouched and no slot is taken; the only write is
    [handler = NULL] in the first free slot, which stays free. *)
Theorem install_uncatchable (sig : Z) (w : world) (i : nat) (x : signal_info) :
  wf w → first_at free (signals w) i x → ¬ catchable sig →
  Mono_Unix_UnixSignal_install P 0 sig w =
    (NULL,
     {| signals := <[i := set_handler NULL x]> (signals w);
        dispositions := dispositions w; errno := EINVAL;
        trace := trace w ++
          [EvLock 0; EvSignal sig (default_handler_ptr P) SIG_ERR; EvUnlock] |}).
Proof.
  intros Hwf Hx Hc. rewrite (install_refused sig w i x) by tauto.
  f_equal. unfold install_failed, sys_signal. rewrite decide_False by done.
  unfold log, set_signals, set_errno; simpl. by rewrite <- !app_assoc.
Qed.

(** X7.  [install] succeeds exactly when the lock is taken, a slot is free,
    [signal] accepts the number and what [signal] returns is not [SIG_ERR]. *)
Theorem install_succeeds_iff (mr sig : Z) (w : world) :
  wf w →
  (Mono_Unix_UnixSignal_install P mr sig w).1 ≠ NULL ↔
  mr = 0 ∧ (∃ y, y ∈ signals w ∧ free y) ∧ catchable sig ∧
  dispositions w sig ≠ SIG_ERR.
Proof.
  intros Hwf. split.
  - intros Hp. destruct (decide (mr = 0)) as [->|Hmr].
    + destruct (Mono_Unix_UnixSignal_install P 0 sig w) as [p w'] eqn:Hi.
      destruct (install_spec P sig w p w' Hwf Hi)
        as [[-> _]|(i & x & hd & (Hx & Hfree & _) & Hc & Hd & _)]; [done|].
      split_and!; try done. exists x. split; [|done].
      apply list_elem_of_lookup. by exists i.
    + unfold Mono_Unix_UnixSignal_install in Hp. by rewrite decide_True in Hp.
  - intros (-> & Hfree & Hc & Hd).
    destruct (first_at_exists free (signals w) Hfree) as (i & x & Hx).
    destruct (install_succeeds P sig w i x Hwf Hx Hc Hd) as (hd & _ & ->).
    apply addr_of_not_null.
Qed.

(** X8.  The handle [install] returns is the address of the first free slot
    of the table, an address [uninstall] and [WaitAny] resolve to that slot.
    Only that slot is written, and the descriptors left in it are not
    reset. *)
Theorem install_allocates_first_free (mr sig : Z) (w : world) (p : Z) (w' : world) :
  wf w →
  Mono_Unix_UnixSignal_install P mr sig w = (p, w') → p ≠ NULL →
  ∃ i x, first_at free (signals w) i x ∧
         p = addr_of P i ∧ slot_of P p = Some i ∧
         (∀ j, j ≠ i → signals w' !! j = signals w !! j) ∧
         length (signals w') = NUM_SIGNALS ∧
         read_fd (slot i w') = read_fd x ∧ write_fd (slot i w') = write_fd x ∧
         have_handler (slot i w') = 1.
Proof.
  intros Hwf Hi Hp.
  assert (mr = 0) as ->.
  { destruct (decide (mr = 0)) as [|Hmr]; [done|].
    unfold Mono_Unix_UnixSignal_install in Hi. rewrite decide_True in Hi by done.
    inversion Hi. by subst p. }
  destruct (install_spec P sig w p w' Hwf Hi)
    as [[-> _]|(i & x & hd & Hx & Hc & Hd & Hs & -> & ->)]; [done|].
  pose proof Hx as (Hxi & _ & _).
  pose proof (lookup_lt_Some _ _ _ Hxi) as Hlt.
  exists i, x. unfold slot, installed; simpl.
  rewrite list_lookup_total_insert_eq by done. simpl.
  split_and!; try done.
  - apply slot_of_addr_of. by rewrite <- Hwf.
  - intros j Hj. by apply list_lookup_insert_ne.
  - by rewrite length_insert.
Qed.

(** ** What the table keeps *)

Lemma consistent_install_failed (sig : Z) (w : world) (i : nat) (x : signal_info) :
  wf w → consistent w → signals w !! i = Some x → free x →
  wf (install_failed sig w i x) ∧ consistent (install_failed sig w i x).
Proof.
  intros Hwf Hcons Hx Hfree. pose proof (lookup_lt_Some _ _ _ Hx) as Hlt.
  unfold install_failed.
  destruct (sys_signal P sig (default_handler_ptr P) (log (EvLock 0) w))
    as [p w1] eqn:Hsig.
  assert (∀ s, dispositions w s = default_handler_ptr P →
               dispositions w1 s = default_handler_ptr P) as Hd.
  { intros s Hs. unfold sys_signal in Hsig.
    destruct (decide _); inversion Hsig; subst; simpl; [|done].
    destruct (decide (sig = s)) as [->|Hne]; [by rewrite fn_lookup_insert|].
    by rewrite fn_lookup_insert_ne. }
  split.
  - unfold wf in *. simpl. by rewrite length_insert.
  - intros y Hy Hlive. simpl in *. apply Hd.
    apply list_elem_of_lookup in Hy as [j Hj].
    destruct (decide (i = j)) as [<-|Hne].
    + rewrite list_lookup_insert_eq in Hj by done. inversion Hj; subst y.
      simpl in Hlive. by destruct Hlive.
    + rewrite list_lookup_insert_ne in Hj by done. apply Hcons; [|done].
      apply list_elem_of_lookup. by exists j.
Qed.

(** X9.  Whatever its outcome, [install] leaves the table with its
    [NUM_SIGNALS] slots and with [default_handler] installed for the signal
    of every live registration. *)
Theorem install_keeps_invariant (mr sig : Z) (w : world) :
  wf w → consistent w →
  wf (Mono_Unix_UnixSignal_install P mr sig w).2 ∧
  consistent (Mono_Unix_UnixSignal_install P mr sig w).2.
Proof.
  intros Hwf Hcons.
  destruct (decide (mr = 0)) as [->|Hmr].
  2:{ unfold Mono_Unix_UnixSignal_install. by rewrite decide_True. }
  destruct (decide (Exists (λ y, signum y = 0) (signals w))) as [Hfree|Hfull].
  - apply Exists_exists in Hfree.
    destruct (first_at_exists free (signals w) Hfree) as (i & x & Hx).
    pose proof Hx as (Hxi & Hxf & _).
    destruct (decide ((0 < sig ∧ uncatchable P sig = false) ∧
                      dispositions w sig ≠ SIG_ERR)) as [[Hc Hd]|Hno].
    + destruct (install_succeeds P sig w i x Hwf Hx Hc Hd) as (hd & _ & ->). simpl.
      split; [|by apply consistent_installed].
      unfold wf, installed in *. simpl. by rewrite length_insert.
    + rewrite (install_refused sig w i x) by done. simpl.
      by apply consistent_install_failed.
  - rewrite install_no_free_slot; [done|done|].
    intros y Hy Hs. apply Hfull, Exists_exists. by exists y.
Qed.

(** X10.  Whenever [uninstall] returns, for whatever pointer and with or
    without the lock, it leaves the table with its [NUM_SIGNALS] slots and
    with [default_handler] installed for the signal of every live
    registration. *)
Theorem uninstall_keeps_invariant (mr info : Z) (w : world) (r : Z) (w' : world) :
  wf w → consistent w →
  Mono_Unix_UnixSignal_uninstall P mr info w = Done r w' →
  wf w' ∧ consistent w'.
Proof.
  intros Hwf Hcons Hrun.
  destruct (decide (mr = 0)) as [->|Hmr].
  2:{ unfold Mono_Unix_UnixSignal_uninstall in Hrun.
      rewrite decide_True in Hrun by done. by inversion Hrun; subst. }
  destruct (decide (info = NULL ∨ info < signals_base P ∨ info > addr_of P NUM_SIGNALS))
    as [Hout|Hin].
  { rewrite uninstall_rejected in Hrun by done. by inversion Hrun; subst. }
  destruct (slot_of P info) as [i|] eqn:Hslot.
  - apply slot_of_Some in Hslot as [Hi ->].
    destruct (lookup_lt_is_Some_2 (signals w) i) as [x Hx]; [by rewrite Hwf|].
    by apply (consistent_uninstall P w i x r w').
  - unfold Mono_Unix_UnixSignal_uninstall in Hrun.
    rewrite decide_False, decide_False, Hslot in Hrun by (done || lia). done.
Qed.

(** ** What a wait keeps *)

Lemma keeps_ret {A : Type} (I : world → Prop) (a : A) : keeps I (ret a).
Proof. by intros w Hw. Qed.

Lemma keeps_bind {A B : Type} (I : world → Prop) (m : M A) (k : A → M B) :
  keeps I m → (∀ a, keeps I (k a)) → keeps I (m ≫= k).
Proof.
  intros Hm Hk w Hw. unfold mbind, M_bind, bind. specialize (Hm w Hw).
  destruct (m w) as [a w1| |w1]; [|done|done]. apply (Hk a w1 Hm).
Qed.

Lemma keeps_act (I : world → Prop) (f : world → world) :
  (∀ w, I w → I (f w)) → keeps I (act f).
Proof. intros Hf w Hw. by apply Hf. Qed.

Lemma keeps_read {A : Type} (I : world → Prop) (f : world → A) : keeps I (read_world f).
Proof. by intros w Hw. Qed.

Lemma keeps_deref (I : world → Prop) (_signals : list Z) (i : nat) :
  keeps I (deref P _signals i).
Proof.
  intros w Hw. unfold deref. destruct (_signals !! i) as [p|]; [|done].
  by destruct (slot_of P p).
Qed.

Lemma keeps_for_loopM {S : Type} (I : world → Prop) (body : nat → S → M (bool * S))
    (n i : nat) (s : S) :
  (∀ j t, keeps I (body j t)) → keeps I (for_loopM body i n s).
Proof.
  intros Hbody. revert i s. induction n as [|n IH]; intros i s; simpl.
  - apply keeps_ret.
  - apply keeps_bind; [apply Hbody|]. intros [[] s'].
    + apply keeps_ret.
    + apply IH.
Qed.

Lemma keeps_select_loop (I : world → Prop) (script : list select_result)
    (max_fd : Z) (fds : gset Z) (timeout : Z) :
  (∀ e w, call_of e = CSelect → I w → I (log e w)) →
  (∀ e w, I w → I (set_errno e w)) →
  keeps I (select_loop script max_fd fds timeout).
Proof.
  intros Hlog Herr. revert fds.
  induction script as [|res script IH]; intros fds; simpl.
  - by intros w Hw.
  - apply keeps_bind.
    + unfold sys_select. apply keeps_bind.
      { apply keeps_act. intros w. by apply Hlog. }
      intros _. destruct res.
      * apply keeps_ret.
      * apply keeps_bind; [apply keeps_act, Herr|]. intros _. apply keeps_ret.
    + intros [r fds']. apply keeps_bind; [apply keeps_read|]. intros err.
      destruct (decide _); [apply IH|apply keeps_ret].
Qed.

(** The three parts of a wait keep a property that their writes keep. *)
Lemma keeps_sys_read (I : world → Prop) (returns : bool) (fd : Z) :
  (∀ w, I w → I (log (EvRead fd 1) w)) → keeps I (sys_read returns fd).
Proof.
  intros Hlog. unfold sys_read. destruct returns; [by apply keeps_act|].
  by intros w HI.
Qed.

Lemma keeps_setup_pipes (I : world → Prop) (env : wait_env) (_signals : list Z)
    (count : Z) (fds : gset Z) (max_fd : Z) :
  (∀ e w, call_of e = CPipe → I w → I (log e w)) →
  (∀ e w, I w → I (set_errno e w)) →
  (∀ h v w, I w → I (store h (set_read_fd v) w)) →
  (∀ h v w, I w → I (store h (set_write_fd v) w)) →
  keeps I (setup_pipes P env _signals count fds max_fd).
Proof.
  intros Hlog Herr Hrd Hwr. unfold setup_pipes.
  apply keeps_for_loopM. intros j [[r fds'] max_fd']. unfold setup_pipes_body.
  apply keeps_bind; [apply keeps_act; intros v; by apply Hlog|]. intros _.
  destruct (env_pipe env j).
  - apply keeps_bind; [apply keeps_deref|]. intros h.
    apply keeps_bind; [apply keeps_act, Hrd|]. intros _.
    apply keeps_bind; [apply keeps_act, Hwr|]. intros _.
    apply keeps_bind; [apply keeps_read|]. intros fd. apply keeps_ret.
  - apply keeps_bind; [apply keeps_act, Herr|]. intros _. apply keeps_ret.
Qed.

Lemma keeps_wait_for_any (I : world → Prop) (env : wait_env) (_signals : list Z)
    (count max_fd : Z) (fds : gset Z) (timeout : Z) :
  (∀ e w, call_of e = CSelect ∨ call_of e = CRead → I w → I (log e w)) →
  (∀ e w, I w → I (set_errno e w)) →
  keeps I (wait_for_any P env _signals count max_fd fds timeout).
Proof.
  intros Hlog Herr. unfold wait_for_any. apply keeps_bind.
  { apply keeps_select_loop; [intros ev v Hev; apply Hlog; by left|apply Herr]. }
  intros [r' fds']. destruct (decide (r' = 0)); [apply keeps_ret|].
  destruct (decide (r' > 0)); [|apply keeps_ret].
  apply keeps_for_loopM. intros j idx. unfold scan_body.
  apply keeps_bind; [apply keeps_deref|]. intros h.
  apply keeps_bind; [apply keeps_read|]. intros fd.
  destruct (decide _); [|apply keeps_ret].
  apply keeps_bind; [apply keeps_sys_read; intros v; apply Hlog; by right|].
  intros _. apply keeps_ret.
Qed.

Lemma keeps_teardown_pipes (I : world → Prop) (_signals : list Z) (count : Z) :
  (∀ e w, call_of e = CClose → I w → I (log e w)) →
  (∀ h v w, I w → I (store h (set_read_fd v) w)) →
  (∀ h v w, I w → I (store h (set_write_fd v) w)) →
  keeps I (teardown_pipes P _signals count).
Proof.
  intros Hlog Hrd Hwr. unfold teardown_pipes.
  apply keeps_for_loopM. intros j []. unfold teardown_pipes_body.
  apply keeps_bind; [apply keeps_deref|]. intros h.
  apply keeps_bind; [apply keeps_read|]. intros rfd.
  apply keeps_bind.
  { destruct (decide _); [apply keeps_act; intros v; by apply Hlog|apply keeps_ret]. }
  intros _. apply keeps_bind; [apply keeps_read|]. intros wfd.
  apply keeps_bind.
  { destruct (decide _); [apply keeps_act; intros v; by apply Hlog|apply keeps_ret]. }
  intros _. apply keeps_bind; [apply keeps_act, Hrd|]. intros _.
  apply keeps_bind; [apply keeps_act, Hwr|]. intros _. apply keeps_ret.
Qed.

Lemma keeps_wait_locked (I : world → Prop) (env : wait_env) (_signals : list Z)
    (count timeout : Z) :
  (∀ e w, I w → I (log e w)) →
  (∀ e w, I w → I (set_errno e w)) →
  (∀ h v w, I w → I (store h (set_read_fd v) w)) →
  (∀ h v w, I w → I (store h (set_write_fd v) w)) →
  keeps I (wait_locked P env _signals count timeout).
Proof.
  intros Hlog Herr Hrd Hwr. unfold wait_locked. apply keeps_bind.
  - apply keeps_setup_pipes; try done. intros ev v _. apply Hlog.
  - intros [[r fds] max_fd]. apply keeps_bind.
    + destruct (decide (r = 0)); [|apply keeps_ret].
      apply keeps_wait_for_any; [|done]. intros ev v _. apply Hlog.
    + intros r'. apply keeps_bind; [|intros _; apply keeps_ret].
      apply keeps_teardown_pipes; try done. intros ev v _. apply Hlog.
Qed.

Lemma same_registration_store (h k : nat) (f : signal_info → signal_info) (w : world) :
  (∀ x, same_registration (f x) x) →
  same_registration (slot k (store h f w)) (slot k w).
Proof.
  intros Hf. destruct (decide (h = k)) as [->|Hne].
  - destruct (decide (k < length (signals w))%nat) as [Hlt|Hge].
    + rewrite slot_store_eq by done. apply Hf.
    + unfold slot, store; simpl. by rewrite list_insert_ge by lia.
  - by rewrite slot_store_ne.
Qed.

Lemma registrations_of_store (w0 w : world) (h : nat) (f : signal_info → signal_info) :
  (∀ x, same_registration (f x) x) →
  registrations_of w0 w → registrations_of w0 (store h f w).
Proof.
  intros Hf (Hlen & Hd & Hs). split_and!.
  - unfold store; simpl. by rewrite length_insert.
  - done.
  - intros k. pose proof (same_registration_store h k f w Hf) as (H1 & H2 & H3 & H4).
    destruct (Hs k) as (G1 & G2 & G3 & G4).
    split_and!; congruence.
Qed.

(** X11.  [WaitAny] changes nothing of a registration: when it returns, and
    when it blocks, the table has the slots it had, every slot has the
    [signum], [count], [have_handler] and [handler] it had, and the
    dispositions are the same.  It writes the two descriptor fields only,
    and never resets a count. *)
Theorem WaitAny_keeps_registrations (mr : Z) (env : wait_env) (_signals : list Z)
    (count timeout : Z) (w : world) :
  match Mono_Unix_UnixSignal_WaitAny P mr env _signals count timeout w with
  | Done _ w' | Blocked w' => registrations_of w w'
  | Undefined => True
  end.
Proof.
  assert (registrations_of w w) as Hrefl by (by split_and!).
  destruct (decide (mr = 0)) as [->|Hmr].
  - rewrite WaitAny_unfold.
    pose proof (keeps_wait_locked (registrations_of w) env _signals count timeout) as Hk.
    specialize (Hk ltac:(by intros) ltac:(by intros)).
    specialize (Hk (λ h v v' H,
      registrations_of_store w v' h (set_read_fd v) ltac:(by intros) H)).
    specialize (Hk (λ h v v' H,
      registrations_of_store w v' h (set_write_fd v) ltac:(by intros) H)).
    specialize (Hk (log (EvLock 0) w) Hrefl).
    by destruct (wait_locked P env _signals count timeout (log (EvLock 0) w)).
  - unfold Mono_Unix_UnixSignal_WaitAny, mbind, M_bind, bind, act, ret.
    by rewrite decide_True.
Qed.

(** ** The pipes of a wait *)

Lemma returns_det {A : Type} (m : M A) (w : world) (Q : A → world → Prop)
    (a : A) (w' : world) :
  returns m w Q → m w = Done a w' → Q a w'.
Proof. intros (a0 & w0 & Hm & HQ) Hd. rewrite Hm in Hd. by inversion Hd; subst. Qed.

Lemma returns_keeps {A : Type} (I : world → Prop) (m : M A) (w : world)
    (Q : A → world → Prop) :
  keeps I m → I w → returns m w Q → returns m w (λ a w', Q a w' ∧ I w').
Proof.
  intros Hk HI (a & w' & Hm & HQ). exists a, w'. split; [done|]. split; [done|].
  specialize (Hk w HI). by rewrite Hm in Hk.
Qed.

(** A loop that breaks in round [k]. *)
Lemma returns_for_loopM_break {S : Type} (body : nat → S → M (bool * S))
    (Inv : nat → S → world → Prop) (Post : S → world → Prop) (n i k : nat)
    (s : S) (w : world) :
  (i ≤ k < i + n)%nat → Inv i s w →
  (∀ j t v, (i ≤ j < k)%nat → Inv j t v →
     returns (body j t) v (λ bs v', bs.1 = false ∧ Inv (Datatypes.S j) bs.2 v')) →
  (∀ t v, Inv k t v → returns (body k t) v (λ bs v', bs.1 = true ∧ Post bs.2 v')) →
  returns (for_loopM body i n s) w Post.
Proof.
  revert i s w. induction n as [|n IH]; intros i s w Hk Hinv Hbody Hbreak; [lia|].
  simpl. apply returns_bind. destruct (decide (i = k)) as [->|Hne].
  - eapply returns_wand; [by apply Hbreak|].
    intros [b s'] w' [Hb HP]. simpl in *. subst b. by apply returns_ret.
  - eapply returns_wand; [apply (Hbody i s w); [lia|done]|].
    intros [b s'] w' [Hb Hinv']. simpl in *. subst b.
    apply IH; [lia|done| |done]. intros j t v Hj. apply Hbody. lia.
Qed.

Lemma slot_log (k : nat) (e : event) (w : world) : slot k (log e w) = slot k w.
Proof. done. Qed.

Lemma slot_insert (k h : nat) (x : signal_info) (w w' : world) :
  wf w → (h < NUM_SIGNALS)%nat → signals w' = <[h := x]> (signals w) →
  slot k w' = if decide (k = h) then x else slot k w.
Proof.
  intros Hwf Hh Hs. unfold slot. rewrite Hs. destruct (decide (k = h)) as [->|Hne].
  - apply list_lookup_total_insert_eq. unfold wf in Hwf. lia.
  - by apply list_lookup_total_insert_ne.
Qed.

Lemma highest_snoc (fds : list Z) (fd : Z) :
  highest (fds ++ [fd]) = Z.max (highest fds) fd.
Proof. unfold highest. by rewrite foldl_app. Qed.

Lemma highest_ge (fds : list Z) (fd : Z) : fd ∈ fds → fd ≤ highest fds.
Proof.
  induction fds as [|x fds IH] using rev_ind; [by intros ?%elem_of_nil|].
  rewrite highest_snoc. intros [Hin| ->%list_elem_of_singleton]%elem_of_app; [|lia].
  specialize (IH Hin). lia.
Qed.

Lemma valid_lookup (ks : list nat) (j k : nat) :
  Forall (λ k, (k < NUM_SIGNALS)%nat) ks → ks !! j = Some k → (k < NUM_SIGNALS)%nat.
Proof. intros Hks Hk. exact (Forall_lookup_1 _ ks j k Hks Hk). Qed.

(** One round of [setup_pipes] whose [pipe] succeeds, and one whose [pipe]
    fails. *)
Lemma setup_pipes_body_ok (env : wait_env) (ks : list nat) (j k : nat) (rfd wfd : Z)
    (s : Z * gset Z * Z) (v : world) :
  ks !! j = Some k → (k < NUM_SIGNALS)%nat → wf v →
  env_pipe env j = PipeOk rfd wfd →
  returns (setup_pipes_body P env (addr_of P <$> ks) j s) v
    (λ bs v', bs = (false, (0, {[rfd]} ∪ s.1.2, Z.max s.2 rfd)) ∧
              signals v' = <[k := arm rfd wfd (slot k v)]> (signals v) ∧
              dispositions v' = dispositions v ∧ errno v' = errno v ∧
              trace v' = trace v ++ [EvPipe (PipeOk rfd wfd)]).
Proof.
  intros Hk Hlt Hwf Hpipe. destruct s as [[r fds] max_fd].
  unfold setup_pipes_body. rewrite Hpipe.
  apply returns_bind, returns_act.
  apply returns_bind, (returns_deref P ks j k); [done|done|].
  apply returns_bind, returns_act.
  apply returns_bind, returns_act.
  apply returns_bind, returns_read.
  apply returns_ret.
  set (w1 := log (EvPipe (PipeOk rfd wfd)) v).
  assert (k < length (signals w1))%nat as Hk1 by (unfold wf in Hwf; simpl; lia).
  assert (slot k (store k (set_read_fd rfd) w1) = set_read_fd rfd (slot k v)) as Hs1
    by (by rewrite slot_store_eq).
  assert (read_fd (slot k (store k (set_write_fd wfd) (store k (set_read_fd rfd) w1)))
          = rfd) as Hfd.
  { rewrite slot_store_eq; [by rewrite Hs1|]. unfold store; simpl.
    by rewrite length_insert. }
  rewrite Hfd. cbn [fst snd]. split_and!; try done.
  - do 3 f_equal. destruct (decide (rfd > max_fd)); lia.
  - unfold store at 1. rewrite Hs1. unfold store, set_signals; simpl.
    by rewrite list_insert_insert_eq.
Qed.

Lemma setup_pipes_body_err (env : wait_env) (sigs : list Z) (j : nat) (e : Z)
    (s : Z * gset Z * Z) (v : world) :
  env_pipe env j = PipeErr e →
  setup_pipes_body P env sigs j s v =
    Done (true, (-1, s.1.2, s.2)) (set_errno e (log (EvPipe (PipeErr e)) v)).
Proof. intros Hpipe. destruct s as [[r fds] max_fd]. unfold setup_pipes_body. by rewrite Hpipe. Qed.

Lemma pipes_of_S (env : wait_env) (j : nat) :
  pipes_of env (Datatypes.S j) = pipes_of env j ++ [EvPipe (env_pipe env j)].
Proof. unfold pipes_of. by rewrite seq_S, fmap_app. Qed.

Lemma not_elem_of_take_S (ks : list nat) (j k k' : nat) :
  ks !! j = Some k → k' ∉ take (Datatypes.S j) ks ↔ k' ≠ k ∧ k' ∉ take j ks.
Proof.
  intros Hk. rewrite (take_S_r _ _ _ Hk), elem_of_app, list_elem_of_singleton. tauto.
Qed.

Lemma NoDup_not_elem_of_take (ks : list nat) (j k : nat) :
  NoDup ks → ks !! j = Some k → k ∉ take j ks.
Proof.
  intros Hnd Hk (i & Hi & Hlt)%elem_of_take.
  pose proof (NoDup_lookup ks i j k Hnd Hi Hk). lia.
Qed.

Lemma piped_start (env : wait_env) (ks : list nat) (w : world) :
  wf w → piped env ks w 0 (env_r0 env, ∅, 0) w.
Proof.
  intros Hwf. unfold piped, pipes_of; simpl. split_and!; try done.
  - by rewrite app_nil_r.
  - intros; lia.
Qed.

Lemma piped_step (env : wait_env) (ks : list nat) (w0 : world) (j k : nat)
    (rfd wfd : Z) (s : Z * gset Z * Z) (v : world) :
  Forall (λ k, (k < NUM_SIGNALS)%nat) ks → ks !! j = Some k →
  env_pipe env j = PipeOk rfd wfd →
  piped env ks w0 j s v →
  returns (setup_pipes_body P env (addr_of P <$> ks) j s) v
    (λ bs v', bs.1 = false ∧ piped env ks w0 (Datatypes.S j) bs.2 v').
Proof.
  intros Hks Hk Hpipe (Hwf & Hd & He & Hs & Htr & Hout & Hin).
  pose proof (valid_lookup ks j k Hks Hk) as Hlt.
  assert (pipe_rfd env j = rfd) as Hrfd by (unfold pipe_rfd; by rewrite Hpipe).
  assert (pipe_wfd env j = wfd) as Hwfd by (unfold pipe_wfd; by rewrite Hpipe).
  eapply returns_wand; [by apply (setup_pipes_body_ok env ks j k rfd wfd)|].
  intros bs v' (-> & Hsig & Hd' & He' & Htr'). cbn [fst snd]. split; [done|].
  unfold piped. split_and!.
  - unfold wf in *. by rewrite Hsig, length_insert.
  - by rewrite Hd'.
  - by rewrite He'.
  - subst s. cbn [fst snd].
    rewrite seq_S, fmap_app.
    change (pipe_rfd env <$> [(0 + j)%nat]) with [pipe_rfd env j].
    rewrite list_to_set_app_L, list_to_set_singleton_L, highest_snoc, Hrfd.
    f_equal. f_equal. apply (comm_L (∪)).
  - by rewrite Htr', Htr, pipes_of_S, Hpipe, <- app_assoc.
  - intros k' [Hne Hk']%(not_elem_of_take_S ks j k); [|done].
    rewrite (slot_insert k' k _ v v' Hwf Hlt Hsig), decide_False by done.
    by apply Hout.
  - intros Hnd i k' Hi Hk'.
    rewrite (slot_insert k' k _ v v' Hwf Hlt Hsig).
    destruct (decide (i = j)) as [->|Hij].
    + rewrite Hk in Hk'. inversion Hk'; subst k'. rewrite decide_True by done.
      rewrite Hrfd, Hwfd, Hout; [done|]. by apply NoDup_not_elem_of_take.
    + rewrite decide_False.
      * apply (Hin Hnd); [lia|done].
      * intros ->. apply Hij. by apply (NoDup_lookup ks i j k).
Qed.

Lemma setup_pipes_run (env : wait_env) (ks : list nat) (w : world) :
  wf w → Forall (λ k, (k < NUM_SIGNALS)%nat) ks → pipes_ok env (length ks) →
  returns (setup_pipes P env (addr_of P <$> ks) (Z.of_nat (length ks)) ∅ 0) w
    (λ s w',
       wf w' ∧
       s = (if ks is [] then env_r0 env else 0,
            list_to_set (pipe_rfd env <$> seq 0 (length ks)),
            highest (pipe_rfd env <$> seq 0 (length ks))) ∧
       trace w' = trace w ++ pipes_of env (length ks) ∧
       errno w' = errno w ∧ dispositions w' = dispositions w ∧
       (∀ k, k ∉ ks → slot k w' = slot k w) ∧
       (NoDup ks → ∀ i k, ks !! i = Some k →
          slot k w' = arm (pipe_rfd env i) (pipe_wfd env i) (slot k w))).
Proof.
  intros Hwf Hks Hpipes. unfold setup_pipes. rewrite Nat2Z.id.
  eapply returns_wand.
  - apply (returns_for_loopM _ (piped env ks w) (length ks) 0).
    + by apply piped_start.
    + intros j t v Hj Hinv.
      destruct (lookup_lt_is_Some_2 ks j) as [k Hk]; [lia|].
      destruct (Hpipes j) as (rfd & wfd & Hpipe); [lia|].
      by apply (piped_step env ks w j k rfd wfd).
  - intros s w' (Hwf' & Hd & He & Hs & Htr & Hout & Hin). simpl in Hs.
    rewrite take_ge in Hout by lia. split_and!; try done.
    + rewrite Hs. by destruct ks.
    + intros Hnd i k Hk. apply (Hin Hnd); [|done]. by apply lookup_lt_Some in Hk.
Qed.

Lemma setup_pipes_break (env : wait_env) (ks : list nat) (k : nat)
    (e : Z) (w : world) :
  wf w → Forall (λ k, (k < NUM_SIGNALS)%nat) ks → (k < length ks)%nat →
  pipes_ok env k → env_pipe env k = PipeErr e →
  returns (setup_pipes P env (addr_of P <$> ks) (Z.of_nat (length ks)) ∅ 0) w
    (λ s w',
       wf w' ∧
       s = (-1, list_to_set (pipe_rfd env <$> seq 0 k),
            highest (pipe_rfd env <$> seq 0 k)) ∧
       trace w' = trace w ++ pipes_of env (Datatypes.S k) ∧
       errno w' = e ∧ dispositions w' = dispositions w ∧
       (∀ h, h ∉ take k ks → slot h w' = slot h w) ∧
       (NoDup ks → ∀ i h, (i < k)%nat → ks !! i = Some h →
          slot h w' = arm (pipe_rfd env i) (pipe_wfd env i) (slot h w))).
Proof.
  intros Hwf Hks Hk Hpipes Herr. unfold setup_pipes. rewrite Nat2Z.id.
  apply (returns_for_loopM_break _ (piped env ks w) _ (length ks) 0 k).
  - lia.
  - by apply piped_start.
  - intros j t v Hj Hinv.
    destruct (lookup_lt_is_Some_2 ks j) as [h Hh]; [lia|].
    destruct (Hpipes j) as (rfd & wfd & Hpipe); [lia|].
    by apply (piped_step env ks w j h rfd wfd).
  - intros t v (Hwf' & Hd & He & Hs & Htr & Hout & Hin).
    eexists _, _. split; [by apply setup_pipes_body_err|].
    cbn [fst snd]. split; [done|]. subst t. cbn [fst snd].
    split_and!; try done.
    simpl. by rewrite Htr, pipes_of_S, Herr, <- app_assoc.
Qed.

(** X12.  [setup_pipes] over valid handles, every [pipe] succeeding: it
    returns [0] (for no handle at all, the uninitialized [r]), the set of the
    read ends and the highest of them ([0] if none is positive); it issues the
    calls of [pipe] and no other call; it leaves the dispositions and the
    slots it was not handed alone; and, the handles being distinct, it
    stores in the slot of the [i]-th handle the two ends of the [i]-th
    pipe. *)
Theorem setup_pipes_arms (env : wait_env) (ks : list nat) (w : world) :
  wf w → Forall (λ k, (k < NUM_SIGNALS)%nat) ks → pipes_ok env (length ks) →
  returns (setup_pipes P env (addr_of P <$> ks) (Z.of_nat (length ks)) ∅ 0) w
    (λ s w',
       s = (if ks is [] then env_r0 env else 0,
            list_to_set (pipe_rfd env <$> seq 0 (length ks)),
            highest (pipe_rfd env <$> seq 0 (length ks))) ∧
       trace w' = trace w ++ pipes_of env (length ks) ∧
       dispositions w' = dispositions w ∧
       (∀ k, k ∉ ks → slot k w' = slot k w) ∧
       (NoDup ks → ∀ i k, ks !! i = Some k →
          slot k w' = arm (pipe_rfd env i) (pipe_wfd env i) (slot k w))).
Proof.
  intros Hwf Hks Hpipes.
  eapply returns_wand; [by apply setup_pipes_run|].
  intros s w' (_ & Hs & Htr & _ & Hd & Hout & Hin). done.
Qed.

(** X13.  [setup_pipes] when the call of [pipe] for handle number [k] fails,
    the earlier ones succeeding: it stops at once and returns [-1] with the
    [errno] that [pipe] set, having called [pipe] [k + 1] times; the slots of
    the handles from [k] on are as they were, and those before [k], the
    handles being distinct, hold the ends of their pipes. *)
Theorem setup_pipes_stops_at_failure (env : wait_env) (ks : list nat) (k : nat)
    (e : Z) (w : world) :
  wf w → Forall (λ k, (k < NUM_SIGNALS)%nat) ks → (k < length ks)%nat →
  pipes_ok env k → env_pipe env k = PipeErr e →
  returns (setup_pipes P env (addr_of P <$> ks) (Z.of_nat (length ks)) ∅ 0) w
    (λ s w',
       s = (-1, list_to_set (pipe_rfd env <$> seq 0 k),
            highest (pipe_rfd env <$> seq 0 k)) ∧
       trace w' = trace w ++ pipes_of env (Datatypes.S k) ∧
       errno w' = e ∧ dispositions w' = dispositions w ∧
       (∀ h, h ∉ take k ks → slot h w' = slot h w) ∧
       (NoDup ks → ∀ i h, (i < k)%nat → ks !! i = Some h →
          slot h w' = arm (pipe_rfd env i) (pipe_wfd env i) (slot h w))).
Proof.
  intros Hwf Hks Hk Hpipes Herr.
  eapply returns_wand; [by apply (setup_pipes_break env ks k e)|]. intros s w' [_ H]. exact H.
Qed.

(** One round of [teardown_pipes]. *)
Lemma teardown_pipes_body_spec (ks : list nat) (j k : nat) (v : world) :
  ks !! j = Some k → (k < NUM_SIGNALS)%nat → wf v →
  returns (teardown_pipes_body P (addr_of P <$> ks) j ()) v
    (λ bs v', bs.1 = false ∧
              signals v' = <[k := disarm (slot k v)]> (signals v) ∧
              dispositions v' = dispositions v ∧ errno v' = errno v ∧
              trace v' = trace v ++ closes (slot k v)).
Proof.
  intros Hk Hlt Hwf. unfold teardown_pipes_body.
  assert (∀ v1, signals v1 = signals v →
            signals (store k (set_write_fd 0) (store k (set_read_fd 0) v1))
            = <[k := disarm (slot k v)]> (signals v)) as Hsig.
  { intros v1 H1.
    assert (slot k (store k (set_read_fd 0) v1) = set_read_fd 0 (slot k v)) as Hs1.
    { rewrite slot_store_eq by (unfold wf in Hwf; rewrite H1; lia).
      unfold slot. by rewrite H1. }
    unfold store at 1. rewrite Hs1. unfold store, set_signals; simpl.
    by rewrite list_insert_insert_eq, H1. }
  apply returns_bind, (returns_deref P ks j k); [done|done|].
  apply returns_bind, returns_read.
  unfold closes. rewrite filter_cons, filter_cons, filter_nil.
  destruct (decide (read_fd (slot k v) ≠ 0)) as [Hr|Hr].
  - apply returns_bind, returns_act.
    apply returns_bind, returns_read. rewrite slot_log.
    destruct (decide (write_fd (slot k v) ≠ 0)) as [Hw|Hw].
    + apply returns_bind, returns_act.
      apply returns_bind, returns_act.
      apply returns_bind, returns_act.
      apply returns_ret. cbn [fst snd]. split_and!; try done.
      * by apply Hsig.
      * simpl. by rewrite <- app_assoc.
    + apply returns_bind, returns_ret.
      apply returns_bind, returns_act.
      apply returns_bind, returns_act.
      apply returns_ret. cbn [fst snd]. split_and!; try done.
      by apply Hsig.
  - apply returns_bind, returns_ret.
    apply returns_bind, returns_read.
    destruct (decide (write_fd (slot k v) ≠ 0)) as [Hw|Hw].
    + apply returns_bind, returns_act.
      apply returns_bind, returns_act.
      apply returns_bind, returns_act.
      apply returns_ret. cbn [fst snd]. split_and!; try done.
      by apply Hsig.
    + apply returns_bind, returns_ret.
      apply returns_bind, returns_act.
      apply returns_bind, returns_act.
      apply returns_ret. cbn [fst snd]. split_and!; try done.
      * by apply Hsig.
      * simpl. by rewrite app_nil_r.
Qed.

Lemma disarm_disarm (x : signal_info) : disarm (disarm x) = disarm x.
Proof. done. Qed.

Lemma closes_disarm (x : signal_info) : closes (disarm x) = [].
Proof. done. Qed.

Lemma closes_are_closes (x : signal_info) : Forall (λ e, call_of e = CClose) (closes x).
Proof. unfold closes. apply Forall_fmap, Forall_forall. by intros fd _. Qed.

Lemma disarmed_step (ks : list nat) (w0 : world) (j k : nat) (v : world) :
  Forall (λ k, (k < NUM_SIGNALS)%nat) ks → ks !! j = Some k →
  disarmed ks w0 j v →
  returns (teardown_pipes_body P (addr_of P <$> ks) j ()) v
    (λ bs v', bs.1 = false ∧ disarmed ks w0 (Datatypes.S j) v').
Proof.
  intros Hks Hk (Hwf & Hd & He & Hslot & (evs & Htr & Hevs) & Hnd).
  pose proof (valid_lookup ks j k Hks Hk) as Hlt.
  eapply returns_wand; [by apply (teardown_pipes_body_spec ks j k)|].
  intros bs v' (Hb & Hsig & Hd' & He' & Htr'). split; [done|].
  unfold disarmed. split_and!.
  - unfold wf in *. by rewrite Hsig, length_insert.
  - by rewrite Hd'.
  - by rewrite He'.
  - intros k'. rewrite (slot_insert k' k _ v v' Hwf Hlt Hsig), (take_S_r _ _ _ Hk).
    destruct (decide (k' = k)) as [->|Hne].
    + rewrite decide_True by (apply elem_of_app; right; by apply list_elem_of_singleton).
      rewrite Hslot. by destruct (decide (k ∈ take j ks)).
    + rewrite Hslot. destruct (decide (k' ∈ take j ks)) as [Hin|Hout].
      * by rewrite decide_True by (apply elem_of_app; by left).
      * rewrite decide_False; [done|].
        intros [?| ?%list_elem_of_singleton]%elem_of_app; done.
  - exists (evs ++ closes (slot k v)). split.
    + by rewrite Htr', Htr, <- app_assoc.
    + apply Forall_app. split; [done|apply closes_are_closes].
  - intros Hnodup. rewrite Htr', (Hnd Hnodup), (take_S_r _ _ _ Hk), flat_map_app.
    rewrite <- app_assoc. simpl. rewrite app_nil_r. do 2 f_equal.
    rewrite Hslot, decide_False; [done|]. by apply NoDup_not_elem_of_take.
Qed.

Lemma teardown_pipes_run (ks : list nat) (w : world) :
  wf w → Forall (λ k, (k < NUM_SIGNALS)%nat) ks →
  returns (teardown_pipes P (addr_of P <$> ks) (Z.of_nat (length ks))) w
    (λ _ w', disarmed ks w (length ks) w').
Proof.
  intros Hwf Hks. unfold teardown_pipes. rewrite Nat2Z.id.
  eapply returns_wand.
  - apply (returns_for_loopM _ (λ j _ v, disarmed ks w j v) (length ks) 0).
    + unfold disarmed. simpl. split_and!; try done.
      * exists []. by rewrite app_nil_r.
      * intros _. by rewrite app_nil_r.
    + intros j [] v Hj Hinv.
      destruct (lookup_lt_is_Some_2 ks j) as [k Hk]; [lia|].
      by apply (disarmed_step ks w j k).
  - intros [] w' H. exact H.
Qed.

(** X14.  [teardown_pipes] over valid handles returns; it zeroes [read_fd]
    and [write_fd] in the slot of every handle and changes nothing else in
    the table, nor a disposition; it issues calls of [close]
    only, and, the handles being distinct, these are, handle by handle, a
    [close] of the slot's [read_fd] unless that is [0], then one of its
    [write_fd] unless that is [0]. *)
Theorem teardown_pipes_disarms (ks : list nat) (w : world) :
  wf w → Forall (λ k, (k < NUM_SIGNALS)%nat) ks →
  returns (teardown_pipes P (addr_of P <$> ks) (Z.of_nat (length ks))) w
    (λ _ w',
       (∀ k, slot k w' = if decide (k ∈ ks) then disarm (slot k w) else slot k w) ∧
       dispositions w' = dispositions w ∧
       (∃ evs, trace w' = trace w ++ evs ∧ Forall (λ e, call_of e = CClose) evs) ∧
       (NoDup ks → trace w' = trace w ++ flat_map (λ k, closes (slot k w)) ks)).
Proof.
  intros Hwf Hks.
  eapply returns_wand; [by apply teardown_pipes_run|].
  intros _ w' (_ & Hd & He & Hslot & Hevs & Hnd).
  rewrite take_ge in Hslot, Hnd by lia. done.
Qed.

(** ** The wait itself *)

Lemma selects_S (nfds : Z) (fds : gset Z) (timeout : Z) (k : nat) (res : select_result) :
  selects nfds fds timeout (Datatypes.S k) res =
    EvSelect nfds fds (timeval_of timeout) (SelErr EINTR) :: selects nfds fds timeout k res.
Proof. done. Qed.

(** The loop around [select]: interrupted [k] times, then an end [res] that
    is not an interruption. *)
Lemma select_loop_retries (k : nat) (res : select_result) (rest : list select_result)
    (max_fd : Z) (fds : gset Z) (timeout : Z) (w : world) :
  res ≠ SelErr EINTR →
  returns (select_loop (replicate k (SelErr EINTR) ++ res :: rest) max_fd fds timeout) w
    (λ rf w',
       signals w' = signals w ∧ dispositions w' = dispositions w ∧
       trace w' = trace w ++ selects (max_fd + 1) fds timeout k res ∧
       match res with
       | SelReturns ready =>
           rf.2 = filter (λ fd, fd < max_fd + 1 ∧ fd ∈ ready) fds ∧
           rf.1 = Z.of_nat (size rf.2)
       | SelErr e => rf = (-1, fds) ∧ errno w' = e
       end).
Proof.
  intros Hres. revert w. induction k as [|k IH]; intros w.
  - cbn [replicate app select_loop]. apply returns_bind. unfold sys_select.
    apply returns_bind, returns_act. destruct res as [ready|e].
    + apply returns_ret.
      apply returns_bind, returns_read. cbv beta iota.
      rewrite decide_False by lia.
      by apply returns_ret.
    + apply returns_bind, returns_act, returns_ret.
      apply returns_bind, returns_read. cbv beta iota.
      rewrite decide_False by (intros [_ He]; simpl in He; subst e; by apply Hres).
      by apply returns_ret.
  - cbn [replicate app select_loop]. apply returns_bind. unfold sys_select.
    apply returns_bind, returns_act.
    apply returns_bind, returns_act, returns_ret.
    apply returns_bind, returns_read. cbv beta iota.
    rewrite decide_True by done.
    eapply returns_wand; [apply IH|].
    intros rf w' (H1 & H2 & H3 & H4). split_and!; try done.
    rewrite H3, selects_S. cbn [trace log set_errno]. by rewrite <- app_assoc.
Qed.

Lemma keeps_scan (I : world → Prop) (env : wait_env) (_signals : list Z)
    (fds : gset Z) (i n : nat) (idx : Z) :
  (∀ e w, call_of e = CRead → I w → I (log e w)) →
  keeps I (for_loopM (scan_body P env _signals fds) i n idx).
Proof.
  intros Hlog. apply keeps_for_loopM. intros j idx'. unfold scan_body.
  apply keeps_bind; [apply keeps_deref|]. intros h.
  apply keeps_bind; [apply keeps_read|]. intros fd.
  destruct (decide _); [|apply keeps_ret].
  apply keeps_bind; [apply keeps_sys_read; intros v; by apply Hlog|].
  intros _. apply keeps_ret.
Qed.

(** Calls that return or block. *)
Lemma settles_returns {A : Type} (m : M A) (w : world) (Q : A → world → Prop)
    (B : world → Prop) :
  returns m w Q → settles m w Q B.
Proof. intros (a & w' & Hm & HQ). unfold settles. by rewrite Hm. Qed.

Lemma settles_bind {A C : Type} (m : M A) (k : A → M C) (w : world)
    (Q : C → world → Prop) (B : world → Prop) :
  settles m w (λ a w', settles (k a) w' Q B) B → settles (m ≫= k) w Q B.
Proof. unfold settles, mbind, M_bind, bind. by destruct (m w). Qed.

Lemma settles_wand {A : Type} (m : M A) (w : world) (Q Q' : A → world → Prop)
    (B B' : world → Prop) :
  settles m w Q B → (∀ a w', Q a w' → Q' a w') → (∀ w', B w' → B' w') →
  settles m w Q' B'.
Proof. unfold settles. destruct (m w); [intros H HQ _; by apply HQ|done|intros H _ HB; by apply HB]. Qed.

Lemma settles_after {A C : Type} (m : M A) (k : A → M C) (w : world)
    (Q1 : A → world → Prop) (Q : C → world → Prop) (B : world → Prop) :
  returns m w Q1 → (∀ a w', Q1 a w' → settles (k a) w' Q B) →
  settles (m ≫= k) w Q B.
Proof.
  intros (a & w' & Hm & HQ) Hk. apply settles_bind. unfold settles at 1.
  rewrite Hm. by apply Hk.
Qed.

Lemma settles_keeps {A : Type} (I : world → Prop) (m : M A) (w : world)
    (Q : A → world → Prop) (B : world → Prop) :
  keeps I m → I w → settles m w Q B →
  settles m w (λ a w', Q a w' ∧ I w') (λ w', B w' ∧ I w').
Proof.
  intros Hk HI. specialize (Hk w HI). unfold settles. by destruct (m w).
Qed.

Lemma settles_for_loopM {S : Type} (body : nat → S → M (bool * S))
    (Inv : nat → S → world → Prop) (B : world → Prop) (n i : nat) (s : S) (w : world) :
  Inv i s w →
  (∀ j t v, (i ≤ j < i + n)%nat → Inv j t v →
     settles (body j t) v (λ bs v', bs.1 = false ∧ Inv (Datatypes.S j) bs.2 v') B) →
  settles (for_loopM body i n s) w (λ t v, Inv (i + n)%nat t v) B.
Proof.
  revert i s w. induction n as [|n IH]; intros i s w Hinv Hbody; simpl.
  - unfold settles, ret. by replace (i + 0)%nat with i by lia.
  - apply settles_bind. eapply settles_wand; [apply (Hbody i s w); [lia|done]| |done].
    intros [b s'] w' [Hb Hinv']. simpl in *. subst b.
    replace (i + Datatypes.S n)%nat with (Datatypes.S i + n)%nat by lia.
    apply IH; [done|]. intros j t v Hj. apply Hbody. lia.
Qed.

(** The scan over valid handles returns exactly when each of its reads
    does: it reads, round by round, the descriptor in the slot of the handle
    if [select] left it in the set. *)
Lemma scan_settles (env : wait_env) (ks : list nat) (fds : gset Z) (idx : Z) (w : world) :
  Forall (λ k, (k < NUM_SIGNALS)%nat) ks →
  settles (for_loopM (scan_body P env (addr_of P <$> ks) fds) 0 (length ks) idx) w
    (λ _ _, ∀ i h, ks !! i = Some h → read_fd (slot h w) ∈ fds → env_read env i = true)
    (λ _, ∃ i h, ks !! i = Some h ∧ read_fd (slot h w) ∈ fds ∧ env_read env i = false).
Proof.
  intros Hks.
  eapply settles_wand.
  - apply (settles_for_loopM _
      (λ j _ v, signals v = signals w ∧
                ∀ i h, (i < j)%nat → ks !! i = Some h → read_fd (slot h w) ∈ fds →
                       env_read env i = true)
      (λ _, ∃ i h, ks !! i = Some h ∧ read_fd (slot h w) ∈ fds ∧ env_read env i = false)).
    + split; [done|]. intros; lia.
    + intros j t v Hj [Hsig Hdone].
      destruct (lookup_lt_is_Some_2 ks j) as [h Hh]; [lia|].
      pose proof (valid_lookup ks j h Hks Hh) as Hlt.
      assert (slot h v = slot h w) as Hslot by (unfold slot; by rewrite Hsig).
      unfold scan_body.
      eapply settles_after;
        [by apply (returns_deref P ks j h _ (λ a v', a = h ∧ v' = v))|].
      intros ? ? [-> ->].
      eapply settles_after; [by apply (returns_read _ _ (λ a v', a = read_fd (slot h v) ∧ v' = v))|].
      intros ? ? [-> ->]. rewrite Hslot.
      destruct (decide (read_fd (slot h w) ∈ fds)) as [Hin|Hout].
      * apply settles_bind. unfold sys_read.
        destruct (env_read env j) eqn:Hr.
        -- unfold settles, act, ret. split; [done|]. split; [done|].
           intros i h' Hi Hh' Hin'. destruct (decide (i = j)) as [->|Hne]; [done|].
           apply (Hdone i h'); [lia|done|done].
        -- unfold settles. cbv beta iota. by exists j, h.
      * unfold settles, ret. split; [done|]. split; [done|].
        intros i h' Hi Hh' Hin'. destruct (decide (i = j)) as [->|Hne].
        -- rewrite Hh in Hh'. by inversion Hh'; subst h'.
        -- apply (Hdone i h'); [lia|done|done].
  - intros _ v [_ Hdone] i h Hh. apply Hdone; [|done].
    apply lookup_lt_Some in Hh. lia.
  - done.
Qed.

Lemma wait_for_any_settles (env : wait_env) (ks : list nat) (k : nat)
    (res : select_result) (rest : list select_result) (max_fd : Z) (fds : gset Z)
    (timeout : Z) (w : world) :
  Forall (λ k, (k < NUM_SIGNALS)%nat) ks →
  env_select env = replicate k (SelErr EINTR) ++ res :: rest →
  res ≠ SelErr EINTR →
  settles (wait_for_any P env (addr_of P <$> ks) (Z.of_nat (length ks)) max_fd fds timeout) w
    (λ r w',
       signals w' = signals w ∧ dispositions w' = dispositions w ∧
       (∀ ready i h, res = SelReturns ready → ks !! i = Some h →
          read_fd (slot h w) ∈ fds → read_fd (slot h w) < max_fd + 1 →
          read_fd (slot h w) ∈ ready → env_read env i = true) ∧
       ∃ evs, trace w' = trace w ++ selects (max_fd + 1) fds timeout k res ++ evs ∧
              Forall (λ e, call_of e = CRead) evs ∧
              ∀ e, res = SelErr e → r = -1 ∧ errno w' = e ∧ evs = [])
    (λ w',
       (∃ ready i h, res = SelReturns ready ∧ ks !! i = Some h ∧
          read_fd (slot h w) ∈ fds ∧ read_fd (slot h w) ∈ ready ∧
          env_read env i = false) ∧
       signals w' = signals w ∧ dispositions w' = dispositions w ∧
       ∃ evs, trace w' = trace w ++ selects (max_fd + 1) fds timeout k res ++ evs ∧
              Forall (λ e, call_of e = CRead) evs).
Proof.
  intros Hks Hscript Hres. unfold wait_for_any. rewrite Hscript.
  eapply settles_after; [by apply select_loop_retries|].
  intros [r fds'] w1 (Hs & Hd & Htr & Hrf). cbn [fst snd] in *.
  destruct res as [ready|e].
  - destruct Hrf as [-> ->].
    set (F := filter (λ fd, fd < max_fd + 1 ∧ fd ∈ ready) fds).
    destruct (decide (_ = 0)) as [Hz|Hnz].
    { apply settles_returns, returns_ret. split_and!; try done.
      - intros ready' i h [= <-] Hh Hin Hlt Hr.
        assert (size F = 0%nat) as Hsz by lia.
        apply size_empty_iff in Hsz.
        assert (read_fd (slot h w) ∈ F) as HinF by (by apply elem_of_filter).
        rewrite Hsz in HinF. by apply not_elem_of_empty in HinF.
      - exists []. by rewrite app_nil_r. }
    destruct (decide (_ > 0)).
    + rewrite Nat2Z.id.
      set (I := λ v : world, signals v = signals w ∧ dispositions v = dispositions w ∧
                  ∃ evs, trace v = trace w1 ++ evs ∧ Forall (λ e, call_of e = CRead) evs).
      assert (I w1) as HI1.
      { unfold I. split_and!; try done. exists []. by rewrite app_nil_r. }
      assert (keeps I (for_loopM (scan_body P env (addr_of P <$> ks) F) 0 (length ks) (-1)))
        as Hkeep.
      { apply keeps_scan. intros ev v Hev (Hsv & Hdv & evs & Hev1 & Hev2).
        unfold I. split_and!; try done. exists (evs ++ [ev]). split.
        - cbn [trace log]. by rewrite Hev1, <- app_assoc.
        - apply Forall_app. split; [done|]. by constructor. }
      assert (∀ h, slot h w1 = slot h w) as Hslot by (intros h; unfold slot; by rewrite Hs).
      eapply settles_wand;
        [exact (settles_keeps I _ w1 _ _ Hkeep HI1 (scan_settles env ks F (-1) w1 Hks))| |].
      * intros r v (Hscan & Hsv & Hdv & evs & Hev1 & Hev2). split_and!; try done.
        -- intros ready' i h [= <-] Hh Hin Hlt Hr. apply (Hscan i h Hh).
           rewrite Hslot. by apply elem_of_filter.
        -- exists evs. split_and!; try done. by rewrite Hev1, Htr, <- app_assoc.
      * intros v ((i & h & Hh & Hin & Hr) & Hsv & Hdv & evs & Hev1 & Hev2).
        rewrite Hslot in Hin. apply elem_of_filter in Hin as [[_ Hready] Hin].
        split_and!; try done; [by exists ready, i, h|].
        exists evs. split; [|done]. by rewrite Hev1, Htr, <- app_assoc.
    + exfalso. lia.
  - destruct Hrf as [[= -> ->] He].
    rewrite decide_False by lia. rewrite decide_False by lia.
    apply settles_returns, returns_ret. split_and!; try done. exists [].
    rewrite app_nil_r. split_and!; try done.
    by intros e' [= <-].
Qed.

(** X15.  [wait_for_any] over valid handles, when [select] is interrupted
    [k] times and then ends otherwise.  It has called [select] [k + 1]
    times with the same descriptor limit, set and timeout, then [read] and
    nothing else, and the table and the dispositions are as before.  It
    returns exactly when every [read] of the scan does: it does not return
    when [select] reported the descriptor in the slot of some handle and the
    [read] for that handle finds nothing to read.  When the last [select]
    failed it returns [-1] with the [errno] of [select] and reads from no
    pipe. *)
Theorem wait_for_any_retries_select (env : wait_env) (ks : list nat) (k : nat)
    (res : select_result) (rest : list select_result) (max_fd : Z) (fds : gset Z)
    (timeout : Z) (w : world) :
  Forall (λ k, (k < NUM_SIGNALS)%nat) ks →
  env_select env = replicate k (SelErr EINTR) ++ res :: rest →
  res ≠ SelErr EINTR →
  match wait_for_any P env (addr_of P <$> ks) (Z.of_nat (length ks)) max_fd fds timeout w
  with
  | Done r w' =>
      signals w' = signals w ∧ dispositions w' = dispositions w ∧
      (∀ ready i h, res = SelReturns ready → ks !! i = Some h →
         read_fd (slot h w) ∈ fds → read_fd (slot h w) < max_fd + 1 →
         read_fd (slot h w) ∈ ready → env_read env i = true) ∧
      ∃ evs, trace w' = trace w ++ selects (max_fd + 1) fds timeout k res ++ evs ∧
             Forall (λ e, call_of e = CRead) evs ∧
             ∀ e, res = SelErr e → r = -1 ∧ errno w' = e ∧ evs = []
  | Blocked w' =>
      (∃ ready i h, res = SelReturns ready ∧ ks !! i = Some h ∧
         read_fd (slot h w) ∈ fds ∧ read_fd (slot h w) ∈ ready ∧
         env_read env i = false) ∧
      signals w' = signals w ∧ dispositions w' = dispositions w ∧
      ∃ evs, trace w' = trace w ++ selects (max_fd + 1) fds timeout k res ++ evs ∧
             Forall (λ e, call_of e = CRead) evs
  | Undefined => False
  end.
Proof. apply wait_for_any_settles. Qed.

(** ** A whole call of WaitAny *)

Lemma WaitAny_returns (env : wait_env) (_signals : list Z) (count timeout : Z)
    (w : world) (Q : Z → world → Prop) :
  returns (wait_locked P env _signals count timeout) (log (EvLock 0) w)
    (λ r w1, Q r (log EvUnlock w1)) →
  returns (Mono_Unix_UnixSignal_WaitAny P 0 env _signals count timeout) w Q.
Proof.
  intros (r & w1 & Hrun & HQ). exists r, (log EvUnlock w1). split; [|done].
  by rewrite WaitAny_unfold, Hrun.
Qed.

Lemma WaitAny_settles (env : wait_env) (_signals : list Z) (count timeout : Z)
    (w : world) (Q : Z → world → Prop) (B : world → Prop) :
  settles (wait_locked P env _signals count timeout) (log (EvLock 0) w)
    (λ r w1, Q r (log EvUnlock w1)) B →
  settles (Mono_Unix_UnixSignal_WaitAny P 0 env _signals count timeout) w Q B.
Proof.
  unfold settles. rewrite WaitAny_unfold.
  by destruct (wait_locked P env _signals count timeout (log (EvLock 0) w)).
Qed.

Lemma wait_locked_phases (env : wait_env) (_signals : list Z) (count timeout : Z)
    (w : world) (r : Z) (w1 : world) :
  wait_locked P env _signals count timeout w = Done r w1 →
  ∃ s wa wb,
    setup_pipes P env _signals count ∅ 0 w = Done s wa ∧
    (if decide (s.1.1 = 0)
     then wait_for_any P env _signals count s.2 s.1.2 timeout
     else ret s.1.1) wa = Done r wb ∧
    teardown_pipes P _signals count wb = Done () w1.
Proof.
  unfold wait_locked, mbind, M_bind, bind.
  destruct (setup_pipes P env _signals count ∅ 0 w)
    as [[[r0 fds] max_fd] wa| |wa]; [|done|done].
  cbn [fst snd].
  destruct ((if decide (r0 = 0)
             then wait_for_any P env _signals count max_fd fds timeout
             else ret r0) wa) as [r' wb| |wb] eqn:Hmid; [|done|done].
  destruct (teardown_pipes P _signals count wb) as [[] wc| |wc] eqn:Htd; [|done|done].
  intros [= <- <-]. by exists (r0, fds, max_fd), wa, wb.
Qed.

Lemma flat_map_indexed {A B : Type} (f : A → list B) (g : nat → list B) (l : list A) :
  (∀ i x, l !! i = Some x → f x = g i) →
  flat_map f l = flat_map g (seq 0 (length l)).
Proof.
  induction l as [|x l IH] using rev_ind; intros H; [done|].
  rewrite length_app, Nat.add_1_r, seq_S, !flat_map_app. simpl. rewrite !app_nil_r.
  f_equal.
  - apply IH. intros i y Hy. apply H. by rewrite lookup_app_l by (by eapply lookup_lt_Some).
  - apply H. by rewrite lookup_app_r, Nat.sub_diag.
Qed.

Lemma flat_map_ext_elem {A B : Type} (f g : A → list B) (l : list A) :
  (∀ x, x ∈ l → f x = g x) → flat_map f l = flat_map g l.
Proof.
  induction l as [|x l IH]; intros H; [done|]. simpl. f_equal.
  - apply H. by left.
  - apply IH. intros y Hy. apply H. by right.
Qed.

Lemma closes_arm (rfd wfd : Z) (x : signal_info) :
  closes (arm rfd wfd x) = EvClose <$> filter (λ fd, fd ≠ 0) [rfd; wfd].
Proof. done. Qed.

Lemma disarmed_zero (ks : list nat) (w0 w : world) (h : nat) :
  disarmed ks w0 (length ks) w → h ∈ ks →
  read_fd (slot h w) = 0 ∧ write_fd (slot h w) = 0.
Proof.
  intros (_ & _ & _ & Hslot & _) Hh. rewrite Hslot, take_ge by lia.
  by rewrite decide_True.
Qed.

(** X16.  When [WaitAny] over valid handles returns, whatever [pipe] and
    [select] answered, [read_fd] and [write_fd] are [0] in the slot of every
    handle. *)
Theorem WaitAny_disarms (env : wait_env) (ks : list nat) (timeout : Z) (w : world)
    (r : Z) (w' : world) :
  wf w → Forall (λ k, (k < NUM_SIGNALS)%nat) ks →
  Mono_Unix_UnixSignal_WaitAny P 0 env (addr_of P <$> ks) (Z.of_nat (length ks))
    timeout w = Done r w' →
  ∀ h, h ∈ ks → read_fd (slot h w') = 0 ∧ write_fd (slot h w') = 0.
Proof.
  intros Hwf Hks Hrun h Hh. rewrite WaitAny_unfold in Hrun.
  destruct (wait_locked P env _ _ timeout (log (EvLock 0) w)) as [r1 w1| |w1] eqn:Hw;
    [|done|done].
  inversion Hrun; subst r1 w'; clear Hrun.
  apply wait_locked_phases in Hw as (s & wa & wb & Hsetup & Hmid & Htd).
  assert (∀ h v (v' : world), wf v' → wf (store h (set_read_fd v) v')) as Hrd
    by (intros; by rewrite wf_store).
  assert (∀ h v (v' : world), wf v' → wf (store h (set_write_fd v) v')) as Hwr
    by (intros; by rewrite wf_store).
  assert (wf wa) as Hwfa.
  { pose proof (keeps_setup_pipes wf env (addr_of P <$> ks) (Z.of_nat (length ks)) ∅ 0
      ltac:(by intros) ltac:(by intros) Hrd Hwr (log (EvLock 0) w) Hwf) as Hk.
    by rewrite Hsetup in Hk. }
  assert (wf wb) as Hwfb.
  { destruct (decide (s.1.1 = 0)).
    - pose proof (keeps_wait_for_any wf env (addr_of P <$> ks) (Z.of_nat (length ks))
        s.2 s.1.2 timeout ltac:(by intros) ltac:(by intros) wa Hwfa) as Hk.
      by rewrite Hmid in Hk.
    - by inversion Hmid; subst. }
  pose proof (returns_det _ _ _ _ _ (teardown_pipes_run ks wb Hwfb Hks) Htd) as Hdis.
  rewrite slot_log. by apply (disarmed_zero ks wb).
Qed.

(** X17.  [WaitAny] over valid handles when the call of [pipe] for handle
    number [k] fails, the earlier ones succeeding: it returns [-1], with the
    descriptor fields of every handle at [0], and the calls it issued are the
    lock, [k + 1] calls of [pipe], calls of [close] and the unlock: no
    [select], no [read].  The handles being distinct, the [close]s are those
    of the [k] pipes it got, in order, followed by those of whatever
    descriptors the slots of the later handles held before the call. *)
Theorem WaitAny_pipe_failure (env : wait_env) (ks : list nat) (k : nat) (e timeout : Z)
    (w : world) :
  wf w → Forall (λ k, (k < NUM_SIGNALS)%nat) ks → (k < length ks)%nat →
  pipes_ok env k → env_pipe env k = PipeErr e →
  returns (Mono_Unix_UnixSignal_WaitAny P 0 env (addr_of P <$> ks)
             (Z.of_nat (length ks)) timeout) w
    (λ r w',
       r = -1 ∧
       (∀ h, h ∈ ks → read_fd (slot h w') = 0 ∧ write_fd (slot h w') = 0) ∧
       ∃ evs,
         trace w' = trace w ++ [EvLock 0] ++ pipes_of env (Datatypes.S k) ++ evs
                            ++ [EvUnlock] ∧
         Forall (λ e, call_of e = CClose) evs ∧
         (NoDup ks →
          evs = flat_map (pipe_closes env) (seq 0 k) ++
                flat_map (λ h, closes (slot h w)) (drop k ks))).
Proof.
  intros Hwf Hks Hk Hpipes Herr. apply WaitAny_returns.
  unfold wait_locked. apply returns_bind.
  eapply returns_wand;
    [apply (setup_pipes_break env ks k e (log (EvLock 0) w)); done|].
  intros s wa (Hwfa & -> & Htra & _ & _ & Hout & Hin). cbv beta iota.
  rewrite decide_False by lia.
  apply returns_bind, returns_ret. apply returns_bind.
  eapply returns_wand; [by apply teardown_pipes_run|].
  intros [] wc Hdis. apply returns_ret. split; [done|]. split.
  { intros h Hh. rewrite slot_log. by apply (disarmed_zero ks wa). }
  destruct Hdis as (_ & _ & _ & _ & (evs & Htrc & Hevs) & Hnd).
  exists evs. split_and!; [|done|].
  - cbn [trace log] in *. rewrite Htrc, Htra. by rewrite <- !app_assoc.
  - intros Hnodup. specialize (Hnd Hnodup). rewrite Htrc in Hnd.
    apply app_inv_head in Hnd. rewrite Hnd, take_ge by lia.
    rewrite <- (take_drop k ks) at 1. rewrite flat_map_app. f_equal.
    + rewrite (flat_map_indexed _ (pipe_closes env)).
      * rewrite length_take. by replace (k `min` length ks)%nat with k by lia.
      * intros i h Hh. apply lookup_take_Some in Hh as [Hh Hi].
        by rewrite (Hin Hnodup i h Hi Hh), closes_arm.
    + apply flat_map_ext_elem. intros h Hh. rewrite Hout; [done|].
      rewrite <- (take_drop k ks) in Hnodup.
      apply NoDup_app in Hnodup as (_ & Hdisj & _). intros Hin'.
      by apply (Hdisj h).
Qed.

(** X18.  The calls of a [WaitAny] over at least one valid handle, when every
    [pipe] succeeds and [select] is interrupted [k] times before it ends
    otherwise: the lock; one [pipe] per handle; [k + 1] calls of [select],
    each with the highest read end plus one, the set of the read ends and
    the timeout; [read]s; and then, when the call returns, [close]s and the
    unlock, with the descriptor fields of every handle at [0].  The call
    returns unless a [read] of the scan does not return, which takes a
    [select] that reported a pipe: it is then left after the [read]s that
    did return, the lock held and no pipe closed.  When [select] failed the
    call returns [-1] and reads nothing; and, the handles being distinct,
    the [close]s are those of the two ends of every pipe, in order. *)
Theorem WaitAny_call_sequence (env : wait_env) (ks : list nat) (k : nat)
    (res : select_result) (rest : list select_result) (timeout : Z) (w : world) :
  wf w → Forall (λ k, (k < NUM_SIGNALS)%nat) ks → ks ≠ [] →
  pipes_ok env (length ks) →
  env_select env = replicate k (SelErr EINTR) ++ res :: rest →
  res ≠ SelErr EINTR →
  match Mono_Unix_UnixSignal_WaitAny P 0 env (addr_of P <$> ks)
          (Z.of_nat (length ks)) timeout w with
  | Done r w' =>
      (∀ h, h ∈ ks → read_fd (slot h w') = 0 ∧ write_fd (slot h w') = 0) ∧
      ∃ reads cls,
        trace w' = trace w ++ [EvLock 0] ++ pipes_of env (length ks) ++
                   selects (highest (pipe_rfd env <$> seq 0 (length ks)) + 1)
                           (list_to_set (pipe_rfd env <$> seq 0 (length ks)))
                           timeout k res ++
                   reads ++ cls ++ [EvUnlock] ∧
        Forall (λ e, call_of e = CRead) reads ∧
        Forall (λ e, call_of e = CClose) cls ∧
        (∀ e, res = SelErr e → r = -1 ∧ reads = []) ∧
        (NoDup ks → cls = flat_map (pipe_closes env) (seq 0 (length ks)))
  | Blocked w' =>
      (∃ ready, res = SelReturns ready) ∧
      (∃ i, (i < length ks)%nat ∧ env_read env i = false) ∧
      ∃ reads,
        trace w' = trace w ++ [EvLock 0] ++ pipes_of env (length ks) ++
                   selects (highest (pipe_rfd env <$> seq 0 (length ks)) + 1)
                           (list_to_set (pipe_rfd env <$> seq 0 (length ks)))
                           timeout k res ++
                   reads ∧
        Forall (λ e, call_of e = CRead) reads
  | Undefined => False
  end.
Proof.
  intros Hwf Hks Hne Hpipes Hscript Hres. apply WaitAny_settles.
  unfold wait_locked.
  eapply settles_after; [apply (setup_pipes_run env ks (log (EvLock 0) w)); done|].
  intros s wa (Hwfa & -> & Htra & _ & _ & Hout & Hin).
  destruct ks as [|k0 ks0] eqn:Hksq; [done|]. rewrite <- Hksq in *. cbv beta iota.
  rewrite decide_True by done. apply settles_bind.
  eapply settles_wand; [by apply (wait_for_any_settles env ks k res rest)| |].
  2:{ intros wb ((ready & i & h & -> & Hh & _ & _ & Hr) & _ & _ & reads & Htrb & Hreads).
      split_and!; [by exists ready|exists i; split; [by eapply lookup_lt_Some|done]|].
      exists reads. split; [|done].
      cbn [trace log] in *. rewrite Htrb, Htra. by rewrite <- !app_assoc. }
  intros r wb (Hsb & _ & _ & reads & Htrb & Hreads & Hfail).
  assert (wf wb) as Hwfb by (unfold wf in *; by rewrite Hsb).
  apply settles_returns. apply returns_bind.
  eapply returns_wand; [by apply teardown_pipes_run|].
  intros [] wc Hdis. apply returns_ret. split.
  { intros h Hh. rewrite slot_log. by apply (disarmed_zero ks wb). }
  destruct Hdis as (_ & _ & _ & _ & (cls & Htrc & Hcls) & Hnd).
  exists reads, cls. split_and!; [|done|done| |].
  - cbn [trace log] in *. rewrite Htrc, Htrb, Htra. by rewrite <- !app_assoc.
  - intros e He. by destruct (Hfail e He) as (-> & _ & ->).
  - intros Hnodup. specialize (Hnd Hnodup). rewrite Htrc in Hnd.
    apply app_inv_head in Hnd. rewrite Hnd, take_ge by lia.
    apply flat_map_indexed. intros i h Hh.
    assert (slot h wb = slot h wa) as -> by (unfold slot; by rewrite Hsb).
    by rewrite (Hin Hnodup i h Hh), closes_arm.
Qed.

(** X19.  A delivery that comes after [setup_pipes] armed distinct valid
    handles: for every handle whose registration is of the delivered signal
    and whose pipe has a positive write end, [default_handler] writes one
    byte, the low byte of the signal number, to that write end, and adds one
    to the count of the registration. *)
Theorem default_handler_wakes_waiter (env : wait_env) (ks : list nat) (w : world)
    (sig : Z) (i h : nat) :
  wf w → Forall (λ k, (k < NUM_SIGNALS)%nat) ks → NoDup ks →
  pipes_ok env (length ks) →
  ks !! i = Some h → signum (slot h w) = sig → pipe_wfd env i > 0 →
  returns (setup_pipes P env (addr_of P <$> ks) (Z.of_nat (length ks)) ∅ 0) w
    (λ _ w1,
       ∃ before after,
         trace (default_handler sig w1) =
           trace w1 ++ before ++ [EvWrite (pipe_wfd env i) (sig mod 256) 1] ++ after ∧
         count (slot h (default_handler sig w1)) = int_wrap (count (slot h w) + 1)).
Proof.
  intros Hwf Hks Hnd Hpipes Hh Hsig Hfd.
  pose proof (valid_lookup ks i h Hks Hh) as Hlt.
  eapply returns_wand; [by apply setup_pipes_run|].
  intros s w1 (Hwf1 & _ & _ & _ & _ & _ & Hin).
  specialize (Hin Hnd i h Hh).
  assert (signals w1 !! h = Some (slot h w1)) as Hl
    by (apply lookup_slot; unfold wf in Hwf1; lia).
  rewrite default_handler_spec by done. cbn [trace].
  assert (EvWrite (pipe_wfd env i) (sig mod 256) 1 ∈ wakeups sig (signals w1)) as Hw.
  { apply list_elem_of_In, in_flat_map. exists (slot h w1). split.
    - apply list_elem_of_In. by eapply list_elem_of_lookup_2.
    - rewrite Hin. cbn [arm signum write_fd set_write_fd set_read_fd].
      rewrite decide_True by done. by left. }
  apply list_elem_of_split in Hw as (before & after & ->).
  exists before, after. split; [done|].
  rewrite (slot_lookup h _ (bump sig (slot h w1)))
    by (cbn [signals]; by rewrite list_lookup_fmap, Hl).
  rewrite Hin. unfold bump.
  cbn [arm signum count set_write_fd set_read_fd]. by rewrite decide_True.
Qed.

(** ** Registrations counted *)

Lemma count_handlers_insert (s : Z) (w w' : world) (i : nat) (x z : signal_info) :
  wf w → signals w !! i = Some x → signals w' = <[i := z]> (signals w) →
  count_handlers s w' =
    count_handlers s w - (if decide (signum x = s) then 1 else 0)
                       + (if decide (signum z = s) then 1 else 0).
Proof.
  intros Hwf Hx Hs.
  assert (wf w') as Hwf' by (unfold wf in *; by rewrite Hs, length_insert).
  rewrite !count_handlers_spec by done.
  rewrite Hs, (holders_insert s _ i x z Hx), (holders_split s _ i x Hx), !holders_one.
  repeat case_decide; lia.
Qed.

Lemma count_handlers_signals (s : Z) (w w' : world) :
  wf w → signals w' = signals w → count_handlers s w' = count_handlers s w.
Proof.
  intros Hwf Hs. assert (wf w') as Hwf' by (unfold wf in *; by rewrite Hs).
  rewrite !count_handlers_spec by done. by rewrite Hs.
Qed.

(** X20.  What [install] does to the numbers [count_handlers] reports: when
    it returns a handle, the signal it registered has one registration more
    and there is one free slot less, every other number being as before;
    when it returns [NULL], nothing changes. *)
Theorem install_adds_one_registration (mr sig : Z) (w : world) (p : Z) (w' : world) :
  wf w → Mono_Unix_UnixSignal_install P mr sig w = (p, w') →
  (p = NULL → ∀ s, count_handlers s w' = count_handlers s w) ∧
  (p ≠ NULL →
   sig ≠ 0 ∧
   count_handlers sig w' = count_handlers sig w + 1 ∧
   count_handlers 0 w' = count_handlers 0 w - 1 ∧
   ∀ s, s ≠ sig → s ≠ 0 → count_handlers s w' = count_handlers s w).
Proof.
  intros Hwf Hi. destruct (decide (mr = 0)) as [->|Hmr].
  2:{ unfold Mono_Unix_UnixSignal_install in Hi. rewrite decide_True in Hi by done.
      inversion Hi; subst p w'. split; [|done]. intros _ s.
      by apply count_handlers_signals. }
  destruct (install_spec P sig w p w' Hwf Hi)
    as [[-> [Hfull|(i & x & Hx & Hno)]]|(i & x & hd & Hx & Hc & Hd & _ & -> & ->)].
  - split; [|done]. intros _ s.
    rewrite install_no_free_slot in Hi by (done || (intros y Hy; by apply Hfull)).
    inversion Hi; subst w'. by apply count_handlers_signals.
  - split; [|done]. intros _ s.
    rewrite (install_refused sig w i x) in Hi by done. inversion Hi; subst w'.
    destruct Hx as (Hxi & _).
    rewrite (count_handlers_insert s w _ i x (set_handler NULL x) Hwf Hxi).
    + cbn [signum set_handler]. lia.
    + unfold install_failed, sys_signal. by destruct (decide _).
  - split; [intros Hnull; by destruct (addr_of_not_null P i)|]. intros _.
    destruct Hx as (Hxi & Hfree & _). unfold free in Hfree.
    assert (sig ≠ 0) as Hsig by (destruct Hc; lia).
    assert (∀ s, count_handlers s (installed sig w i x hd) =
                 count_handlers s w - (if decide (0 = s) then 1 else 0)
                                    + (if decide (sig = s) then 1 else 0)) as Hcount.
    { intros s.
      rewrite (count_handlers_insert s w (installed sig w i x hd) i x
        {| signum := sig; count := 0; read_fd := read_fd x; write_fd := write_fd x;
           have_handler := 1; handler := hd |} Hwf Hxi eq_refl).
      rewrite Hfree. reflexivity. }
    split; [done|]. split_and!.
    + rewrite Hcount, decide_False, decide_True by done. lia.
    + rewrite Hcount, decide_True, decide_False by done. lia.
    + intros s Hs H0. rewrite Hcount, decide_False, decide_False by done. lia.
Qed.

(** X21.  What [uninstall] of a handle does to the numbers [count_handlers]
    reports, whichever value it returns: the signal of the slot has one
    registration less and there is one free slot more, every other number
    being as before; for a handle whose slot is free already, nothing
    changes. *)
Theorem uninstall_removes_one_registration (w : world) (i : nat) (x : signal_info)
    (r : Z) (w' : world) :
  wf w → signals w !! i = Some x →
  Mono_Unix_UnixSignal_uninstall P 0 (addr_of P i) w = Done r w' →
  signum (slot i w') = 0 ∧
  ∀ s, count_handlers s w' =
         count_handlers s w - (if decide (signum x = s) then 1 else 0)
                            + (if decide (s = 0) then 1 else 0).
Proof.
  intros Hwf Hx Hrun.
  pose proof (lookup_lt_Some _ _ _ Hx) as Hlt.
  assert (∃ z, signum z = 0 ∧ signals w' = <[i := z]> (signals w)) as (z & Hz & Hs).
  { destruct (decide (have_handler x ≠ 0 ∧
                      length (holders (signum x) (signals w)) = 1%nat)) as [[Hh Hone]|Hno].
    - destruct (decide (catchable (signum x))) as [Hc|Hc].
      + rewrite (uninstall_last P w i x) in Hrun by done. inversion Hrun; subst r w'.
        eexists; split; cycle 1; reflexivity.
      + rewrite (uninstall_refused P w i x) in Hrun by done. inversion Hrun; subst r w'.
        eexists; split; cycle 1; reflexivity.
    - rewrite (uninstall_shared P w i x) in Hrun by done. inversion Hrun; subst r w'.
      eexists; split; cycle 1; reflexivity. }
  split.
  - unfold slot. by rewrite Hs, list_lookup_total_insert_eq.
  - intros s. rewrite (count_handlers_insert s w w' i x z Hwf Hx Hs), Hz.
    repeat case_decide; lia.
Qed.

(** ** Two registrations of one signal *)

Lemma uninstall_pair (w : world) (a b : nat) (xa xb : signal_info) (sig : Z) :
  wf w → a ≠ b → signals w !! a = Some xa → signals w !! b = Some xb →
  signum xa = sig → signum xb = sig → have_handler xb ≠ 0 →
  catchable sig → dispositions w sig ≠ SIG_ERR →
  (∀ k y, k ≠ a → k ≠ b → signals w !! k = Some y → signum y ≠ sig) →
  ∃ w3 w4,
    Mono_Unix_UnixSignal_uninstall P 0 (addr_of P a) w = Done (-1) w3 ∧
    Mono_Unix_UnixSignal_uninstall P 0 (addr_of P b) w3 = Done 0 w4 ∧
    dispositions w3 = dispositions w ∧
    dispositions w4 = <[sig := handler xb]> (dispositions w) ∧
    count_handlers sig w4 = 0.
Proof.
  intros Hwf Hab Ha Hb Hsa Hsb Hh Hc Hd Hrest.
  pose proof (lookup_lt_Some _ _ _ Ha) as Hla.
  pose proof (lookup_lt_Some _ _ _ Hb) as Hlb.
  assert (sig ≠ 0) as Hsig by (destruct Hc; lia).
  exists (released w a xa), (restored (released w a xa) b xb).
  assert (wf (released w a xa)) as Hwf3
    by (unfold wf, released in *; simpl; by rewrite length_insert).
  assert (signals (released w a xa) !! b = Some xb) as Hb3
    by (unfold released; simpl; by rewrite list_lookup_insert_ne).
  split_and!.
  - apply uninstall_shared; [done|done|]. intros [_ Hone].
    assert (signum xb = signum xa) as Heq by congruence.
    pose proof (holders_two _ _ _ _ _ Ha Hb Hab Heq). lia.
  - rewrite (uninstall_last P _ b xb); try done.
    + rewrite decide_True; [done|]. by rewrite Hsb.
    + apply (holders_alone (released w a xa) b xb Hb3). intros k y Hk Hy. rewrite Hsb.
      unfold released in Hy; simpl in Hy.
      destruct (decide (k = a)) as [->|Hka].
      * rewrite list_lookup_insert_eq in Hy by done. inversion Hy; subst y.
        simpl. congruence.
      * rewrite list_lookup_insert_ne in Hy by done. by apply (Hrest k).
    + by rewrite Hsb.
  - done.
  - unfold restored, released; simpl. by rewrite Hsb.
  - rewrite count_handlers_spec
      by (unfold wf, restored, released in *; simpl; by rewrite !length_insert).
    rewrite holders_none; [done|]. intros z Hz.
    apply list_elem_of_lookup in Hz as [k Hk].
    unfold restored, released in Hk; simpl in Hk.
    destruct (decide (k = b)) as [->|Hkb].
    { rewrite list_lookup_insert_eq in Hk by (by rewrite length_insert).
      inversion Hk; subst z. simpl. congruence. }
    rewrite list_lookup_insert_ne in Hk by done.
    destruct (decide (k = a)) as [->|Hka].
    { rewrite list_lookup_insert_eq in Hk by done.
      inversion Hk; subst z. simpl. congruence. }
    rewrite list_lookup_insert_ne in Hk by done. by apply (Hrest k).
Qed.

(** X22.  Two registrations of a signal that had none, [uninstall]ed in
    either order: the first [uninstall] returns [-1] and leaves the
    dispositions alone, the second returns [0], and after it every signal has
    the disposition it had before the two calls of [install] and the signal
    has no registration left. *)
Theorem two_registrations_restore (sig : Z) (w : world) (p1 p2 : Z) (w1 w2 : world)
    (a b : Z) :
  wf w → (∀ y, y ∈ signals w → signum y ≠ sig) →
  Mono_Unix_UnixSignal_install P 0 sig w = (p1, w1) → p1 ≠ NULL →
  Mono_Unix_UnixSignal_install P 0 sig w1 = (p2, w2) → p2 ≠ NULL →
  (a = p1 ∧ b = p2) ∨ (a = p2 ∧ b = p1) →
  ∃ w3 w4,
    Mono_Unix_UnixSignal_uninstall P 0 a w2 = Done (-1) w3 ∧
    Mono_Unix_UnixSignal_uninstall P 0 b w3 = Done 0 w4 ∧
    dispositions w3 = dispositions w2 ∧
    (∀ s, dispositions w4 s = dispositions w s) ∧
    count_handlers sig w4 = 0.
Proof.
  intros Hwf Hnone Hi1 Hp1 Hi2 Hp2 Horder.
  destruct (install_spec P sig w p1 w1 Hwf Hi1)
    as [[-> _]|(i & x & hd & (Hxi & Hxf & _) & Hc & Hd & Hs & -> & ->)]; [done|].
  pose proof (lookup_lt_Some _ _ _ Hxi) as Hli.
  assert (sig ≠ 0) as Hsig by (destruct Hc; lia).
  assert (hd = dispositions w sig) as ->.
  { destruct Hs as [[-> _]|(k & y & (Hk & [Hy _] & _) & _)]; [done|].
    destruct (Hnone y); [|done]. apply list_elem_of_lookup. by exists k. }
  set (X := {| signum := sig; count := 0; read_fd := read_fd x; write_fd := write_fd x;
               have_handler := 1; handler := dispositions w sig |}).
  set (v1 := installed sig w i x (dispositions w sig)) in *.
  assert (wf v1) as Hwf1 by (unfold wf, v1, installed in *; simpl; by rewrite length_insert).
  assert (signals v1 !! i = Some X) as HX
    by (unfold v1, installed; simpl; by rewrite list_lookup_insert_eq).
  destruct (install_spec P sig v1 p2 w2 Hwf1 Hi2)
    as [[-> _]|(j & y & hd2 & (Hyj & Hyf & _) & _ & Hd1 & Hs2 & -> & ->)]; [done|].
  pose proof (lookup_lt_Some _ _ _ Hyj) as Hlj.
  assert (i ≠ j) as Hij.
  { intros ->. rewrite HX in Hyj. inversion Hyj; subst y. by unfold free in Hyf. }
  assert (hd2 = dispositions w sig) as ->.
  { destruct Hs2 as [[-> Hnorec]|(k & y' & (Hk & [Hy1 Hy2] & _) & ->)].
    - unfold v1 at 1, installed; cbn [dispositions]. rewrite fn_lookup_insert.
      destruct (decide (dispositions w sig = default_handler_ptr P)) as [|Hne]; [done|].
      destruct (Hnorec X); [by eapply list_elem_of_lookup_2|]. by split.
    - destruct (decide (k = i)) as [->|Hki].
      + rewrite HX in Hk. by inversion Hk; subst y'.
      + unfold v1, installed in Hk; simpl in Hk.
        rewrite list_lookup_insert_ne in Hk by done.
        destruct (Hnone y'); [|done]. apply list_elem_of_lookup. by exists k. }
  set (Y := {| signum := sig; count := 0; read_fd := read_fd y; write_fd := write_fd y;
               have_handler := 1; handler := dispositions w sig |}).
  set (v2 := installed sig v1 j y (dispositions w sig)) in *.
  assert (wf v2) as Hwf2 by (unfold wf, v2, installed in *; simpl; by rewrite length_insert).
  assert (signals v2 !! j = Some Y) as HY2
    by (unfold v2, installed; simpl; by rewrite list_lookup_insert_eq).
  assert (signals v2 !! i = Some X) as HX2
    by (unfold v2, installed; simpl; by rewrite list_lookup_insert_ne).
  assert (∀ k z, k ≠ i → k ≠ j → signals v2 !! k = Some z → signum z ≠ sig) as Hrest.
  { intros k z Hki Hkj Hz. unfold v2, v1, installed in Hz; simpl in Hz.
    rewrite !list_lookup_insert_ne in Hz by done.
    apply Hnone. apply list_elem_of_lookup. by exists k. }
  assert (dispositions v2 sig ≠ SIG_ERR) as Hd2.
  { unfold v2, installed; cbn [dispositions]. rewrite fn_lookup_insert.
    unfold default_handler_ptr, SIG_ERR. lia. }
  assert (∀ s, (<[sig := dispositions w sig]> (dispositions v2)) s = dispositions w s)
    as Hback.
  { intros s. destruct (decide (s = sig)) as [->|Hne].
    - by rewrite fn_lookup_insert.
    - unfold v2, v1, installed; cbn [dispositions].
      by rewrite !fn_lookup_insert_ne. }
  assert (have_handler X ≠ 0 ∧ have_handler Y ≠ 0) as [HhX HhY] by (simpl; lia).
  assert (∀ k z, k ≠ j → k ≠ i → signals v2 !! k = Some z → signum z ≠ sig) as Hrest'
    by (intros k z Hkj Hki; by apply Hrest).
  destruct Horder as [[-> ->]|[-> ->]].
  - destruct (uninstall_pair v2 i j X Y sig Hwf2 Hij HX2 HY2 eq_refl eq_refl HhY Hc Hd2
                Hrest) as (w3 & w4 & H3 & H4 & Hd3 & Hd4 & H0).
    exists w3, w4. split; [exact H3|]. split; [exact H4|]. split; [exact Hd3|].
    split; [|exact H0]. intros s. rewrite Hd4. apply Hback.
  - destruct (uninstall_pair v2 j i Y X sig Hwf2 (not_eq_sym Hij) HY2 HX2 eq_refl eq_refl
                HhX Hc Hd2 Hrest') as (w3 & w4 & H3 & H4 & Hd3 & Hd4 & H0).
    exists w3, w4. split; [exact H3|]. split; [exact H4|]. split; [exact Hd3|].
    split; [|exact H0]. intros s. rewrite Hd4. apply Hback.
Qed.

(** ** A handle passed twice *)

(** X23.  [WaitAny] over the same valid handle passed twice, both calls of
    [pipe] succeeding and [select] ending after [k] interruptions: the
    second pipe overwrites the descriptors of the first in the slot.  When
    the call returns, it has closed the two ends of the second pipe only:
    the ends of the first pipe are never passed to [close].  When [select]
    reported the second pipe, the scan reads it once for each occurrence of
    the handle, and the call returns only if both reads do: if the second
    finds the pipe empty, the call is left with the lock held and no pipe
    closed. *)
Theorem WaitAny_duplicate_handle_leaks (env : wait_env) (h : nat)
    (rfd0 wfd0 rfd1 wfd1 : Z) (k : nat) (res : select_result)
    (rest : list select_result) (timeout : Z) (w : world) :
  wf w → (h < NUM_SIGNALS)%nat →
  env_pipe env 0 = PipeOk rfd0 wfd0 → env_pipe env 1 = PipeOk rfd1 wfd1 →
  env_select env = replicate k (SelErr EINTR) ++ res :: rest →
  res ≠ SelErr EINTR →
  match Mono_Unix_UnixSignal_WaitAny P 0 env (addr_of P <$> [h; h])
          (Z.of_nat (length [h; h])) timeout w with
  | Done r w' =>
      (∃ sel reads,
         trace w' = trace w ++
           [EvLock 0; EvPipe (PipeOk rfd0 wfd0); EvPipe (PipeOk rfd1 wfd1)] ++
           sel ++ reads ++
           (EvClose <$> filter (λ fd, fd ≠ 0) [rfd1; wfd1]) ++ [EvUnlock] ∧
         Forall (λ e, call_of e = CSelect) sel ∧
         Forall (λ e, call_of e = CRead) reads) ∧
      (∀ ready, res = SelReturns ready → rfd1 ∈ ready →
                env_read env 0 = true ∧ env_read env 1 = true)
  | Blocked w' =>
      (∃ sel reads,
         trace w' = trace w ++
           [EvLock 0; EvPipe (PipeOk rfd0 wfd0); EvPipe (PipeOk rfd1 wfd1)] ++
           sel ++ reads ∧
         Forall (λ e, call_of e = CSelect) sel ∧
         Forall (λ e, call_of e = CRead) reads) ∧
      ∃ ready, res = SelReturns ready ∧ rfd1 ∈ ready ∧
               (env_read env 0 = false ∨ env_read env 1 = false)
  | Undefined => False
  end.
Proof.
  intros Hwf Hh Hp0 Hp1 Hscript Hres.
  assert (Forall (λ k, (k < NUM_SIGNALS)%nat) [h; h]) as Hks
    by (apply Forall_cons; split; [done|]; apply Forall_cons; split; [done|]; apply Forall_nil_2).
  apply WaitAny_settles. unfold wait_locked.
  eapply settles_after.
  { unfold setup_pipes. rewrite Nat2Z.id. cbn [length for_loopM].
    apply returns_bind.
    eapply returns_wand;
      [by apply (setup_pipes_body_ok env [h; h] 0 h rfd0 wfd0 _ (log (EvLock 0) w))|].
    intros bs v1 (-> & Hs1 & _ & _ & Ht1). cbv beta iota.
    assert (wf v1) as Hwf1 by (unfold wf in *; rewrite Hs1, length_insert; exact Hwf).
    apply returns_bind.
    eapply returns_wand; [by apply (setup_pipes_body_ok env [h; h] 1 h rfd1 wfd1 _ v1)|].
    intros bs v2 (-> & Hs2 & _ & _ & Ht2). cbv beta iota.
    apply (returns_ret _ _
      (λ s v, s = (0, {[rfd1]} ∪ ({[rfd0]} ∪ ∅), Z.max (Z.max 0 rfd0) rfd1) ∧ wf v ∧
              (∃ x, slot h v = arm rfd1 wfd1 x) ∧
              trace v = trace w ++
                [EvLock 0; EvPipe (PipeOk rfd0 wfd0); EvPipe (PipeOk rfd1 wfd1)])).
    split_and!.
    - done.
    - unfold wf in *. rewrite Hs2, length_insert. exact Hwf1.
    - exists (slot h v1). by rewrite (slot_insert h h _ v1 v2 Hwf1 Hh Hs2), decide_True.
    - rewrite Ht2, Ht1. cbn [trace log fst snd]. by rewrite <- !app_assoc. }
  intros s v2 (-> & Hwf2 & [x1 Hslot2] & Htv2).
  cbv beta iota. rewrite decide_True by done.
  set (F := {[rfd1]} ∪ ({[rfd0]} ∪ (∅ : gset Z))).
  set (mx := Z.max (Z.max 0 rfd0) rfd1).
  assert (read_fd (slot h v2) = rfd1) as Hfd by (by rewrite Hslot2).
  apply settles_bind.
  eapply settles_wand; [by apply (wait_for_any_settles env [h; h] k res rest)| |].
  2:{ intros wb ((ready & i & h' & -> & Hh' & _ & Hready & Hr) & _ & _ & reads & Htrb
                    & Hreads).
      split.
      - exists (selects (mx + 1) F timeout k (SelReturns ready)), reads.
        split_and!; [|..|done].
        + rewrite Htrb, Htv2. by rewrite <- !app_assoc.
        + apply Forall_fmap, Forall_forall. by intros ? _.
      - exists ready. split; [done|].
        destruct i as [|[|i]]; simpl in Hh'; [| |done].
        + inversion Hh'; subst h'. rewrite Hfd in Hready. split; [done|by left].
        + inversion Hh'; subst h'. rewrite Hfd in Hready. split; [done|by right]. }
  intros r wb (Hsb & _ & Hret & reads & Htrb & Hreads & _).
  assert (wf wb) as Hwfb by (unfold wf in *; by rewrite Hsb).
  assert (slot h wb = slot h v2) as Hslotb by (unfold slot; by rewrite Hsb).
  apply settles_returns. apply returns_bind.
  unfold teardown_pipes. rewrite Nat2Z.id. cbn [length for_loopM].
  apply returns_bind.
  eapply returns_wand; [by apply (teardown_pipes_body_spec [h; h] 0 h wb)|].
  intros bs t1 (Hb1 & Hst1 & _ & _ & Htt1). destruct bs as [b1 []]. simpl in Hb1. subst b1.
  cbv beta iota.
  assert (wf t1) as Hwft1 by (unfold wf in *; rewrite Hst1, length_insert; exact Hwfb).
  apply returns_bind.
  eapply returns_wand; [by apply (teardown_pipes_body_spec [h; h] 1 h t1)|].
  intros bs t2 (Hb2 & _ & _ & _ & Htt2). destruct bs as [b2 []]. simpl in Hb2. subst b2.
  cbv beta iota. apply returns_ret. apply returns_ret. split.
  - exists (selects (mx + 1) F timeout k res), reads.
    split_and!; [|apply Forall_fmap, Forall_forall; by intros ? _|done].
    cbn [trace log].
    rewrite Htt2, (slot_insert h h _ wb t1 Hwfb Hh Hst1), decide_True by done.
    rewrite closes_disarm, app_nil_r, Htt1, Hslotb, Hslot2, closes_arm, Htrb, Htv2.
    by rewrite <- !app_assoc.
  - intros ready Hready Hin.
    assert (rfd1 ∈ F) as HinF by (unfold F; apply elem_of_union_l; by apply elem_of_singleton).
    assert (rfd1 < mx + 1) as Hlt by (unfold mx; lia).
    split.
    + apply (Hret ready 0%nat h Hready eq_refl); by rewrite Hfd.
    + apply (Hret ready 1%nat h Hready eq_refl); by rewrite Hfd.
Qed.

(** ** The lock around the table *)

(** X24.  [install] and the lock: when [pthread_mutex_lock] fails, the
    failed attempt is the only call and no unlock follows; when it succeeds,
    the calls are the lock, at most one [signal] followed by the two atomic
    stores of a success, and the unlock, on every path: full table, refused
    signal and success. *)
Theorem install_lock_discipline (mr sig : Z) (w : world) :
  wf w →
  (mr ≠ 0 →
   Mono_Unix_UnixSignal_install P mr sig w =
     (NULL, set_errno mr (log (EvLock mr) w))) ∧
  (mr = 0 →
   ∃ mid, trace (Mono_Unix_UnixSignal_install P mr sig w).2 =
            trace w ++ [EvLock 0] ++ mid ++ [EvUnlock] ∧
          Forall (λ e, call_of e = CSignal ∨ call_of e = CAtomicSet) mid ∧
          (length (calls_of CSignal mid) ≤ 1)%nat).
Proof.
  intros Hwf. split.
  { intros Hmr. unfold Mono_Unix_UnixSignal_install. by rewrite decide_True. }
  intros ->.
  destruct (decide (Exists (λ y, signum y = 0) (signals w))) as [Hfree|Hfull].
  - apply Exists_exists in Hfree.
    destruct (first_at_exists free (signals w) Hfree) as (i & x & Hx).
    destruct (decide ((0 < sig ∧ uncatchable P sig = false) ∧
                      dispositions w sig ≠ SIG_ERR)) as [[Hc Hd]|Hno].
    + destruct (install_succeeds P sig w i x Hwf Hx Hc Hd) as (hd & _ & ->).
      exists [EvSignal sig (default_handler_ptr P) (dispositions w sig);
              EvAtomicSet i f_count 0; EvAtomicSet i f_signum sig].
      split; [done|]. split; [|done].
      repeat (apply Forall_cons; split; [by (left + right)|]). apply Forall_nil_2.
    + rewrite (install_refused sig w i x) by done.
      unfold install_failed, sys_signal.
      destruct (decide (0 < sig ∧ uncatchable P sig = false)).
      * exists [EvSignal sig (default_handler_ptr P) (dispositions w sig)].
        cbn [snd trace log set_signals set_dispositions].
        split; [by rewrite <- !app_assoc|]. split; [|done].
        apply Forall_cons; split; [by left|apply Forall_nil_2].
      * exists [EvSignal sig (default_handler_ptr P) SIG_ERR].
        cbn [snd trace log set_signals set_errno].
        split; [by rewrite <- !app_assoc|]. split; [|done].
        apply Forall_cons; split; [by left|apply Forall_nil_2].
  - rewrite install_no_free_slot; [|done|].
    + exists []. split; [done|]. split; [apply Forall_nil_2|simpl; lia].
    + intros y Hy Hs. apply Hfull, Exists_exists. by exists y.
Qed.

(** X25.  [uninstall] and the lock: whenever it returns with the lock
    taken, for a pointer it rejects as for the address of a slot, its calls
    are the lock, at most one [signal], and the unlock; the [signal], if
    any, asks for the handler that was saved in the slot, for the signal
    that the slot held. *)
Theorem uninstall_lock_discipline (info : Z) (w : world) (r : Z) (w' : world) :
  wf w →
  Mono_Unix_UnixSignal_uninstall P 0 info w = Done r w' →
  trace w' = trace w ++ [EvLock 0; EvUnlock] ∨
  ∃ i x ret, slot_of P info = Some i ∧ signals w !! i = Some x ∧
             trace w' = trace w ++
               [EvLock 0; EvSignal (signum x) (handler x) ret; EvUnlock].
Proof.
  intros Hwf Hrun.
  destruct (decide (info = NULL ∨ info < signals_base P ∨ info > addr_of P NUM_SIGNALS))
    as [Hout|Hin].
  { rewrite uninstall_rejected in Hrun by done. inversion Hrun; subst. by left. }
  destruct (slot_of P info) as [i|] eqn:Hslot.
  - apply slot_of_Some in Hslot as [Hi ->].
    destruct (lookup_lt_is_Some_2 (signals w) i) as [x Hx]; [by rewrite Hwf|].
    destruct (decide (have_handler x ≠ 0 ∧
                      length (holders (signum x) (signals w)) = 1%nat)) as [[Hh Hone]|Hno].
    + right. exists i, x.
      destruct (decide (catchable (signum x))) as [Hc|Hc].
      * rewrite (uninstall_last P w i x) in Hrun by done. inversion Hrun; subst r w'.
        by eexists.
      * rewrite (uninstall_refused P w i x) in Hrun by done. inversion Hrun; subst r w'.
        by eexists.
    + rewrite (uninstall_shared P w i x) in Hrun by done. inversion Hrun; subst r w'.
      by left.
  - unfold Mono_Unix_UnixSignal_uninstall in Hrun.
    rewrite decide_False, decide_False, Hslot in Hrun by (done || lia). done.
Qed.

End Coverage.

(** * The claims evaluated on the run *)

Lemma wf_boot : wf boot.
Proof. reflexivity. Qed.

Lemma wf_once : wf once.
Proof. unfold wf. vm_compute. reflexivity. Qed.

Lemma wf_twice : wf twice.
Proof. unfold wf. vm_compute. reflexivity. Qed.

Lemma wf_freed : wf freed.
Proof. unfold wf. vm_compute. reflexivity. Qed.

(** C2 on the run: with two registrations of signal 10, [uninstall] of the
    first returns [-1]. *)
Lemma uninstall_shared_returns_failure_witness :
  signum (slot 0 twice) = 10 ∧ signum (slot 1 twice) = 10 ∧
  Mono_Unix_UnixSignal_uninstall linux 0 (addr_of linux 0) twice =
    Done (-1) (released twice 0 (slot 0 twice)).
Proof.
  split; [vm_compute; reflexivity|]. split; [vm_compute; reflexivity|].
  apply (uninstall_shared_returns_failure linux twice 0 1 (slot 0 twice) (slot 1 twice)).
  - unfold wf. vm_compute. reflexivity.
  - vm_compute. reflexivity.
  - vm_compute. reflexivity.
  - lia.
  - vm_compute. lia.
  - vm_compute. reflexivity.
Defined.

(** C4 is false for a handle that was freed: the second [uninstall] of the
    same handle returns [-1] but leaves [errno] at [0]. *)
Lemma freed_handle_not_rejected :
  returned (Mono_Unix_UnixSignal_uninstall linux 0 (addr_of linux 0) once) = Some 0 ∧
  signum (slot 0 freed) = 0 ∧
  returned (Mono_Unix_UnixSignal_uninstall linux 0 (addr_of linux 0) freed) = Some (-1) ∧
  errno <$> state_of (Mono_Unix_UnixSignal_uninstall linux 0 (addr_of linux 0) freed)
    = Some 0 ∧
  errno <$> state_of (Mono_Unix_UnixSignal_uninstall linux 0 (addr_of linux 0) freed)
    ≠ Some EINVAL.
Proof.
  split_and!; try (vm_compute; reflexivity).
  vm_compute. discriminate.
Qed.

Lemma uninstall_invalid_handle_witness :
  Mono_Unix_UnixSignal_uninstall linux 0 NULL freed = Done (-1) (rejected freed) ∧
  Mono_Unix_UnixSignal_uninstall linux 0 (addr_of linux 64 + 1) freed
    = Done (-1) (rejected freed) ∧
  signum (slot 0 freed) = 0 ∧
  ∃ w', Mono_Unix_UnixSignal_uninstall linux 0 (addr_of linux 0) freed = Done (-1) w' ∧
        dispositions w' = dispositions freed ∧
        signals w' = signals freed ∧ errno w' = errno freed ∧
        trace w' = trace freed ++ [EvLock 0; EvUnlock].
Proof.
  destruct (uninstall_invalid_handle linux freed) as [Hrej Hfreed].
  - unfold wf. vm_compute. reflexivity.
  - split; [apply Hrej; left; reflexivity|].
    split; [apply Hrej; right; right; vm_compute; reflexivity|].
    split; [vm_compute; reflexivity|].
    destruct (Hfreed 0%nat (slot 0 freed)) as (w' & Hw' & Hd & Hrest).
    + vm_compute. reflexivity.
    + vm_compute. reflexivity.
    + exists w'. split; [exact Hw'|]. split; [exact Hd|].
      apply Hrest. right. vm_compute. lia.
Defined.

(** C5 is false as stated: the second [install] of signal 10 calls [signal]
    again, and gets [default_handler] back. *)
Lemma second_install_calls_signal :
  signum (slot 0 once) = 10 ∧
  drop (length (trace once)) (trace twice) =
    [EvLock 0; EvSignal 10 8192 8192; EvAtomicSet 1 f_count 0;
     EvAtomicSet 1 f_signum 10; EvUnlock].
Proof. split; vm_compute; reflexivity. Qed.

Lemma install_copies_saved_disposition_witness :
  signum (slot 0 once) = 10 ∧ handler (slot 0 once) = SIG_DFL ∧
  Mono_Unix_UnixSignal_install linux 0 10 once =
    (addr_of linux 1, installed linux 10 once 1 (slot 1 once) SIG_DFL).
Proof.
  split; [vm_compute; reflexivity|]. split; [vm_compute; reflexivity|].
  apply (install_copies_saved_disposition linux 10 once 1 0 (slot 1 once) (slot 0 once)).
  - unfold wf. vm_compute. reflexivity.
  - split; [vm_compute; reflexivity|]. split; [vm_compute; reflexivity|].
    intros k y Hk Hy. assert (k = 0%nat) as -> by lia.
    vm_compute in Hy. inversion Hy. vm_compute. lia.
  - split; [vm_compute; reflexivity|]. split.
    + split; [vm_compute; reflexivity|vm_compute; lia].
    + intros k y Hk. lia.
  - split; [lia|vm_compute; reflexivity].
  - vm_compute. lia.
Defined.

(** C8 is false past [INT_MAX]: after [2 ^ 31] deliveries of signal 10 the
    count of its registration is [INT_MIN], not [2 ^ 31]. *)
Lemma fired_count_wraps :
  count (slot 0 once) = 0 ∧ write_fd (slot 0 once) = 0 ∧
  count (slot 0 (deliver (2 ^ 31) 10 once)) = INT_MIN ∧
  count (slot 0 (deliver (2 ^ 31) 10 once)) ≠ Z.of_N (2 ^ 31).
Proof.
  assert (count (slot 0 (deliver (2 ^ 31) 10 once)) = INT_MIN) as Hc.
  { rewrite (deliver_count (2 ^ 31) 10 once 0 (slot 0 once) wf_once).
    - vm_compute. reflexivity.
    - vm_compute. reflexivity.
    - vm_compute. reflexivity.
    - vm_compute. split; discriminate. }
  split; [vm_compute; reflexivity|]. split; [vm_compute; reflexivity|].
  split; [exact Hc|]. rewrite Hc. vm_compute. discriminate.
Qed.

Lemma default_handler_fans_out_witness :
  signals (default_handler 10 twice) = bump 10 <$> signals twice ∧
  trace (default_handler 10 twice) = trace twice ∧
  count (slot 0 (default_handler 10 twice)) = 1 ∧
  count (slot 1 (default_handler 10 twice)) = 1 ∧
  ∃ x', signals (deliver 3 10 twice) !! 1%nat = Some x' ∧ count x' = 3 ∧
        trace (deliver 3 10 twice) = trace twice.
Proof.
  destruct (default_handler_fans_out 10 twice wf_twice) as (Hs & Ht & Hone & Hn).
  split; [exact Hs|].
  split; [rewrite Ht; vm_compute; reflexivity|].
  split; [unfold slot; rewrite Hs; vm_compute; reflexivity|].
  split; [unfold slot; rewrite Hs; vm_compute; reflexivity|].
  apply (Hn 3%N 1%nat (slot 1 twice)).
  - vm_compute. reflexivity.
  - vm_compute. reflexivity.
  - vm_compute. reflexivity.
  - vm_compute. discriminate.
  - intros y Hy _. revert y Hy. apply Forall_forall.
    apply (bool_decide_unpack (Forall (λ y : signal_info, write_fd y = 0) (signals twice))).
    vm_compute. exact I.
Defined.

Lemma consistent_boot : consistent linux boot.
Proof.
  intros y Hy Hlive. apply elem_of_replicate in Hy as [-> _]. by destruct Hlive.
Qed.

Lemma install_uninstall_restores_witness :
  Mono_Unix_UnixSignal_install linux 0 10 boot = (addr_of linux 0, once) ∧
  ∃ i r w2,
    addr_of linux 0 = addr_of linux i ∧
    Mono_Unix_UnixSignal_uninstall linux 0 (addr_of linux 0) once = Done r w2 ∧
    (∀ s, dispositions w2 s = dispositions boot s) ∧
    (holders 10 (signals boot) = [] →
     r = 0 ∧
     trace w2 = trace boot ++
       [EvLock 0; EvSignal 10 (default_handler_ptr linux) (dispositions boot 10);
        EvAtomicSet i f_count 0; EvAtomicSet i f_signum 10; EvUnlock;
        EvLock 0; EvSignal 10 (dispositions boot 10) (default_handler_ptr linux);
        EvUnlock]).
Proof.
  assert (Mono_Unix_UnixSignal_install linux 0 10 boot = (addr_of linux 0, once)) as Hi.
  { vm_compute. reflexivity. }
  split; [exact Hi|].
  apply (install_uninstall_restores linux 10 boot (addr_of linux 0) once).
  - exact wf_boot.
  - exact consistent_boot.
  - exact Hi.
  - vm_compute. discriminate.
Defined.

Lemma install_resets_count_before_publishing_witness :
  ∃ i x issued,
    addr_of linux 1 = addr_of linux i ∧ signals once !! i = Some x ∧ signum x = 0 ∧
    count (slot i twice) = 0 ∧ signum (slot i twice) = 10 ∧
    trace twice = trace once ++ issued ∧
    (∃ before, issued = before ++
       [EvAtomicSet i f_count 0; EvAtomicSet i f_signum 10; EvUnlock]) ∧
    (∀ n, signum (observe (take n issued) (signals once) !!! i) = 10 →
          count (observe (take n issued) (signals once) !!! i) = 0).
Proof.
  apply (install_resets_count_before_publishing linux 0 10 once (addr_of linux 1) twice).
  - exact wf_once.
  - unfold twice. vm_compute. reflexivity.
  - vm_compute. discriminate.
Defined.

(** C1 is false as stated: in a wait on the first registration, [select] is
    issued between the lock and the unlock. *)
Lemma WaitAny_selects_under_lock :
  selects_all false false <$>
    issued_since once
      (Mono_Unix_UnixSignal_WaitAny linux 0 (wake {[3]}) [addr_of linux 0] 1 1000 once)
  = Some false ∧
  issued_since once
    (Mono_Unix_UnixSignal_WaitAny linux 0 (wake {[3]}) [addr_of linux 0] 1 1000 once)
  = Some [EvLock 0; EvPipe (PipeOk 3 4);
          EvSelect 4 {[3]} (Some (1, 0)) (SelErr EINTR);
          EvSelect 4 {[3]} (Some (1, 0)) (SelReturns {[3]});
          EvRead 3 1; EvClose 3; EvClose 4; EvUnlock].
Proof. split; vm_compute; reflexivity. Qed.

(** C3 is false as stated: a wait on two registrations with a timeout of one
    millisecond returns [1] when it times out, and [1] as well when the
    second registration fired. *)
Lemma timeout_value_is_an_index :
  returned (Mono_Unix_UnixSignal_WaitAny linux 0 (wake ∅)
              [addr_of linux 0; addr_of linux 1] 2 1 twice) = Some 1 ∧
  returned (Mono_Unix_UnixSignal_WaitAny linux 0 (wake {[5]})
              [addr_of linux 0; addr_of linux 1] 2 1 twice) = Some 1.
Proof. split; vm_compute; reflexivity. Qed.

Lemma fresh_pipes_ok (ready : gset Z) (n : nat) : pipes_ok (wake ready) n.
Proof. intros i _. unfold wake, fresh_pipes; simpl. by eexists _, _. Qed.

Lemma WaitAny_timeout_returns_timeout_witness :
  ∃ r w',
    Mono_Unix_UnixSignal_WaitAny linux 0 (wake ∅) (addr_of linux <$> [0; 1]%nat)
      (Z.of_nat (length [0; 1]%nat)) 1000 twice = Done r w' ∧
    r = 1000 ∧ r ≠ -1 ∧ reads_of (trace w') = reads_of (trace twice).
Proof.
  apply (WaitAny_timeout_returns_timeout linux (wake ∅) [0; 1]%nat 1000 1 ∅ []).
  - exact wf_twice.
  - repeat constructor; unfold NUM_SIGNALS; lia.
  - discriminate.
  - apply fresh_pipes_ok.
  - reflexivity.
  - intros i _. apply not_elem_of_empty.
  - lia.
Defined.

Lemma WaitAny_returns_lowest_ready_witness :
  ∃ i0 w',
    Mono_Unix_UnixSignal_WaitAny linux 0 (wake {[5]}) (addr_of linux <$> [0; 1]%nat)
      (Z.of_nat (length [0; 1]%nat)) 1000 twice = Done (Z.of_nat i0) w' ∧
    (i0 < length [0; 1]%nat)%nat ∧ pipe_rfd (wake {[5]}) i0 ∈ ({[5]} : gset Z) ∧
    (∀ i, (i < i0)%nat → pipe_rfd (wake {[5]}) i ∉ ({[5]} : gset Z)) ∧
    reads_of (trace w') = reads_of (trace twice) ++
      ((λ fd, (fd, 1)) <$>
         filter (λ fd, fd ∈ ({[5]} : gset Z))
                (pipe_rfd (wake {[5]}) <$> seq 0 (length [0; 1]%nat))) ∧
    NoDup (filter (λ fd, fd ∈ ({[5]} : gset Z))
                  (pipe_rfd (wake {[5]}) <$> seq 0 (length [0; 1]%nat))).
Proof.
  apply (WaitAny_returns_lowest_ready linux (wake {[5]}) [0; 1]%nat 1000 1 {[5]} []).
  - exact wf_twice.
  - repeat constructor; unfold NUM_SIGNALS; lia.
  - apply (bool_decide_unpack (NoDup [0; 1]%nat)). vm_compute. exact I.
  - apply fresh_pipes_ok.
  - apply (bool_decide_unpack (NoDup [3; 5])). vm_compute. exact I.
  - reflexivity.
  - intros i _ _. reflexivity.
  - exists 1%nat. split; [simpl; lia|]. apply elem_of_singleton. reflexivity.
Defined.

(** C7 is false for a handle passed twice.  The slot keeps the second pipe
    only: when [select] reports that pipe, the call reads it once for each
    occurrence of the handle and returns [0], the index of a pipe that was
    not reported; and when the pipe holds a single byte, the second [read]
    does not return. *)
Lemma duplicate_handle_read_twice :
  (pipe_rfd (wake {[5]}) 0 ∉ ({[5]} : gset Z)) ∧
  returned (Mono_Unix_UnixSignal_WaitAny linux 0 (wake {[5]})
              [addr_of linux 0; addr_of linux 0] 2 1000 once) = Some 0 ∧
  (reads_of <$>
     issued_since once
       (Mono_Unix_UnixSignal_WaitAny linux 0 (wake {[5]})
          [addr_of linux 0; addr_of linux 0] 2 1000 once))
  = Some [(5, 1); (5, 1)] ∧
  returned (Mono_Unix_UnixSignal_WaitAny linux 0 (wake_once {[5]})
              [addr_of linux 0; addr_of linux 0] 2 1000 once) = None ∧
  issued_since once
    (Mono_Unix_UnixSignal_WaitAny linux 0 (wake_once {[5]})
       [addr_of linux 0; addr_of linux 0] 2 1000 once)
  = Some [EvLock 0; EvPipe (PipeOk 3 4); EvPipe (PipeOk 5 6);
          EvSelect 6 {[3; 5]} (Some (1, 0)) (SelErr EINTR);
          EvSelect 6 {[3; 5]} (Some (1, 0)) (SelReturns {[5]});
          EvRead 5 1].
Proof.
  split; [|split_and!; vm_compute; reflexivity].
  intros Hin. apply elem_of_singleton in Hin. vm_compute in Hin. discriminate.
Qed.

(** C6 on the run: no handles, no timeout, and a [select] that never
    returns. *)
Lemma WaitAny_empty_not_rejected_witness :
  Mono_Unix_UnixSignal_WaitAny linux 0
    {| env_r0 := 0; env_pipe := fresh_pipes; env_select := [];
       env_read := λ _, true |} [] 0 (-1) boot
  = Blocked (log (EvLock 0) boot) ∧
  Mono_Unix_UnixSignal_WaitAny linux 0
    {| env_r0 := 7; env_pipe := fresh_pipes; env_select := [];
       env_read := λ _, true |} [] 0 (-1) boot
  = Done 7 (log EvUnlock (log (EvLock 0) boot)).
Proof.
  destruct (WaitAny_empty_not_rejected linux fresh_pipes (λ _, true) (-1) boot)
    as (Hjunk & Hblock & _).
  split; [exact Hblock|]. exact (Hjunk 7%positive []).
Defined.

(** * The further properties evaluated on the run *)

Lemma wf_crowded : wf crowded.
Proof. unfold wf. vm_compute. reflexivity. Qed.

Lemma crowded_full (y : signal_info) : y ∈ signals crowded → signum y ≠ 0.
Proof.
  revert y. apply Forall_forall.
  apply (bool_decide_unpack (Forall (λ y : signal_info, signum y ≠ 0) (signals crowded))).
  vm_compute. exact I.
Qed.

Lemma consistent_once : consistent linux once.
Proof.
  unfold consistent.
  apply (Forall_forall
    (λ y : signal_info,
       signum y ≠ 0 → dispositions once (signum y) = default_handler_ptr linux)).
  apply (bool_decide_unpack
    (Forall (λ y : signal_info,
               signum y ≠ 0 → dispositions once (signum y) = default_handler_ptr linux)
            (signals once))).
  vm_compute. exact I.
Qed.

Lemma valid_pair : Forall (λ k, (k < NUM_SIGNALS)%nat) [0; 1]%nat.
Proof. repeat constructor; unfold NUM_SIGNALS; lia. Qed.

Lemma NoDup_pair : NoDup [0; 1]%nat.
Proof. apply (bool_decide_unpack (NoDup [0; 1]%nat)). vm_compute. exact I. Qed.

Lemma first_free_once : first_at free (signals once) 1 (slot 1 once).
Proof.
  split; [vm_compute; reflexivity|]. split; [vm_compute; reflexivity|].
  intros k y Hk Hy. assert (k = 0%nat) as -> by lia.
  vm_compute in Hy. inversion Hy. vm_compute. discriminate.
Qed.

Lemma broken_pipes_ok : pipes_ok broken_pipes 1.
Proof.
  intros i Hi. assert (i = 0%nat) as -> by lia. by eexists _, _.
Qed.

Lemma count_handlers_counts_witness :
  count_handlers 10 twice =
    Z.of_nat (length (filter (λ x, signum x = 10) (signals twice))) ∧
  0 ≤ count_handlers 10 twice ≤ Z.of_nat NUM_SIGNALS.
Proof.
  destruct (count_handlers_counts 10 twice wf_twice) as (H1 & H2 & _).
  split; [exact H1|exact H2].
Defined.

Lemma uninstall_last_restores_witness :
  ∃ w', Mono_Unix_UnixSignal_uninstall linux 0 (addr_of linux 0) once = Done 0 w' ∧
        dispositions w' (signum (slot 0 once)) = handler (slot 0 once) ∧
        count_handlers (signum (slot 0 once)) w' = 0.
Proof.
  assert (signum (slot 0 once) = 10) as Hten by (vm_compute; reflexivity).
  destruct (uninstall_last_restores linux once 0 (slot 0 once))
    as (w' & Hrun & Hd & _ & _ & _ & _ & _ & Hc).
  - exact wf_once.
  - vm_compute. reflexivity.
  - vm_compute. discriminate.
  - rewrite Hten. split; vm_compute; reflexivity.
  - rewrite Hten. vm_compute. discriminate.
  - intros j y Hj Hy. rewrite Hten.
    assert (Forall (λ y : signal_info, signum y ≠ 10) (drop 1 (signals once))) as HF.
    { apply (bool_decide_unpack
        (Forall (λ y : signal_info, signum y ≠ 10) (drop 1 (signals once)))).
      vm_compute. exact I. }
    destruct j as [|j]; [exfalso; apply Hj; reflexivity|].
    apply (Forall_lookup_1 (λ y : signal_info, signum y ≠ 10) _ j y HF).
    rewrite lookup_drop. exact Hy.
  - exists w'. split; [exact Hrun|]. split; [exact Hd|exact Hc].
Defined.

Lemma install_full_table_witness :
  Mono_Unix_UnixSignal_install linux 0 12 crowded =
    (NULL,
     {| signals := signals crowded; dispositions := dispositions crowded;
        errno := errno crowded; trace := trace crowded ++ [EvLock 0; EvUnlock] |}).
Proof. apply (install_full_table linux 12 crowded wf_crowded crowded_full). Defined.

Lemma install_uncatchable_witness :
  Mono_Unix_UnixSignal_install linux 0 9 once =
    (NULL,
     {| signals := <[1%nat := set_handler NULL (slot 1 once)]> (signals once);
        dispositions := dispositions once; errno := EINVAL;
        trace := trace once ++
          [EvLock 0; EvSignal 9 (default_handler_ptr linux) SIG_ERR; EvUnlock] |}).
Proof.
  apply (install_uncatchable linux 9 once 1 (slot 1 once) wf_once first_free_once).
  intros [_ H]. vm_compute in H. discriminate.
Defined.

Lemma install_succeeds_iff_witness :
  (Mono_Unix_UnixSignal_install linux 0 10 boot).1 ≠ NULL ↔
  0 = 0 ∧ (∃ y, y ∈ signals boot ∧ free y) ∧ catchable linux 10 ∧
  dispositions boot 10 ≠ SIG_ERR.
Proof. apply (install_succeeds_iff linux 0 10 boot wf_boot). Defined.

Lemma install_allocates_first_free_witness :
  ∃ i x, first_at free (signals once) i x ∧
         addr_of linux 1 = addr_of linux i ∧ slot_of linux (addr_of linux 1) = Some i ∧
         (∀ j, j ≠ i → signals twice !! j = signals once !! j) ∧
         length (signals twice) = NUM_SIGNALS ∧
         read_fd (slot i twice) = read_fd x ∧ write_fd (slot i twice) = write_fd x ∧
         have_handler (slot i twice) = 1.
Proof.
  apply (install_allocates_first_free linux 0 10 once (addr_of linux 1) twice).
  - exact wf_once.
  - unfold twice. vm_compute. reflexivity.
  - vm_compute. discriminate.
Defined.

Lemma install_keeps_invariant_witness :
  wf (Mono_Unix_UnixSignal_install linux 0 10 boot).2 ∧
  consistent linux (Mono_Unix_UnixSignal_install linux 0 10 boot).2.
Proof. apply (install_keeps_invariant linux 0 10 boot wf_boot consistent_boot). Defined.

Lemma uninstall_keeps_invariant_witness : wf freed ∧ consistent linux freed.
Proof.
  apply (uninstall_keeps_invariant linux 0 (addr_of linux 0) once 0 freed).
  - exact wf_once.
  - exact consistent_once.
  - vm_compute. reflexivity.
Defined.

Lemma setup_pipes_arms_witness :
  ∃ s w',
    setup_pipes linux (wake ∅) (addr_of linux <$> [0; 1]%nat)
      (Z.of_nat (length [0; 1]%nat)) ∅ 0 twice = Done s w' ∧
    s = (0, list_to_set (pipe_rfd (wake ∅) <$> seq 0 2), 5) ∧
    trace w' = trace twice ++ [EvPipe (PipeOk 3 4); EvPipe (PipeOk 5 6)] ∧
    slot 1 w' = arm 5 6 (slot 1 twice).
Proof.
  destruct (setup_pipes_arms linux (wake ∅) [0; 1]%nat twice wf_twice valid_pair
              (fresh_pipes_ok ∅ 2)) as (s & w' & Hrun & Hs & Htr & _ & _ & Hin).
  exists s, w'. split; [exact Hrun|]. split; [exact Hs|]. split; [exact Htr|].
  exact (Hin NoDup_pair 1%nat 1%nat eq_refl).
Defined.

Lemma setup_pipes_stops_at_failure_witness :
  ∃ s w',
    setup_pipes linux broken_pipes (addr_of linux <$> [0; 1]%nat)
      (Z.of_nat (length [0; 1]%nat)) ∅ 0 twice = Done s w' ∧
    s.1.1 = -1 ∧ errno w' = EMFILE ∧
    trace w' = trace twice ++ [EvPipe (PipeOk 3 4); EvPipe (PipeErr EMFILE)] ∧
    slot 1 w' = slot 1 twice.
Proof.
  destruct (setup_pipes_stops_at_failure linux broken_pipes [0; 1]%nat 1 EMFILE twice)
    as (s & w' & Hrun & Hs & Htr & He & _ & Hout & _).
  - exact wf_twice.
  - exact valid_pair.
  - simpl. lia.
  - exact broken_pipes_ok.
  - reflexivity.
  - exists s, w'. split; [exact Hrun|]. split; [by rewrite Hs|]. split; [exact He|].
    split; [exact Htr|]. apply Hout. simpl. intros Hin.
    apply list_elem_of_singleton in Hin. discriminate.
Defined.

Lemma teardown_pipes_disarms_witness :
  ∃ w',
    teardown_pipes linux (addr_of linux <$> [0; 1]%nat) (Z.of_nat (length [0; 1]%nat))
      twice = Done () w' ∧
    slot 0 w' = disarm (slot 0 twice) ∧ slot 2 w' = slot 2 twice ∧
    trace w' = trace twice ++ flat_map (λ k, closes (slot k twice)) [0; 1]%nat.
Proof.
  destruct (teardown_pipes_disarms linux [0; 1]%nat twice wf_twice valid_pair)
    as ([] & w' & Hrun & Hslot & _ & _ & Hnd).
  exists w'. split; [exact Hrun|]. split; [|split].
  - rewrite Hslot. reflexivity.
  - rewrite Hslot. reflexivity.
  - exact (Hnd NoDup_pair).
Defined.

Lemma wait_for_any_retries_select_witness :
  ∃ r w',
    wait_for_any linux (wake {[5]}) (addr_of linux <$> [0; 1]%nat)
      (Z.of_nat (length [0; 1]%nat)) 5 {[3; 5]} 1000 twice = Done r w' ∧
    signals w' = signals twice ∧
    ∃ evs, trace w' = trace twice ++ selects 6 {[3; 5]} 1000 1 (SelReturns {[5]}) ++ evs ∧
           Forall (λ e, call_of e = CRead) evs.
Proof.
  pose proof (wait_for_any_retries_select linux (wake {[5]}) [0; 1]%nat 1
                (SelReturns {[5]}) [] 5 {[3; 5]} 1000 twice valid_pair eq_refl) as H.
  destruct (wait_for_any linux (wake {[5]}) (addr_of linux <$> [0; 1]%nat)
              (Z.of_nat (length [0; 1]%nat)) 5 {[3; 5]} 1000 twice) as [r w'| |w'].
  - destruct H as (Hs & _ & _ & evs & Htr & Hevs & _); [discriminate|].
    exists r, w'. split; [reflexivity|]. split; [exact Hs|].
    exists evs. split; [exact Htr|exact Hevs].
  - destruct H. discriminate.
  - destruct H as ((ready & i & h & _ & _ & _ & _ & Hr) & _); [discriminate|].
    discriminate Hr.
Defined.

Lemma WaitAny_disarms_witness :
  (read_fd (slot 0 woken) = 0 ∧ write_fd (slot 0 woken) = 0) ∧
  (read_fd (slot 1 woken) = 0 ∧ write_fd (slot 1 woken) = 0).
Proof.
  assert (Mono_Unix_UnixSignal_WaitAny linux 0 (wake {[5]}) (addr_of linux <$> [0; 1]%nat)
            (Z.of_nat (length [0; 1]%nat)) 1000 twice = Done 1 woken) as Hrun
    by (vm_compute; reflexivity).
  pose proof (WaitAny_disarms linux (wake {[5]}) [0; 1]%nat 1000 twice 1 woken
                wf_twice valid_pair Hrun) as H.
  split; apply H.
  - apply list_elem_of_here.
  - apply list_elem_of_further, list_elem_of_here.
Defined.

Lemma WaitAny_pipe_failure_witness :
  ∃ r w',
    Mono_Unix_UnixSignal_WaitAny linux 0 broken_pipes (addr_of linux <$> [0; 1]%nat)
      (Z.of_nat (length [0; 1]%nat)) 1000 twice = Done r w' ∧
    r = -1 ∧
    ∃ evs, trace w' = trace twice ++ [EvLock 0] ++ pipes_of broken_pipes 2 ++ evs
                                  ++ [EvUnlock] ∧
           evs = flat_map (pipe_closes broken_pipes) (seq 0 1) ++
                 flat_map (λ h, closes (slot h twice)) (drop 1 [0; 1]%nat).
Proof.
  destruct (WaitAny_pipe_failure linux broken_pipes [0; 1]%nat 1 EMFILE 1000 twice)
    as (r & w' & Hrun & Hr & _ & evs & Htr & _ & Hnd).
  - exact wf_twice.
  - exact valid_pair.
  - simpl. lia.
  - exact broken_pipes_ok.
  - reflexivity.
  - exists r, w'. split; [exact Hrun|]. split; [exact Hr|].
    exists evs. split; [exact Htr|exact (Hnd NoDup_pair)].
Defined.

Lemma WaitAny_call_sequence_witness :
  ∃ r w' reads cls,
    Mono_Unix_UnixSignal_WaitAny linux 0 (wake {[5]}) (addr_of linux <$> [0; 1]%nat)
      (Z.of_nat (length [0; 1]%nat)) 1000 twice = Done r w' ∧
    trace w' = trace twice ++ [EvLock 0] ++ pipes_of (wake {[5]}) (length [0; 1]%nat) ++
               selects (highest (pipe_rfd (wake {[5]}) <$> seq 0 (length [0; 1]%nat)) + 1)
                       (list_to_set (pipe_rfd (wake {[5]}) <$> seq 0 (length [0; 1]%nat)))
                       1000 1 (SelReturns {[5]}) ++
               reads ++ cls ++ [EvUnlock] ∧
    Forall (λ e, call_of e = CRead) reads ∧
    cls = flat_map (pipe_closes (wake {[5]})) (seq 0 (length [0; 1]%nat)).
Proof.
  assert ([0; 1]%nat ≠ []) as Hne by discriminate.
  assert (SelReturns {[5]} ≠ SelErr EINTR) as Hres by discriminate.
  pose proof (WaitAny_call_sequence linux (wake {[5]}) [0; 1]%nat 1 (SelReturns {[5]}) []
                1000 twice wf_twice valid_pair Hne (fresh_pipes_ok {[5]} 2) eq_refl Hres)
    as H.
  destruct (Mono_Unix_UnixSignal_WaitAny linux 0 (wake {[5]}) (addr_of linux <$> [0; 1]%nat)
              (Z.of_nat (length [0; 1]%nat)) 1000 twice) as [r w'| |w'].
  - destruct H as (_ & reads & cls & Htr & Hreads & _ & _ & Hnd).
    exists r, w', reads, cls. split; [reflexivity|]. split; [exact Htr|].
    split; [exact Hreads|exact (Hnd NoDup_pair)].
  - destruct H.
  - destruct H as (_ & (i & _ & Hr) & _). discriminate Hr.
Defined.

Lemma default_handler_wakes_waiter_witness :
  ∃ s w1 before after,
    setup_pipes linux (wake ∅) (addr_of linux <$> [0; 1]%nat)
      (Z.of_nat (length [0; 1]%nat)) ∅ 0 twice = Done s w1 ∧
    trace (default_handler 10 w1) =
      trace w1 ++ before ++ [EvWrite (pipe_wfd (wake ∅) 1) (10 mod 256) 1] ++ after ∧
    count (slot 1 (default_handler 10 w1)) = int_wrap (count (slot 1 twice) + 1).
Proof.
  destruct (default_handler_wakes_waiter linux (wake ∅) [0; 1]%nat twice 10 1 1
              wf_twice valid_pair NoDup_pair (fresh_pipes_ok ∅ 2) eq_refl)
    as (s & w1 & Hrun & before & after & Htr & Hc).
  - vm_compute. reflexivity.
  - vm_compute. reflexivity.
  - exists s, w1, before, after. split; [exact Hrun|]. split; [exact Htr|exact Hc].
Defined.

Lemma install_adds_one_registration_witness :
  count_handlers 10 twice = count_handlers 10 once + 1 ∧
  count_handlers 0 twice = count_handlers 0 once - 1.
Proof.
  destruct (install_adds_one_registration linux 0 10 once (addr_of linux 1) twice)
    as [_ Hok].
  - exact wf_once.
  - unfold twice. vm_compute. reflexivity.
  - destruct Hok as (_ & H1 & H2 & _); [vm_compute; discriminate|].
    split; [exact H1|exact H2].
Defined.

Lemma uninstall_removes_one_registration_witness :
  signum (slot 0 freed) = 0 ∧
  count_handlers 10 freed = count_handlers 10 once - 1 + 0.
Proof.
  destruct (uninstall_removes_one_registration linux once 0 (slot 0 once) 0 freed)
    as [H0 Hc].
  - exact wf_once.
  - vm_compute. reflexivity.
  - vm_compute. reflexivity.
  - split; [exact H0|]. exact (Hc 10).
Defined.

Lemma two_registrations_restore_witness :
  ∃ w3 w4,
    Mono_Unix_UnixSignal_uninstall linux 0 (addr_of linux 0) twice = Done (-1) w3 ∧
    Mono_Unix_UnixSignal_uninstall linux 0 (addr_of linux 1) w3 = Done 0 w4 ∧
    dispositions w3 = dispositions twice ∧
    (∀ s, dispositions w4 s = dispositions boot s) ∧
    count_handlers 10 w4 = 0.
Proof.
  apply (two_registrations_restore linux 10 boot (addr_of linux 0) (addr_of linux 1)
           once twice (addr_of linux 0) (addr_of linux 1)).
  - exact wf_boot.
  - intros y Hy. apply elem_of_replicate in Hy as [-> _]. vm_compute. discriminate.
  - vm_compute. reflexivity.
  - vm_compute. discriminate.
  - unfold twice. vm_compute. reflexivity.
  - vm_compute. discriminate.
  - left. split; reflexivity.
Defined.

Lemma WaitAny_duplicate_handle_leaks_witness :
  ∃ r w' sel reads,
    Mono_Unix_UnixSignal_WaitAny linux 0 (wake {[5]}) (addr_of linux <$> [0; 0]%nat)
      (Z.of_nat (length [0; 0]%nat)) 1000 once = Done r w' ∧
    trace w' = trace once ++
      [EvLock 0; EvPipe (PipeOk 3 4); EvPipe (PipeOk 5 6)] ++
      sel ++ reads ++ (EvClose <$> filter (λ fd, fd ≠ 0) [5; 6]) ++ [EvUnlock] ∧
    Forall (λ e, call_of e = CSelect) sel ∧
    Forall (λ e, call_of e = CRead) reads.
Proof.
  assert ((0 < NUM_SIGNALS)%nat) as Hh by (unfold NUM_SIGNALS; lia).
  assert (SelReturns {[5]} ≠ SelErr EINTR) as Hres by discriminate.
  pose proof (WaitAny_duplicate_handle_leaks linux (wake {[5]}) 0 3 4 5 6 1
                (SelReturns {[5]}) [] 1000 once wf_once Hh eq_refl eq_refl eq_refl Hres)
    as H.
  destruct (Mono_Unix_UnixSignal_WaitAny linux 0 (wake {[5]}) (addr_of linux <$> [0; 0]%nat)
              (Z.of_nat (length [0; 0]%nat)) 1000 once) as [r w'| |w'].
  - destruct H as ((sel & reads & Htr & Hsel & Hreads) & _).
    exists r, w', sel, reads. split; [reflexivity|]. split; [exact Htr|].
    split; [exact Hsel|exact Hreads].
  - destruct H.
  - destruct H as (_ & ready & _ & _ & [Hr|Hr]); discriminate Hr.
Defined.

Lemma install_lock_discipline_witness :
  ∃ mid, trace (Mono_Unix_UnixSignal_install linux 0 10 boot).2 =
           trace boot ++ [EvLock 0] ++ mid ++ [EvUnlock] ∧
         Forall (λ e, call_of e = CSignal ∨ call_of e = CAtomicSet) mid ∧
         (length (calls_of CSignal mid) ≤ 1)%nat.
Proof.
  destruct (install_lock_discipline linux 0 10 boot wf_boot) as [_ H].
  apply H. reflexivity.
Defined.

Lemma uninstall_lock_discipline_witness :
  trace freed = trace once ++ [EvLock 0; EvUnlock] ∨
  ∃ i x ret, slot_of linux (addr_of linux 0) = Some i ∧ signals once !! i = Some x ∧
             trace freed = trace once ++
               [EvLock 0; EvSignal (signum x) (handler x) ret; EvUnlock].
Proof.
  apply (uninstall_lock_discipline linux (addr_of linux 0) once 0 freed wf_once).
  vm_compute. reflexivity.
Defined.
